(** * vscode-ff-debug: the Firefox remote-debugging protocol client

    A shallow embedding of the TypeScript sources

    - [ffProtocol.ts]: the framed socket transport ([FirefoxProtocol]),
    - [ffUrlHelper.ts]: the URL/path resolvers,
    - [ffSession.ts]: the actor registry, the [Actor] base class and its
      subclasses,
    - [ffDebug.ts]: the debug-adapter session ([FirefoxDebugSession]),

    and the properties of the specification proved (or refuted) about them. *)

From Stdlib Require Import ZArith List String Ascii Bool Lia Sorted.
From Stdlib Require Import DecimalNat DecimalFacts DecimalString FunctionalExtensionality.
From stdpp Require Import base option list sorting strings gmap.

Set Warnings "-register-all".

Local Open Scope Z_scope.
Local Open Scope nat_scope.

(* ===================================================================== *)
(** * Part 1: the framed transport ([ffProtocol.ts])                      *)
(* ===================================================================== *)

Module Transport.

(** A Node [Buffer] is a sequence of octets; [buffer[i]] is a number. *)
Abbreviation Buffer := (list Z).

Definition colon : Z := 0x3a.

(** [buffer[i] >= 0x30 && buffer[i] <= 0x39] *)
Definition is_digit (b : Z) : bool := ((0x30 <=? b) && (b <=? 0x39))%Z.

(** [while (i < buffer.length && buffer[i] >= 0x30 && buffer[i] <= 0x39) i++]:
    [rest] is the part of the buffer from index [i] on. *)
Fixpoint skip_digits (rest : Buffer) (i : nat) : nat :=
  match rest with
  | b :: rest' => if is_digit b then skip_digits rest' (S i) else i
  | [] => i
  end.

(** [buffer.slice(start, end)] / the octets [buffer.toString('utf8', start, end)]
    decodes. *)
Definition slice (buffer : Buffer) (start stop : nat) : Buffer :=
  take (stop - start) (drop start buffer).

(** [+str] for a string of ASCII decimal digits: its value.  (JavaScript
    computes it as a double; lengths are modelled as unbounded naturals.) *)
Definition digits_value (ds : Buffer) : nat :=
  fold_left (fun acc b => 10 * acc + Z.to_nat (b - 0x30)) ds 0.

(** [n + ':'] renders the number [n] in decimal, most significant digit
    first. *)
Fixpoint uint_bytes (d : Decimal.uint) : Buffer :=
  match d with
  | Decimal.Nil => []
  | Decimal.D0 d => 0x30%Z :: uint_bytes d
  | Decimal.D1 d => 0x31%Z :: uint_bytes d
  | Decimal.D2 d => 0x32%Z :: uint_bytes d
  | Decimal.D3 d => 0x33%Z :: uint_bytes d
  | Decimal.D4 d => 0x34%Z :: uint_bytes d
  | Decimal.D5 d => 0x35%Z :: uint_bytes d
  | Decimal.D6 d => 0x36%Z :: uint_bytes d
  | Decimal.D7 d => 0x37%Z :: uint_bytes d
  | Decimal.D8 d => 0x38%Z :: uint_bytes d
  | Decimal.D9 d => 0x39%Z :: uint_bytes d
  end.

Definition decimal (n : nat) : Buffer := uint_bytes (Nat.to_uint n).

Record Frame := { header : Buffer; payload : Buffer }.

(** What a call of [parseFirefoxPacket] or of the [data] callback can throw. *)
Inductive Exception :=
| InvalidPacketHeader      (* new Error('Invalid packet header') *)
| JSONSyntaxError.         (* JSON.parse rejects the body text *)

Section Parser.

(** The parsed message bodies, and [JSON.parse] applied to the UTF-8
    decoding of a body ([None]: [JSON.parse] throws a [SyntaxError]).  Both
    are JavaScript built-ins. *)
Variable msg : Type.
Variable JSON_parse : Buffer -> option msg.

(** The result of [parseFirefoxPacket]: [null], a packet, or an exception.
    A packet's [body] is [None] for JavaScript's [undefined]. *)
Inductive ParseResult :=
| Null
| Packet (lastPos : nat) (body : option msg)
| Throws (e : Exception).

Definition parseFirefoxPacket (buffer : Buffer) (pos : nat) : ParseResult :=
  let i := skip_digits (drop pos buffer) pos in
  if length buffer <=? i then Null                        (* need headers *)
  else if (i =? pos) || negb (bool_decide (buffer !! i = Some colon))
  then Throws InvalidPacketHeader
  else
    let contentLength := digits_value (slice buffer pos i) in
    let i := S i in
    if length buffer <? i + contentLength then Null       (* need entire packet data *)
    else
      let body := slice buffer i (i + contentLength) in
      match body with
      | [] => Packet (i + contentLength) None
      | _ :: _ =>
          match JSON_parse body with
          | Some m => Packet (i + contentLength) (Some m)
          | None => Throws JSONSyntaxError
          end
      end.

(** The [while] loop of the [data] callback.  [dispatched] collects, oldest
    first, the arguments [onExecuteCommand] is called with.  The recursion
    is on [fuel]; [on_data] supplies more than the loop can use. *)
Inductive LoopResult :=
| LoopExit (dispatched : list (option msg)) (pos : nat)
| LoopThrows (dispatched : list (option msg)) (e : Exception).

Fixpoint parse_loop (fuel : nat) (newBuffer : Buffer) (pos : nat)
    (dispatched : list (option msg)) : option LoopResult :=
  match fuel with
  | O => None
  | S fuel' =>
      if pos <? length newBuffer then
        match parseFirefoxPacket newBuffer pos with
        | Packet lastPos body =>
            parse_loop fuel' newBuffer lastPos (dispatched ++ [body])
        | Null => Some (LoopExit dispatched pos)
        | Throws e => Some (LoopThrows dispatched e)
        end
      else Some (LoopExit dispatched pos)
  end.

(** One run of the [client.on('data', ...)] callback on the retained buffer
    [ffBuffer] and the chunk [data]: either it returns, having dispatched
    [dispatched] and leaving [ffBuffer'], or an exception leaves the
    callback (nothing in the callback catches it) and [ffBuffer] keeps its
    old value. *)
Inductive DataResult :=
| DataReturns (dispatched : list (option msg)) (ffBuffer' : Buffer)
| DataThrows (dispatched : list (option msg)) (e : Exception) (ffBuffer' : Buffer).

Definition on_data (ffBuffer data : Buffer) : option DataResult :=
  let newBuffer := ffBuffer ++ data in
  match parse_loop (S (length newBuffer)) newBuffer 0 [] with
  | Some (LoopExit dispatched pos) =>
      Some (DataReturns dispatched
              (if pos <? length newBuffer then drop pos newBuffer
               else if 0 <? length ffBuffer then []
               else ffBuffer))
  | Some (LoopThrows dispatched e) => Some (DataThrows dispatched e ffBuffer)
  | None => None
  end.

(** The [data] events of a connection, one chunk each, from the retained
    buffer [ffBuffer] on ([ffBuffer] is a variable of [setupSocket] that
    the callback reads and assigns): everything dispatched, oldest first,
    and the buffer retained at the end; [None] when a callback throws. *)
Fixpoint feed (ffBuffer : Buffer) (chunks : list Buffer)
    : option (list (option msg) * Buffer) :=
  match chunks with
  | [] => Some ([], ffBuffer)
  | data :: chunks' =>
      match on_data ffBuffer data with
      | Some (DataReturns dispatched ffBuffer') =>
          match feed ffBuffer' chunks' with
          | Some (more, final) => Some (dispatched ++ more, final)
          | None => None
          end
      | _ => None
      end
  end.

(** What a [data] callback leaves in [ffBuffer]. *)
Definition retained (result : DataResult) : Buffer :=
  match result with
  | DataReturns _ ffBuffer' | DataThrows _ _ ffBuffer' => ffBuffer'
  end.

(** The [data] events of a connection, the throwing ones included.
    [setupSocket] has no statement that closes the socket, removes the
    listener or changes [_state] when the callback throws (only the
    ['end'] handler closes anything): the callback stays installed and
    the next event runs it on the [ffBuffer] the throwing call left.  The
    result lists what each event did, oldest first. *)
Fixpoint data_events (ffBuffer : Buffer) (chunks : list Buffer)
    : option (list DataResult) :=
  match chunks with
  | [] => Some []
  | data :: chunks' =>
      match on_data ffBuffer data with
      | Some result =>
          match data_events (retained result) chunks' with
          | Some results => Some (result :: results)
          | None => None
          end
      | None => None
      end
  end.

(** ** The wire format, in the specification's words

    A frame is an ASCII decimal length, [':'], then that many bytes of
    UTF-8 JSON.  [header] holds the digits, [payload] the body bytes. *)
Definition wf_frame (f : Frame) : bool :=
  negb (bool_decide (header f = []))
  && forallb is_digit (header f)
  && (digits_value (header f) =? length (payload f))
  && (bool_decide (payload f = []) || bool_decide (is_Some (JSON_parse (payload f)))).

(** The message a frame carries: none ([undefined]) for an empty body. *)
Definition frame_message (f : Frame) : option msg :=
  match payload f with
  | [] => None
  | _ :: _ => JSON_parse (payload f)
  end.

End Parser.

(** [sendResponse] writes [Buffer.concat([headerBytes, buffer])], where
    [buffer] holds the UTF-8 bytes of [JSON.stringify(body)] and
    [headerBytes] those of [buffer.length + ':']. *)
Definition sendResponse (buffer : Buffer) : Buffer :=
  decimal (length buffer) ++ [colon] ++ buffer.

Definition frame_bytes (f : Frame) : Buffer := header f ++ colon :: payload f.

(** The bytes of a sequence of frames, as they follow each other on the
    connection. *)
Definition stream (frames : list Frame) : Buffer :=
  concat (map frame_bytes frames).

(** What the callback retains between two chunks of [frames]: nothing,
    or the beginning of the first of them, not all of it. *)
Definition pending (tail : Buffer) (frames : list Frame) : Prop :=
  tail = []
  \/ exists f fs suf, frames = f :: fs /\ frame_bytes f = tail ++ suf /\ suf <> [].

(** The shape of the buffer from [pos] on: a run of digits [digits], then
    [after], which is empty or starts with a byte that is no digit. *)
Definition scanned (buffer : Buffer) (pos : nat) (digits after : Buffer) : Prop :=
  drop pos buffer = digits ++ after
  /\ forallb is_digit digits = true
  /\ match after with b :: _ => is_digit b = false | [] => True end.

(** A malformed length prefix: the byte that ends the digit run is not
    [':'], or it is [':'] with no digit before it. *)
Definition malformed_header (digits after : Buffer) : Prop :=
  exists b rest, after = b :: rest /\ (b <> colon \/ digits = []).

(** An incomplete packet: the digits run to the end of the buffer, or fewer
    body bytes than the prefix declares have arrived. *)
Definition incomplete_packet (digits after : Buffer) : Prop :=
  after = []
  \/ exists rest, after = colon :: rest /\ digits <> []
                 /\ length rest < digits_value digits.

(** A packet whose declared length is zero: its body is the empty string. *)
Definition empty_body_packet (digits after : Buffer) : Prop :=
  exists rest, after = colon :: rest /\ digits <> [] /\ digits_value digits = 0.

(** The JSON literals [true] and [false], as the smallest instance of
    [JSON.stringify] and [JSON.parse] to run the transport on. *)
Definition stringify_literal (b : bool) : Buffer :=
  if b then [0x74; 0x72; 0x75; 0x65]%Z else [0x66; 0x61; 0x6c; 0x73; 0x65]%Z.

Definition parse_literal (text : Buffer) : option bool :=
  if bool_decide (text = stringify_literal true) then Some true
  else if bool_decide (text = stringify_literal false) then Some false
  else None.

(** A partial frame at the end of a buffer: an incomplete length prefix
    (digits only, possibly none at all), or a complete prefix followed by
    fewer body bytes than it declares. *)
Definition partial_frame (tail : Buffer) : bool :=
  let n := skip_digits tail 0 in
  if n =? length tail then true
  else (0 <? n) && bool_decide (tail !! n = Some colon)
       && (length tail - S n <? digits_value (take n tail)).

End Transport.

(* ===================================================================== *)
(** * Part 2: JavaScript values                                           *)
(* ===================================================================== *)

Module JS.

Local Open Scope string_scope.
Local Open Scope list_scope.

(** The values that travel in protocol messages: what [JSON.parse] builds,
    and [undefined], which reading an absent property gives.  Numbers are
    modelled at the integers (line numbers, frame indices); an object is the
    list of its own properties, in insertion order, with distinct keys. *)
Inductive value :=
| undefined
| null
| boolean (b : bool)
| number (n : Z)
| str (s : string)
| array (items : list value)
| object (fields : list (string * value)).

Fixpoint lookup_field (fields : list (string * value)) (key : string) : value :=
  match fields with
  | [] => undefined
  | (k, v) :: fields' => if bool_decide (k = key) then v else lookup_field fields' key
  end.

(** [v.key] for a [v] that is neither [undefined] nor [null]. *)
Definition get (v : value) (key : string) : value :=
  match v with
  | object fields => lookup_field fields key
  | _ => undefined
  end.

(** [undefined] and [null]: reading a property of them throws a TypeError. *)
Definition nullish (v : value) : bool :=
  match v with undefined | null => true | _ => false end.

(** [v === null] and [v === undefined] *)
Definition is_null (v : value) : bool :=
  match v with null => true | _ => false end.

Definition is_undefined (v : value) : bool :=
  match v with undefined => true | _ => false end.

(** [v.key], or [None] when it throws. *)
Definition prop (v : value) (key : string) : option value :=
  if nullish v then None else Some (get v key).

(** ToBoolean, as [if (v)] and [!v] apply it. *)
Definition truthy (v : value) : bool :=
  match v with
  | undefined | null => false
  | boolean b => b
  | number n => negb (n =? 0)%Z
  | str s => negb (bool_decide (s = ""))
  | array _ | object _ => true
  end.

(** [typeof v === 'object'] *)
Definition typeof_object (v : value) : bool :=
  match v with null | array _ | object _ => true | _ => false end.

(** [v === 'lit'] for a string literal. *)
Definition is_string (v : value) (lit : string) : bool :=
  match v with str s => bool_decide (s = lit) | _ => false end.

(** [obj.key = v] on an own-property list. *)
Fixpoint set_field (fields : list (string * value)) (key : string) (v : value)
    : list (string * value) :=
  match fields with
  | [] => [(key, v)]
  | (k, w) :: fields' =>
      if bool_decide (k = key) then (k, v) :: fields'
      else (k, w) :: set_field fields' key v
  end.

Definition number_to_string (n : Z) : string :=
  DecimalString.NilZero.string_of_int (Z.to_int n).

(** ToString, as a template literal or a property key applies it.  An
    array prints its elements joined by [","]; a plain object prints as
    ["[object Object]"]. *)
Fixpoint ToString (v : value) : string :=
  match v with
  | undefined => "undefined"
  | null => "null"
  | boolean true => "true"
  | boolean false => "false"
  | number n => number_to_string n
  | str s => s
  | array items =>
      String.concat ","
        (List.map (fun x => if nullish x then "" else ToString x) items)
  | object _ => "[object Object]"
  end.

(** [Array.prototype.join(sep)] *)
Definition join (items : list value) (sep : string) : string :=
  String.concat sep (List.map (fun x => if nullish x then "" else ToString x) items).

Definition double_quote : string := String (Ascii.ascii_of_nat 34) "".
Definition backslash : string := String (Ascii.ascii_of_nat 92) "".

Definition hex_digit (n : nat) : string :=
  String.substring n 1 "0123456789abcdef".

(** One character of a string as [JSON.stringify] writes it. *)
Definition quote_char (c : ascii) : string :=
  let n := Ascii.nat_of_ascii c in
  if (n =? 34)%nat then backslash +:+ double_quote
  else if (n =? 92)%nat then backslash +:+ backslash
  else if (n =? 8)%nat then backslash +:+ "b"
  else if (n =? 12)%nat then backslash +:+ "f"
  else if (n =? 10)%nat then backslash +:+ "n"
  else if (n =? 13)%nat then backslash +:+ "r"
  else if (n =? 9)%nat then backslash +:+ "t"
  else if (n <? 32)%nat
  then backslash +:+ "u00" +:+ hex_digit (n / 16) +:+ hex_digit (n mod 16)
  else String c "".

Fixpoint quote_chars (s : string) : string :=
  match s with
  | EmptyString => ""
  | String c s' => quote_char c +:+ quote_chars s'
  end.

Definition quote (s : string) : string :=
  double_quote +:+ quote_chars s +:+ double_quote.

(** [JSON.stringify(v)]: a text, or [None] for the result [undefined]. *)
Fixpoint JSON_stringify (v : value) : option string :=
  match v with
  | undefined => None
  | null => Some "null"
  | boolean true => Some "true"
  | boolean false => Some "false"
  | number n => Some (number_to_string n)
  | str s => Some (quote s)
  | array items =>
      Some ("[" +:+ String.concat ","
              (List.map (fun x => default "null" (JSON_stringify x)) items) +:+ "]")
  | object fields =>
      Some ("{" +:+ String.concat ","
              (omap (fun kv => match JSON_stringify (snd kv) with
                               | Some t => Some (quote (fst kv) +:+ ":" +:+ t)
                               | None => None
                               end) fields) +:+ "}")
  end.

(** The result of [JSON.stringify] as a JavaScript value. *)
Definition stringify_value (v : value) : value :=
  match JSON_stringify v with Some t => str t | None => undefined end.

End JS.

(* ===================================================================== *)
(** * Part 3: the URL resolvers ([ffUrlHelper.ts])                        *)
(* ===================================================================== *)

Module UrlHelper.

Local Open Scope string_scope.
Local Open Scope list_scope.

(** [interface IURLHelper] *)
Record IURLHelper := {
  convertToLocal : string -> string;
  convertToWeb : string -> string
}.

(** [s.substring(n)] *)
Definition substring_from (n : nat) (s : string) : string :=
  String.substring n (String.length s - n) s.

(** [class LocalURLHelper] *)
Definition LocalURLHelper : IURLHelper := {|
  convertToLocal url_string :=
    if negb (String.prefix "file:///" url_string) then url_string
    else substring_from (String.length "file://") url_string;
  convertToWeb path_string := "file://" +:+ path_string
|}.

Section Http.

(** Node's [url.parse(u).pathname], [path.join], [path.relative] and
    [url.resolve]: built-ins of the platform. *)
Variable url_pathname : string -> string.
Variable path_join : string -> string -> string.
Variable path_relative : string -> string -> string.
Variable url_resolve : string -> string -> string.

(** [str.split('/')] *)
Fixpoint split_slash_aux (s : string) (cur : string) : list string :=
  match s with
  | EmptyString => [cur]
  | String c s' =>
      if (Ascii.nat_of_ascii c =? 47)%nat then cur :: split_slash_aux s' ""
      else split_slash_aux s' (cur +:+ String c "")
  end.

Definition split_slash (s : string) : list string := split_slash_aux s "".

(** [while (parts[0] === '.' || parts[0] === '..') parts.shift()] *)
Fixpoint shift_dots (parts : list string) : list string :=
  match parts with
  | p :: parts' =>
      if bool_decide (p = ".") || bool_decide (p = "..") then shift_dots parts'
      else parts
  | [] => []
  end.

(** [class HttpURLHelper] *)
Definition HttpURLHelper (webRoot baseUrl : string) : IURLHelper := {|
  convertToLocal url_string :=
    path_join webRoot (substring_from 1 (url_pathname url_string));
  convertToWeb path_string :=
    url_resolve baseUrl
      ("/" +:+ String.concat "/" (shift_dots (split_slash (path_relative webRoot path_string))))
|}.

End Http.

(** A relative path that climbs: [rel] behind the segments [dots], each
    followed by ["/"]. *)
Definition below (dots : list string) (rel : string) : string :=
  fold_right (fun d r => d +:+ "/" +:+ r) rel dots.

End UrlHelper.

(* ===================================================================== *)
(** * Part 4: actors ([ffSession.ts])                                     *)
(* ===================================================================== *)

Module Session.
Import JS UrlHelper.

Local Open Scope string_scope.
Local Open Scope list_scope.

Definition EnvironmentVariablesPrefix : string := "env!".

(** [interface ResultVariable]; an absent [id] is [undefined]. *)
Record ResultVariable := { display : value; id : value }.

(** ** Grips ([ContextActor.formatGrip], [getActor], [formatReturnValue]) *)

Definition formatGrip (v : value) : value :=
  if negb (typeof_object v) || is_null v then stringify_value v
  else
    let type := get v "type" in
    if is_string type "null" || is_string type "undefined"
       || is_string type "Infinity" || is_string type "-Infinity"
       || is_string type "NaN" || is_string type "-0"
    then type
    else if is_string type "longString" then get v "initial"   (* TODO *)
    else str ("[object " +:+ ToString (get v "class") +:+ "]").

Definition getActor (v : value) : value :=
  if typeof_object v && negb (is_null v) && is_string (get v "type") "object"
  then get v "actor" else undefined.

(** [None]: a TypeError, when [value] is [undefined] or [null]. *)
Definition formatReturnValue (v : value) : option ResultVariable :=
  if nullish v then None
  else if truthy (get v "terminated") then
    Some {| display := str "(terminated)"; id := undefined |}
  else if truthy (get v "throw") then
    let s := formatGrip (get v "throw") in
    Some {| display := str ("(error: " +:+ ToString s +:+ ")");
            id := getActor (get v "throw") |}
  else
    Some {| display := formatGrip (get v "return");
            id := getActor (get v "return") |}.

(** ** Actor objects *)

(** [class ActorRequest]: the outbound body and the request's
    [PromiseCapability], named by its rank among the capabilities created. *)
Record ActorRequest := { body : value; _capability : nat }.

Inductive ActorClass :=
| RootActor | ConsoleActor | TabActor | ContextActor
| EnvironmentActor | GripActor | SourceActor | Breakpoint.

Inductive SessionState := INITIALIZATION | SELECT_TAB | READY.

(** The fields of [class Actor] and of its subclasses that the message
    handlers read: [_tabState] belongs to [RootActor], [_evaluateCapabilty]
    to [ContextActor]. *)
Record Actor := {
  class : ActorClass;
  name : string;
  _processing : option ActorRequest;
  _queue : list ActorRequest;
  _tabState : SessionState;
  _evaluateCapabilty : option nat
}.

Definition set_processing (a : Actor) (p : option ActorRequest)
    (q : list ActorRequest) : Actor :=
  {| class := class a; name := name a; _processing := p; _queue := q;
     _tabState := _tabState a; _evaluateCapabilty := _evaluateCapabilty a |}.

Definition set_tabState (a : Actor) (st : SessionState) : Actor :=
  {| class := class a; name := name a; _processing := _processing a;
     _queue := _queue a; _tabState := st;
     _evaluateCapabilty := _evaluateCapabilty a |}.

Definition set_evaluateCapabilty (a : Actor) (c : option nat) : Actor :=
  {| class := class a; name := name a; _processing := _processing a;
     _queue := _queue a; _tabState := _tabState a; _evaluateCapabilty := c |}.

(** The callbacks that actor code chains on a request's promise with
    [.then]; they run after the request settles. *)
Inductive Deferred :=
| SelectTab                                 (* RootActor.init *)
| ListenersStarted                          (* ConsoleActor constructor *)
| CachedMessages                            (* ConsoleActor constructor *)
| SourcesReceived                           (* ContextActor constructor *)
| ClientEvaluate (expr : value) (evaluate : nat).   (* ContextActor.evaluate *)

(** What a method of an actor does to the rest of the program, in the
    order it does it. *)
Inductive Effect :=
| NewRequest (r : ActorRequest)             (* new ActorRequest(body) *)
| RelayRequest (r : ActorRequest)           (* protocol.relayResponse(request.body) *)
| RelayMessage (body : value)               (* protocol.relayResponse(body), in sendMessage *)
| Respond (r : ActorRequest) (response : value)   (* request.respond(response) *)
| Fail (r : ActorRequest) (response : value)      (* request.fail(response) *)
| Defer (capability : nat) (k : Deferred)   (* promise.then(k) *)
| NotifySession (topic : string) (args : value)   (* protocol.notifySession *)
| Print (text : string) (category : string) (* protocol.print *)
| AttachContext (threadActor : value)       (* new ContextActor(...), addActor *)
| ResolveEvaluate (capability : nat) (result : ResultVariable)
| RejectEvaluate (capability : nat) (message : value).

(** [new Actor(name, protocol)] of class [c], before the subclass
    constructor body runs. *)
Definition new_Actor (c : ActorClass) (name : string) : Actor :=
  {| class := c; name := name; _processing := None; _queue := [];
     _tabState := INITIALIZATION; _evaluateCapabilty := None |}.

(** [if (body.to === undefined) body.to = this.name] *)
Definition stamp_to (a : Actor) (body : value) : value :=
  match body with
  | object fields =>
      if is_undefined (lookup_field fields "to")
      then object (set_field fields "to" (str (name a)))
      else body
  | _ => body
  end.

(** [sendRequest(body)]; [next] is the number of capabilities created so
    far, so the new request's capability is number [next]. *)
Definition sendRequest (a : Actor) (next : nat) (body : value)
    : Actor * list Effect * nat :=
  let request := {| body := stamp_to a body; _capability := next |} in
  match _processing a with
  | Some _ =>
      (set_processing a (_processing a) (_queue a ++ [request]),
       [NewRequest request], S next)
  | None =>
      (set_processing a (Some request) (_queue a),
       [NewRequest request; RelayRequest request], S next)
  end.

Definition sendMessage (a : Actor) (body : value) : list Effect :=
  [RelayMessage (stamp_to a body)].

Definition sendNext (a : Actor) : Actor * list Effect :=
  match _queue a with
  | r :: q => (set_processing a (Some r) q, [RelayRequest r])
  | [] => (set_processing a None [], [])
  end.

(** [Actor.processResponse] *)
Definition processResponse (a : Actor) (body : value)
    : Actor * list Effect * bool :=
  match _processing a with
  | None => (a, [], false)
  | Some r => let '(a', es) := sendNext a in (a', Respond r body :: es, true)
  end.

(** [Actor.processError] *)
Definition Actor_processError (a : Actor) (body : value)
    : Actor * list Effect * bool :=
  match _processing a with
  | None => (a, [], false)
  | Some r => let '(a', es) := sendNext a in (a', Fail r body :: es, true)
  end.

(** [ConsoleActor.printMessage]; [None] is a TypeError. *)
Definition printMessage (message : value) : option Effect :=
  if nullish message then None
  else
    let level := get message "level" in
    let category :=
      if is_string level "error" then "stderr"
      else if is_string level "warning" then "console" else "stdout" in
    match get message "arguments" with
    | array items => Some (Print (join items ",") category)
    | _ => None
    end.

Section WithUrlHelper.

(** [protocol.urlHelper] *)
Variable urlHelper : IURLHelper.

(** The [newSource] case of [ContextActor.processNotification]. *)
Definition newSource (body : value) : option (list Effect * bool) :=
  let source := get body "source" in
  if nullish source then None
  else
    let url := get source "url" in
    if negb (truthy url) then Some ([], true)   (* ignoring scripts without url *)
    else
      match url with
      | str url_string =>
          let path := convertToLocal urlHelper url_string in
          if bool_decide (path = "") then Some ([], true)   (* ignoring non-project scripts *)
          else
            Some ([NotifySession "source"
                     (object [("path", str path); ("url", url);
                              ("id", get source "actor")])], true)
      | _ => None
      end.

(** [processNotification] of the class of [a]; [None] is a TypeError. *)
Definition processNotification (a : Actor) (body : value)
    : option (list Effect * bool) :=
  let type := get body "type" in
  match class a with
  | ConsoleActor =>
      if is_string type "consoleAPICall" || is_string type "pageErrorCall" then
        match printMessage (get body "message") with
        | Some e => Some ([e], true)
        | None => None
        end
      else Some ([], false)
  | TabActor =>
      if is_string type "tabAttached" then
        Some ([AttachContext (get body "threadActor")], true)
      else if is_string type "frameUpdate" then Some ([], true)
      else Some ([], false)
  | ContextActor =>
      if is_string type "paused" then
        let why := get body "why" in
        let reason := if truthy why then get why "type" else why in
        if is_string reason "clientEvaluated" then
          match _evaluateCapabilty a with
          | None => None
          | Some e =>
              match formatReturnValue (get why "frameFinished") with
              | Some r => Some ([ResolveEvaluate e r], true)
              | None => None
              end
          end
        else Some ([NotifySession "paused" (object [("reason", reason)])], true)
      else if is_string type "resumed" then Some ([], true)
      else if is_string type "newGlobal" then Some ([], true)
      else if is_string type "newSource" then newSource body
      else Some ([], false)
  | _ => Some ([], false)
  end.

(** [processError] of the class of [a]. *)
Definition processError (a : Actor) (body : value)
    : Actor * list Effect * bool :=
  match class a with
  | ContextActor =>
      let error := get body "error" in
      if is_string error "unknownFrame" || is_string error "notDebuggee"
         || is_string error "wrongState" then
        match _evaluateCapabilty a with
        | Some e => (a, [RejectEvaluate e (get body "message")], true)
        | None => (a, [], false)
        end
      else Actor_processError a body
  | _ => Actor_processError a body
  end.

(** [Actor.processCommand] *)
Definition Actor_processCommand (a : Actor) (body : value)
    : option (Actor * list Effect * bool) :=
  if nullish body then None
  else if truthy (get body "type") then
    match processNotification a body with
    | Some (es, handled) => Some (a, es, handled)
    | None => None
    end
  else if truthy (get body "error") then Some (processError a body)
  else Some (processResponse a body).

(** [processCommand] of the class of [a]: [RootActor] overrides it. *)
Definition processCommand (a : Actor) (next : nat) (body : value)
    : option (Actor * list Effect * bool * nat) :=
  match class a, _tabState a with
  | RootActor, INITIALIZATION =>
      let '(a', es, next') :=
        sendRequest (set_tabState a SELECT_TAB) next (object [("type", str "listTabs")]) in
      Some (a', es ++ [Defer next SelectTab], true, next')
  | _, _ =>
      match Actor_processCommand a body with
      | Some (a', es, handled) => Some (a', es, handled, next)
      | None => None
      end
  end.

End WithUrlHelper.

(** ** Tabs ([RootActor.selectTab]) *)

(** What [RootActor.selectTab] ends in: a TypeError ([body.tabs] has no
    [forEach], or a tab is [null]), [new Error('tab not found')], or the
    tab kept in [_tabInfo] and the actors created for it, each with the
    value given for its name. *)
Inductive TabSelection :=
| SelectTypeError
| TabNotFound
| TabSelected (tabInfo : value) (created : list (ActorClass * value)).

(** [tabs.forEach((tab) => { if (tab.url === this._program) this._tabInfo = tab; })]:
    the final [_tabInfo], or [None] when reading [tab.url] throws. *)
Fixpoint selectTab_forEach (program : string) (tabs : list value) (tabInfo : value)
    : option value :=
  match tabs with
  | [] => Some tabInfo
  | tab :: tabs' =>
      if nullish tab then None
      else
        selectTab_forEach program tabs'
          (if is_string (get tab "url") program then tab else tabInfo)
  end.

(** [RootActor.selectTab(body)]; [tabInfo] is [this._tabInfo] before the
    call. *)
Definition selectTab (program : string) (tabInfo : value) (body : value)
    : TabSelection :=
  if nullish body then SelectTypeError
  else
    match get body "tabs" with
    | array tabs =>
        match selectTab_forEach program tabs tabInfo with
        | None => SelectTypeError
        | Some tabInfo' =>
            if negb (truthy tabInfo') then TabNotFound
            else
              TabSelected tabInfo'
                [(ConsoleActor, get tabInfo' "consoleActor");
                 (TabActor, get tabInfo' "actor")]
        end
    | _ => SelectTypeError
    end.

(** ** Scopes ([ContextActor.getScopes]) *)

(** [v[0]] for a [v] that is neither [undefined] nor [null]. *)
Definition first_item (v : value) : value :=
  match v with
  | array items => List.nth 0 items undefined
  | object fields => lookup_field fields "0"
  | str (String c _) => str (String c "")
  | _ => undefined
  end.

(** A bound on the depth of a value. *)
Fixpoint value_size (v : value) : nat :=
  match v with
  | array items => S (list_sum (List.map value_size items))
  | object fields => S (list_sum (List.map (fun kv => value_size (snd kv)) fields))
  | _ => 1
  end.

(** The loop of [getScopes], from [environment] on:
    [while (environment) { var parent = environment.parent; result.push(...);
       first = false; environment = parent; }].
    The recursion is on [fuel]. *)
Fixpoint getScopes_loop (fuel : nat) (environment : value) (first : bool)
    : option (list value) :=
  if negb (truthy environment) then Some []
  else
    match fuel with
    | O => None
    | S fuel' =>
        let parent := get environment "parent" in
        let type :=
          if negb (truthy parent) then "Global"
          else if first then "Local" else "Closure" in
        match getScopes_loop fuel' parent false with
        | Some result =>
            Some (object [("type", str type);
                          ("id", str (EnvironmentVariablesPrefix
                                      +:+ ToString (get environment "actor")))]
                  :: result)
        | None => None
        end
    end.

(** The callback of [getScopes] on the response to its [frames] request;
    [None] is a TypeError ([body.frames[0].environment] cannot be read). *)
Definition getScopes_fulfilled (body : value) : option (list value) :=
  if nullish body then None
  else
    let frames := get body "frames" in
    if nullish frames then None
    else
      let frame := first_item frames in
      if nullish frame then None
      else
        let environment := get frame "environment" in
        getScopes_loop (value_size environment) environment true.

(** A chain of environments, innermost first, with the [actor] of
    each: [environment.parent] leads from one to the next, and the last
    has no parent. *)
Inductive environments : value -> list value -> Prop :=
| environments_last environment :
    truthy environment = true ->
    truthy (get environment "parent") = false ->
    environments environment [get environment "actor"]
| environments_next environment actors :
    truthy environment = true ->
    truthy (get environment "parent") = true ->
    environments (get environment "parent") actors ->
    environments environment (get environment "actor" :: actors).

(** The scope of the environment with actor [actor], by its place in
    the chain: ["Global"] for the outermost environment, ["Local"] for the
    innermost when it is not the outermost, ["Closure"] for those
    between. *)
Definition scope (outermost innermost : bool) (actor : value) : value :=
  object [("type", str (if outermost then "Global"
                        else if innermost then "Local" else "Closure"));
          ("id", str (EnvironmentVariablesPrefix +:+ ToString actor))].

Fixpoint scopes (innermost : bool) (actors : list value) : list value :=
  match actors with
  | [] => []
  | [actor] => [scope true innermost actor]
  | actor :: actors' => scope false innermost actor :: scopes false actors'
  end.

(** ** Stack frames ([ContextActor.getStackTrace]) *)

(** The entry [frames.map] builds for the frame [f] at [index]; [None]
    is a TypeError ([f.callee], [f.where] or [f.where.source] cannot be
    read). *)
Definition stack_frame (index : nat) (f : value) : option value :=
  if nullish f then None
  else
    let callee := get f "callee" in
    if nullish callee then None
    else
      let where_ := get f "where" in
      if nullish where_ then None
      else
        let source := get where_ "source" in
        if nullish source then None
        else
          Some (object [("depth", number (Z.of_nat index));
                        ("name", get callee "name");
                        ("source", get source "url");
                        ("line", get where_ "line")]).

(** [frames.map((f, index) => ...)], from [index] on. *)
Fixpoint stack_frames (index : nat) (frames : list value) : option (list value) :=
  match frames with
  | [] => Some []
  | f :: frames' =>
      match stack_frame index f with
      | Some entry =>
          match stack_frames (S index) frames' with
          | Some entries => Some (entry :: entries)
          | None => None
          end
      | None => None
      end
  end.

(** The callback of [getStackTrace] on the response to its [frames]
    request; [None] is a TypeError. *)
Definition getStackTrace_fulfilled (body : value) : option (list value) :=
  if nullish body then None
  else
    match get body "frames" with
    | array frames => stack_frames 0 frames
    | _ => None
    end.

(** The frames [frames.map] can translate. *)
Definition frame_readable (f : value) : bool :=
  negb (nullish f) && negb (nullish (get f "callee"))
  && negb (nullish (get f "where"))
  && negb (nullish (get (get f "where") "source")).

(** The entry of a readable frame. *)
Definition stack_entry (index : nat) (f : value) : value :=
  object [("depth", number (Z.of_nat index));
          ("name", get (get f "callee") "name");
          ("source", get (get (get f "where") "source") "url");
          ("line", get (get f "where") "line")].

(** The constructor of the class [c]. *)
Definition construct (c : ActorClass) (name : string) (next : nat)
    : Actor * list Effect * nat :=
  let a := new_Actor c name in
  match c with
  | ConsoleActor =>
      let listenFor := array [str "PageError"; str "ConsoleAPI"] in
      let '(a1, es1, n1) :=
        sendRequest a next
          (object [("type", str "startListeners"); ("listeners", listenFor)]) in
      let '(a2, es2, n2) :=
        sendRequest a1 n1
          (object [("type", str "getCachedMessages"); ("messageTypes", listenFor)]) in
      (a2, es1 ++ [Defer next ListenersStarted] ++ es2 ++ [Defer n1 CachedMessages], n2)
  | TabActor => (a, sendMessage a (object [("type", str "attach")]), next)
  | ContextActor =>
      let es0 := sendMessage a (object [("type", str "attach")]) in
      let '(a1, es1, n1) := sendRequest a next (object [("type", str "sources")]) in
      (a1, es0 ++ es1 ++ [Defer next SourcesReceived], n1)
  | _ => (a, [], next)
  end.

(** [ContextActor.resume] *)
Definition resume (a : Actor) (reason : value) : list Effect :=
  if negb (truthy reason) then sendMessage a (object [("type", str "resume")])
  else
    sendMessage a
      (object [("type", str "resume");
               ("resumeLimit", object [("type", reason)])]).

(** [ContextActor.evaluate]: the capability [next] is the one stored in
    [_evaluateCapabilty], whose promise is returned.  The effect [Defer]
    stands for the chain [.then(...).catch(this._evaluateCapabilty.reject)]
    on the [frames] request; [evaluate_reactions] runs it. *)
Definition evaluate (a : Actor) (next : nat) (expr frame : value)
    : Actor * list Effect * nat :=
  let frame := if is_undefined frame then number 0 else frame in
  let a0 := set_evaluateCapabilty a (Some next) in
  let '(a1, es, n1) :=
    sendRequest a0 (S next)
      (object [("type", str "frames"); ("startFrame", frame); ("count", number 1)]) in
  (a1, es ++ [Defer (S next) (ClientEvaluate expr next)], n1).

(** What the rest of the program can call on an actor object. *)
Inductive Call :=
| CallSendRequest (body : value)
| CallSendMessage (body : value)
| CallProcessCommand (body : value)
| CallResume (reason : value)
| CallEvaluate (expr frame : value).

(** One call on the actor [a]; [None] when the call throws a TypeError
    (nothing has been done then). *)
Definition call (urlHelper : IURLHelper) (a : Actor) (next : nat) (c : Call)
    : option (Actor * list Effect * nat) :=
  match c with
  | CallSendRequest body => Some (sendRequest a next body)
  | CallSendMessage body => Some (a, sendMessage a body, next)
  | CallProcessCommand body =>
      match processCommand urlHelper a next body with
      | Some (a', es, _, next') => Some (a', es, next')
      | None => None
      end
  | CallResume reason =>
      match class a with
      | ContextActor => Some (a, resume a reason, next)
      | _ => None
      end
  | CallEvaluate expr frame =>
      match class a with
      | ContextActor => Some (evaluate a next expr frame)
      | _ => None
      end
  end.

(** A sequence of calls, a throwing call leaving the actor as it was; the
    result is the final actor and everything done, oldest first. *)
Fixpoint calls (urlHelper : IURLHelper) (a : Actor) (next : nat) (cs : list Call)
    : Actor * list Effect * nat :=
  match cs with
  | [] => (a, [], next)
  | c :: cs' =>
      match call urlHelper a next c with
      | Some (a', es, next') =>
          let '(a'', es', next'') := calls urlHelper a' next' cs' in
          (a'', es ++ es', next'')
      | None => calls urlHelper a next cs'
      end
  end.

(** The errors [ContextActor.processError] keeps for [evaluate]. *)
Definition evaluate_error (body : value) : bool :=
  is_string (get body "error") "unknownFrame"
  || is_string (get body "error") "notDebuggee"
  || is_string (get body "error") "wrongState".

(** A request made of the actor, or one of those errors arriving. *)
Definition request_or_evaluate_error (c : Call) : Prop :=
  match c with
  | CallSendRequest _ => True
  | CallProcessCommand body =>
      nullish body = false /\ truthy (get body "type") = false
      /\ evaluate_error body = true
  | _ => False
  end.

(** The requests of a trace: created, relayed to the transport, settled. *)
Definition issued (e : Effect) : option nat :=
  match e with NewRequest r => Some (_capability r) | _ => None end.

Definition relayed (e : Effect) : option nat :=
  match e with RelayRequest r => Some (_capability r) | _ => None end.

Definition settled (e : Effect) : option nat :=
  match e with
  | Respond r _ | Fail r _ => Some (_capability r)
  | _ => None
  end.

(** The capability of [evaluate] that an effect resolves or rejects. *)
Definition evaluate_settled (e : Effect) : option nat :=
  match e with
  | ResolveEvaluate c _ | RejectEvaluate c _ => Some c
  | _ => None
  end.

(** What a method does to the capability of [evaluate]: it settles none
    but the one stored in [_evaluateCapabilty], and leaves that field as it
    was. *)
Definition keeps_evaluate (a a' : Actor) (es : list Effect) : Prop :=
  _evaluateCapabilty a' = _evaluateCapabilty a
  /\ Forall (fun k => _evaluateCapabilty a = Some k) (omap evaluate_settled es).

(** ** The callbacks of [evaluate]

    [evaluate] chains on the promise of its [frames] request
    [.then((body) => this.sendMessage({... "frame": body.frames[0].actor}))
     .catch(this._evaluateCapabilty.reject)],
    the effect [Defer c (ClientEvaluate expr evaluate)]: [c] is the
    capability of the request and [evaluate] the capability stored in
    [_evaluateCapabilty] by that call, whose [reject] the [.catch] holds. *)

(** [body.frames[0].actor]; [None] is the TypeError when [body.frames] or
    [body.frames[0]] cannot be read. *)
Definition frame_actor (body : value) : option value :=
  if nullish body then None
  else
    let frames := get body "frames" in
    if nullish frames then None
    else
      let frame := first_item frames in
      if nullish frame then None else Some (get frame "actor").

(** Why the [.catch] of an [evaluate] runs: the [frames] request was
    rejected (with the [ActorError] made of the error reply), or the
    callback threw a TypeError. *)
Inductive Cause :=
| RequestFailed (response : value)
| CallbackThrew.

(** What the chain does when the request is settled. *)
Inductive Reaction :=
| ClientEvaluateSent (message : value)              (* this.sendMessage({...}) *)
| EvaluateRejected (evaluate : nat) (cause : Cause). (* the [reject] of that call *)

Definition evaluate_callback (a : Actor) (expr : value) (evaluate : nat)
    (settlement : Effect) : list Reaction :=
  match settlement with
  | Respond _ body =>
      match frame_actor body with
      | Some actor =>
          [ClientEvaluateSent
             (stamp_to a (object [("type", str "clientEvaluate");
                                  ("expression", expr); ("frame", actor)]))]
      | None => [EvaluateRejected evaluate CallbackThrew]
      end
  | Fail _ body => [EvaluateRejected evaluate (RequestFailed body)]
  | _ => []
  end.

(** The request of an effect that settles one. *)
Definition settled_request (e : Effect) : option ActorRequest :=
  match e with
  | Respond r _ | Fail r _ => Some r
  | _ => None
  end.

(** The chains of [evaluate] over a trace of the actor [a]: [waiting]
    holds the chains whose request is not settled yet, each with the
    capability of its request; a [Defer] of [evaluate] adds one, and the
    settlement of a request runs the chains that wait for it, once.  (In
    the source they run in a job queued by the settlement.) *)
Fixpoint evaluate_reactions (a : Actor) (waiting : list (nat * (value * nat)))
    (es : list Effect) : list Reaction :=
  match es with
  | [] => []
  | Defer c (ClientEvaluate expr evaluate) :: es' =>
      evaluate_reactions a (waiting ++ [(c, (expr, evaluate))]) es'
  | e :: es' =>
      match settled_request e with
      | Some r =>
          flat_map
            (fun w => if Nat.eqb (fst w) (_capability r)
                      then evaluate_callback a (fst (snd w)) (snd (snd w)) e
                      else [])
            waiting
          ++ evaluate_reactions a
               (List.filter (fun w => negb (Nat.eqb (fst w) (_capability r))) waiting) es'
      | None => evaluate_reactions a waiting es'
      end
  end.

(** The chain an effect adds: the capability of the request it waits
    for and the capability of [evaluate] its [.catch] rejects. *)
Definition evaluate_deferred (e : Effect) : option (nat * nat) :=
  match e with
  | Defer c (ClientEvaluate _ evaluate) => Some (c, evaluate)
  | _ => None
  end.

(** The rejection of an [evaluate] by its own chain: its [frames]
    request, of capability [c], was answered in [es] by an error, or by a
    response in which the frame cannot be read. *)
Definition frames_request_failed (c : nat) (cause : Cause) (es : list Effect) : Prop :=
  exists r body,
    _capability r = c
    /\ ((In (Fail r body) es /\ cause = RequestFailed body)
        \/ (In (Respond r body) es /\ frame_actor body = None /\ cause = CallbackThrew)).

(** Everything an actor of class [c] does from its construction on,
    under the calls [cs]. *)
Definition history (urlHelper : IURLHelper) (c : ActorClass) (name : string)
    (next : nat) (cs : list Call) : list Effect :=
  let '(a0, es0, n0) := construct c name next in
  let '(_, es, _) := calls urlHelper a0 n0 cs in
  es0 ++ es.

(** The single-flight discipline, in the specification's words: at most
    one request of an actor is in flight, the head of its queue of pending
    requests; [observe] follows a trace and stops on the first effect that
    breaks the discipline. *)
Record Flight := { in_flight : option nat; waiting : list nat }.

Definition observe (f : Flight) (e : Effect) : option Flight :=
  match e with
  | NewRequest r =>
      Some {| in_flight := in_flight f; waiting := waiting f ++ [_capability r] |}
  | RelayRequest r =>
      match in_flight f, waiting f with
      | None, c :: w =>
          if Nat.eqb c (_capability r) then Some {| in_flight := Some c; waiting := w |}
          else None
      | _, _ => None
      end
  | Respond r _ | Fail r _ =>
      match in_flight f with
      | Some c =>
          if Nat.eqb c (_capability r) then Some {| in_flight := None; waiting := waiting f |}
          else None
      | None => None
      end
  | _ => Some f
  end.

Fixpoint observe_all (f : Flight) (es : list Effect) : option Flight :=
  match es with
  | [] => Some f
  | e :: es' =>
      match observe f e with
      | Some f' => observe_all f' es'
      | None => None
      end
  end.

(** The effects that leave the request queue alone. *)
Definition quiet (e : Effect) : Prop :=
  match e with
  | NewRequest _ | RelayRequest _ | Respond _ _ | Fail _ _ => False
  | _ => True
  end.

(** The queue of an idle actor is empty. *)
Definition queue_ok (a : Actor) : Prop := _processing a = None -> _queue a = [].

(** The flight record of an actor object. *)
Definition flight_of (a : Actor) : Flight :=
  {| in_flight := _capability <$> _processing a;
     waiting := List.map _capability (_queue a) |}.

(** The effect of one method on the discipline: the trace [es] it leaves
    is accepted from the flight record of [a] and ends in that of [a'];
    the requests it creates are numbered from [next] on, in order. *)
Definition step_ok (a : Actor) (next : nat) (a' : Actor) (es : list Effect)
    (next' : nat) : Prop :=
  observe_all (flight_of a) es = Some (flight_of a')
  /\ queue_ok a'
  /\ next <= next'
  /\ Forall (fun k => next <= k < next') (omap issued es)
  /\ StronglySorted lt (omap issued es).

End Session.

(* ===================================================================== *)
(** * Part 5: the dispatcher and the promise-returning methods            *)
(* ===================================================================== *)

Module Protocol.
Import JS UrlHelper Session.

Local Open Scope string_scope.
Local Open Scope list_scope.

(** Why a promise is rejected: [new ActorError('Actor error', body)], or
    any other value. *)
Inductive Reason :=
| ActorError (body : value)
| Thrown (v : value).

Inductive Settled :=
| Fulfilled (v : value)
| Rejected (r : Reason).

(** [class FirefoxProtocolImpl], with the objects it reaches: the [Actor]
    objects created so far ([actors], an actor's reference being its index),
    the name-to-actor map [_map], every [PromiseCapability] created so far
    ([None] while unsettled), and what the actors did, oldest first, each
    effect with the reference of the actor that caused it. *)
Record Protocol := {
  actors : list Actor;
  _map : gmap string nat;
  capabilities : list (option Settled);
  log : list (nat * Effect)
}.

Definition set_actors (p : Protocol) (l : list Actor) : Protocol :=
  {| actors := l; _map := _map p; capabilities := capabilities p; log := log p |}.

Definition set_map (p : Protocol) (m : gmap string nat) : Protocol :=
  {| actors := actors p; _map := m; capabilities := capabilities p; log := log p |}.

Definition set_capabilities (p : Protocol) (l : list (option Settled)) : Protocol :=
  {| actors := actors p; _map := _map p; capabilities := l; log := log p |}.

(** [capability.resolve] and [capability.reject]: the first settlement
    stays. *)
Definition settle_in (caps : list (option Settled)) (c : nat) (s : Settled)
    : list (option Settled) :=
  match caps !! c with
  | Some None => <[c := Some s]> caps
  | _ => caps
  end.

Definition settle (p : Protocol) (c : nat) (s : Settled) : Protocol :=
  set_capabilities p (settle_in (capabilities p) c s).

Definition result_value (r : ResultVariable) : value :=
  object [("display", display r); ("id", id r)].

(** What an effect does to the promises. *)
Definition effect_on (caps : list (option Settled)) (e : Effect)
    : list (option Settled) :=
  match e with
  | Respond r response => settle_in caps (_capability r) (Fulfilled response)
  | Fail r response => settle_in caps (_capability r) (Rejected (ActorError response))
  | ResolveEvaluate c r => settle_in caps c (Fulfilled (result_value r))
  | RejectEvaluate c message => settle_in caps c (Rejected (Thrown message))
  | _ => caps
  end.

(** The capabilities created up to number [next] exist, unsettled. *)
Definition allocate (p : Protocol) (next : nat) : Protocol :=
  set_capabilities p
    (capabilities p ++ replicate (next - length (capabilities p)) None).

(** The state after the actor [a] became [actor], creating capabilities up
    to [next] and causing [es]. *)
Definition commit (p : Protocol) (a : nat) (actor : Actor) (es : list Effect)
    (next : nat) : Protocol :=
  {| actors := <[a := actor]> (actors p);
     _map := _map p;
     capabilities :=
       fold_left effect_on es
         (capabilities p ++ replicate (next - length (capabilities p)) None);
     log := log p ++ List.map (pair a) es |}.

(** [addActor(actor)]: [this._map[actor.name] = actor] *)
Definition addActor (p : Protocol) (a : nat) : Protocol :=
  match actors p !! a with
  | Some actor => set_map p (<[name actor := a]> (_map p))
  | None => p
  end.

(** [removeActor(actor)]: [delete this._map[actor.name]] *)
Definition removeActor (p : Protocol) (a : nat) : Protocol :=
  match actors p !! a with
  | Some actor => set_map p (delete (name actor) (_map p))
  | None => p
  end.

(** [onExecuteCommand(body)]: the message is dropped when it has no
    [from], names no registered actor or is not handled; a TypeError in a
    handler leaves the state as it was. *)
Definition onExecuteCommand (urlHelper : IURLHelper) (p : Protocol)
    (body : value) : Protocol :=
  if negb (truthy body) || negb (truthy (get body "from")) then p
  else
    match _map p !! ToString (get body "from") with
    | Some a =>
        match actors p !! a with
        | Some actor =>
            match processCommand urlHelper actor (length (capabilities p)) body with
            | Some (actor', es, _, next) => commit p a actor' es next
            | None => p
            end
        | None => p
        end
    | None => p
    end.

(** [new C(name, this)] for an actor class [C]: the new object's
    reference is [length (actors p)]. *)
Definition newActor (p : Protocol) (c : ActorClass) (name : string) : Protocol :=
  let '(actor, es, next) := construct c name (length (capabilities p)) in
  commit (set_actors p (actors p ++ [actor])) (length (actors p)) actor es next.

(** ** Promise-returning code

    A promise-returning expression is the tree of what it does: it
    fulfils ([Return]) or rejects ([Throw]), or performs a step and goes
    on.  [Then c f g] waits for the capability [c] of a request;
    [All ts k h] is [Promise.all(ts).then(k, h)].  A reference that
    names no object makes no step. *)
Inductive async :=
| Return (v : value)
| Throw (r : Reason)
| NewActor (c : ActorClass) (name : string) (k : nat -> async)
| AddActor (a : nat) (k : async)
| RemoveActor (a : nat) (k : async)
| SendRequest (a : nat) (body : value) (k : nat -> async)
| Then (c : nat) (onFulfilled : value -> async) (onRejected : Reason -> async)
| All (ts : list async) (k : list value -> async) (h : Reason -> async).

(** Induction on a promise tree, the promises of a [Promise.all]
    included. *)
Section AsyncInduction.

Variable P : async -> Prop.
Hypothesis HReturn : forall v, P (Return v).
Hypothesis HThrow : forall r, P (Throw r).
Hypothesis HNewActor : forall c name k, (forall a, P (k a)) -> P (NewActor c name k).
Hypothesis HAddActor : forall a k, P k -> P (AddActor a k).
Hypothesis HRemoveActor : forall a k, P k -> P (RemoveActor a k).
Hypothesis HSendRequest : forall a body k, (forall c, P (k c)) -> P (SendRequest a body k).
Hypothesis HThen : forall c f g, (forall v, P (f v)) -> (forall r, P (g r)) -> P (Then c f g).
Hypothesis HAll : forall ts k h,
  Forall P ts -> (forall vs, P (k vs)) -> (forall r, P (h r)) -> P (All ts k h).

Fixpoint async_ind_all (t : async) : P t :=
  match t with
  | Return v => HReturn v
  | Throw r => HThrow r
  | NewActor c name k => HNewActor c name k (fun a => async_ind_all (k a))
  | AddActor a k => HAddActor a k (async_ind_all k)
  | RemoveActor a k => HRemoveActor a k (async_ind_all k)
  | SendRequest a body k => HSendRequest a body k (fun c => async_ind_all (k c))
  | Then c f g => HThen c f g (fun v => async_ind_all (f v)) (fun r => async_ind_all (g r))
  | All ts k h =>
      HAll ts k h
        ((fix all (ts : list async) : Forall P ts :=
            match ts with
            | [] => List.Forall_nil P
            | t :: ts' => List.Forall_cons P t ts' (async_ind_all t) (all ts')
            end) ts)
        (fun vs => async_ind_all (k vs)) (fun r => async_ind_all (h r))
  end.

End AsyncInduction.

(** [t.then(f, g)] *)
Fixpoint then_ (t : async) (f : value -> async) (g : Reason -> async) : async :=
  match t with
  | Return v => f v
  | Throw r => g r
  | NewActor c name k => NewActor c name (fun a => then_ (k a) f g)
  | AddActor a k => AddActor a (then_ k f g)
  | RemoveActor a k => RemoveActor a (then_ k f g)
  | SendRequest a body k => SendRequest a body (fun c => then_ (k c) f g)
  | Then c f' g' => Then c (fun v => then_ (f' v) f g) (fun r => then_ (g' r) f g)
  | All ts k h => All ts (fun vs => then_ (k vs) f g) (fun r => then_ (h r) f g)
  end.

(** [t.then(f)]: a rejection passes through. *)
Definition bind (t : async) (f : value -> async) : async := then_ t f Throw.

(** The values of a list of settled promises, when all are fulfilled. *)
Fixpoint returned (ts : list async) : option (list value) :=
  match ts with
  | [] => Some []
  | Return v :: ts' =>
      match returned ts' with Some vs => Some (v :: vs) | None => None end
  | _ :: _ => None
  end.

(** The first rejected promise of a list. *)
Fixpoint thrown (ts : list async) : option Reason :=
  match ts with
  | [] => None
  | Throw r :: _ => Some r
  | _ :: ts' => thrown ts'
  end.

(** Run [t] as far as it goes without a new message: up to its
    settlement or to a request that has no answer yet. *)
Fixpoint exec (t : async) (p : Protocol) : Protocol * async :=
  match t with
  | Return _ | Throw _ => (p, t)
  | NewActor c name k => exec (k (length (actors p))) (newActor p c name)
  | AddActor a k => exec k (addActor p a)
  | RemoveActor a k => exec k (removeActor p a)
  | SendRequest a body k =>
      match actors p !! a with
      | Some actor =>
          let c := length (capabilities p) in
          let '(actor', es, next) := sendRequest actor c body in
          exec (k c) (commit p a actor' es next)
      | None => (p, t)
      end
  | Then c f g =>
      match capabilities p !! c with
      | Some (Some (Fulfilled v)) => exec (f v) p
      | Some (Some (Rejected r)) => exec (g r) p
      | _ => (p, t)
      end
  | All ts k h =>
      let '(p', ts') :=
        (fix exec_all (ts : list async) (p : Protocol) : Protocol * list async :=
           match ts with
           | [] => (p, [])
           | t :: ts' =>
               let '(p1, t1) := exec t p in
               let '(p2, ts2) := exec_all ts' p1 in
               (p2, t1 :: ts2)
           end) ts p in
      match thrown ts' with
      | Some r => exec (h r) p'
      | None =>
          match returned ts' with
          | Some vs => exec (k vs) p'
          | None => (p', All ts' k h)
          end
      end
  end.

(** The promises of a [Promise.all], each run as far as it goes. *)
Fixpoint exec_all (ts : list async) (p : Protocol) : Protocol * list async :=
  match ts with
  | [] => (p, [])
  | t :: ts' =>
      let '(p1, t1) := exec t p in
      let '(p2, ts2) := exec_all ts' p1 in
      (p2, t1 :: ts2)
  end.

(** The name of the actor object [a]. *)
Definition actor_name (p : Protocol) (a : nat) : option string :=
  name <$> actors p !! a.

(** Actor objects are never dropped and never renamed. *)
Definition names_kept (p p' : Protocol) : Prop :=
  forall a nm, actor_name p a = Some nm -> actor_name p' a = Some nm.

(** A message arrives while [t] is running. *)
Definition receive (urlHelper : IURLHelper) (cfg : Protocol * async)
    (body : value) : Protocol * async :=
  exec (snd cfg) (onExecuteCommand urlHelper (fst cfg) body).

Definition run (urlHelper : IURLHelper) (cfg : Protocol * async)
    (bodies : list value) : Protocol * async :=
  fold_left (receive urlHelper) bodies cfg.

(** The promise has settled. *)
Definition is_settled (t : async) : bool :=
  match t with Return _ | Throw _ => true | _ => false end.

(** ** The methods *)

(** [Actor.sendRequest(body)], as the promise it returns. *)
Definition request (a : nat) (body : value) : async :=
  SendRequest a body (fun c => Then c Return Throw).

(** [Actor.executeOnce(action)] *)
Definition executeOnce (this : nat) (action : async) : async :=
  AddActor this
    (then_ action
       (fun result => RemoveActor this (Return result))
       (fun reason => RemoveActor this (Throw reason))).

(** [executeOnce] past the registration: the action with the two
    callbacks that deregister the actor chained on it. *)
Definition deregistering (this : nat) (action : async) : async :=
  then_ action
    (fun result => RemoveActor this (Return result))
    (fun reason => RemoveActor this (Throw reason)).

(** The state of an [executeOnce] in progress or finished. *)
Definition executing (this : nat) (nm : string) (cfg : Protocol * async) : Prop :=
  actor_name (fst cfg) this = Some nm
  /\ ((exists t', snd cfg = deregistering this t')
      \/ (is_settled (snd cfg) = true /\ _map (fst cfg) !! nm = None)).

(** [Breakpoint.remove()] *)
Definition remove (this : nat) : async :=
  request this (object [("type", str "delete")]).

(** [SourceActor.addBreakpoint(line)], with its two callbacks. *)
Definition addBreakpoint_fulfilled (line body : value) : async :=
  let actualLine :=
    if truthy (get body "actualLocation")
    then get (get body "actualLocation") "line" else line in
  let verified := negb (truthy (get body "isPending")) in
  let actor := get body "actor" in
  Return (object [("id", actor); ("line", actualLine);
                  ("verified", boolean verified)]).

Definition addBreakpoint_rejected (line : value) (reason : Reason) : async :=
  Return (object [("id", undefined); ("line", line); ("verified", boolean false)]).

Definition addBreakpoint (this : nat) (line : value) : async :=
  then_
    (request this
       (object [("type", str "setBreakpoint");
                ("location", object [("line", line)])]))
    (addBreakpoint_fulfilled line)
    (addBreakpoint_rejected line).

(** [ContextActor.addBreakpoints(sourceId, lines)] *)
Definition addBreakpoints (sourceId : string) (lines : list value) : async :=
  NewActor SourceActor sourceId (fun source =>
    executeOnce source
      (All (List.map (addBreakpoint source) lines)
         (fun items => Return (array items)) Throw)).

(** The entry for a line, in the specification's words: for a failed
    request [{id: undefined, line: original line, verified: false}]; for an
    answered one the breakpoint actor as [id], the server's corrected line
    when it reports one, and [verified] exactly when the server did not
    report the breakpoint as pending. *)
Definition breakpoint_entry (line reply : value) : value :=
  if truthy (get reply "error") then
    object [("id", undefined); ("line", line); ("verified", boolean false)]
  else
    object [("id", get reply "actor");
            ("line", if truthy (get reply "actualLocation")
                     then get (get reply "actualLocation") "line" else line);
            ("verified", boolean (negb (truthy (get reply "isPending"))))].

(** A response or an error of the actor named [nm]: a message from it
    that is no notification. *)
Definition is_reply_from (nm : string) (body : value) : bool :=
  is_string (get body "from") nm && negb (truthy (get body "type")).

(** The request [addBreakpoint(line)] creates, as capability number [c]. *)
Definition setBreakpoint_request (nm : string) (c : nat) (line : value) : ActorRequest :=
  {| body := object [("type", str "setBreakpoint");
                     ("location", object [("line", line)]);
                     ("to", str nm)];
     _capability := c |}.

Fixpoint setBreakpoint_requests (nm : string) (c : nat) (lines : list value)
    : list ActorRequest :=
  match lines with
  | [] => []
  | line :: lines' => setBreakpoint_request nm c line :: setBreakpoint_requests nm (S c) lines'
  end.

(** The promises of [addBreakpoint] for [lines], waiting for the
    capabilities from number [c] on. *)
Fixpoint awaiting (c : nat) (lines : list value) : list async :=
  match lines with
  | [] => []
  | line :: lines' =>
      then_ (Then c Return Throw)
        (addBreakpoint_fulfilled line) (addBreakpoint_rejected line)
      :: awaiting (S c) lines'
  end.

(** A [SourceActor] object. *)
Definition source_actor (nm : string) (processing : option ActorRequest)
    (queue : list ActorRequest) : Actor :=
  {| class := SourceActor; name := nm; _processing := processing; _queue := queue;
     _tabState := INITIALIZATION; _evaluateCapabilty := None |}.

(** [addBreakpoints] at work: the source actor [a], registered under
    [nm], has the requests for [lines] pending, the first of them in
    flight, none of them answered. *)
Definition adding (a : nat) (nm : string) (c : nat) (lines : list value)
    (p : Protocol) : Prop :=
  actors p !! a
  = Some (source_actor nm (head (setBreakpoint_requests nm c lines))
            (tail (setBreakpoint_requests nm c lines)))
  /\ (forall i, i < length lines -> capabilities p !! (c + i) = Some None)
  /\ _map p !! nm = Some a.

(** How a reply settles the request it answers. *)
Definition reply_outcome (reply : value) : Settled :=
  if truthy (get reply "error") then Rejected (ActorError reply) else Fulfilled reply.

(** The effect of a reply on the request [r] in flight. *)
Definition reply_effect (r : ActorRequest) (reply : value) : Effect :=
  if truthy (get reply "error") then Fail r reply else Respond r reply.

(** The promise of [addBreakpoints] once the requests are issued:
    [done] holds the entries of the lines answered so far. *)
Definition adding_tree (a : nat) (done : list value) (c : nat) (lines : list value) : async :=
  deregistering a
    (All (List.map Return done ++ awaiting c lines)
       (fun items => Return (array items)) Throw).

(** [ContextActor.removeBreakpoints(ids)]: the [forEach] creates every
    [Breakpoint] object and lengthens the chain [promise]. *)
Fixpoint removeBreakpoints_forEach (ids : list string) (promise : async) : async :=
  match ids with
  | [] => promise
  | id :: ids' =>
      NewActor Breakpoint id (fun breakpoint =>
        removeBreakpoints_forEach ids'
          (bind promise (fun _ => executeOnce breakpoint (remove breakpoint))))
  end.

Definition removeBreakpoints (ids : list string) : async :=
  removeBreakpoints_forEach ids (Return undefined).

(** A method called on the actor object [a]. *)
Definition invoke (urlHelper : IURLHelper) (p : Protocol) (a : nat) (c : Call)
    : Protocol :=
  match actors p !! a with
  | Some actor =>
      match call urlHelper actor (length (capabilities p)) c with
      | Some (actor', es, next) => commit p a actor' es next
      | None => p
      end
  | None => p
  end.

(** [new FirefoxProtocolImpl(...)], before the root actor is added. *)
Definition empty : Protocol :=
  {| actors := []; _map := ∅; capabilities := []; log := [] |}.

(** The requests written to the transport, oldest first, with the actor
    that sent each. *)
Definition sent (p : Protocol) : list (nat * ActorRequest) :=
  omap (fun ae => match snd ae with
                  | RelayRequest r => Some (fst ae, r)
                  | _ => None
                  end) (log p).

(** ** The removal of breakpoints, step by step *)

(** The request [Breakpoint.remove()] creates, as capability number [c]. *)
Definition delete_request (nm : string) (c : nat) : ActorRequest :=
  {| body := object [("type", str "delete"); ("to", str nm)]; _capability := c |}.

(** A [Breakpoint] object. *)
Definition breakpoint_actor (nm : string) (processing : option ActorRequest) : Actor :=
  {| class := Breakpoint; name := nm; _processing := processing; _queue := [];
     _tabState := INITIALIZATION; _evaluateCapabilty := None |}.

(** The chain that [removeBreakpoints] builds, read from its head: what
    [promise.then(() => breakpoint.executeOnce(...))] does for the
    [Breakpoint] objects [bs] in turn once the promise before them is
    fulfilled, and then [k]. *)
Fixpoint delete_chain (bs : list nat) (k : value -> async) (v : value) : async :=
  match bs with
  | [] => k v
  | b :: bs' => bind (executeOnce b (remove b)) (delete_chain bs' k)
  end.

(** The chain while the delete of the object [b], capability [c], is in
    flight. *)
Definition waiting_delete (b c : nat) (bs : list nat) (k : value -> async) : async :=
  Then c (fun v => RemoveActor b (delete_chain bs k v))
         (fun r => RemoveActor b (Throw r)).

(** The state after [new Breakpoint(id, ...)] for each of [ids]. *)
Definition created (p : Protocol) (ids : list string) : Protocol :=
  {| actors := actors p ++ List.map (fun id => breakpoint_actor id None) ids;
     _map := _map p; capabilities := capabilities p; log := log p |}.

(** What the actor objects from number [a0] on did, oldest first. *)
Definition effects_from (a0 : nat) (p : Protocol) : list Effect :=
  List.map snd (List.filter (fun ae => Nat.leb a0 (fst ae)) (log p)).

(** The capabilities an actor object holds: those of its pending
    requests and [_evaluateCapabilty]. *)
Definition actor_caps (a : Actor) : list nat :=
  option_list (_capability <$> _processing a)
  ++ List.map _capability (_queue a)
  ++ option_list (_evaluateCapabilty a).

(** The capability an effect settles. *)
Definition settle_target (e : Effect) : option nat :=
  match e with
  | Respond r _ | Fail r _ => Some (_capability r)
  | ResolveEvaluate c _ | RejectEvaluate c _ => Some c
  | _ => None
  end.

(** Every registered name belongs to an actor object older than [a0]. *)
Definition old_only (a0 : nat) (p : Protocol) : Prop :=
  forall nm x, _map p !! nm = Some x -> x < a0.

(** The actor objects older than [a0] hold capabilities that exist. *)
Definition others_ok (a0 : nat) (p : Protocol) : Prop :=
  forall x actor, x < a0 -> actors p !! x = Some actor ->
    forall c, In c (actor_caps actor) -> c < length (capabilities p).

(** No actor object older than [a0] holds the capability [c]. *)
Definition avoids (a0 c : nat) (p : Protocol) : Prop :=
  forall x actor, x < a0 -> actors p !! x = Some actor -> ~ In c (actor_caps actor).

(** A state the program can be in when a method is called: the names
    registered are those of existing actor objects, which hold existing
    capabilities, and every effect recorded is that of an existing
    object. *)
Definition well_formed (p : Protocol) : Prop :=
  old_only (length (actors p)) p
  /\ others_ok (length (actors p)) p
  /\ effects_from (length (actors p)) p = [].

(** What a message for an actor object older than [a0] leaves alone. *)
Definition framed (a0 : nat) (p p' : Protocol) : Prop :=
  (forall y, a0 <= y -> actors p' !! y = actors p !! y)
  /\ length (actors p') = length (actors p)
  /\ _map p' = _map p
  /\ effects_from a0 p' = effects_from a0 p
  /\ length (capabilities p) <= length (capabilities p')
  /\ (others_ok a0 p -> others_ok a0 p')
  /\ (forall c, c < length (capabilities p) -> avoids a0 c p ->
        capabilities p' !! c = capabilities p !! c /\ avoids a0 c p').

(** The trace of the objects from [a0] on is only ever extended. *)
Definition grows (a0 : nat) (p p' : Protocol) : Prop :=
  effects_from a0 p `prefix_of` effects_from a0 p'.

(** Between two deletes: the [Breakpoint] objects for [rest], from
    number [b] on, are idle and none of them is registered. *)
Definition resting (a0 b : nat) (rest : list string) (p : Protocol) : Prop :=
  a0 <= b
  /\ (forall i id, rest !! i = Some id ->
        actors p !! (b + i) = Some (breakpoint_actor id None))
  /\ old_only a0 p
  /\ others_ok a0 p.

(** The delete of [id] is in flight: its object [b] is registered and
    waits for the answer to capability [c]; the objects for [rest] are
    idle. *)
Definition removing (a0 b : nat) (id : string) (rest : list string) (c : nat)
    (p : Protocol) : Prop :=
  a0 <= b
  /\ actors p !! b = Some (breakpoint_actor id (Some (delete_request id c)))
  /\ (forall i id', rest !! i = Some id' ->
        actors p !! (S b + i) = Some (breakpoint_actor id' None))
  /\ capabilities p !! c = Some None
  /\ (forall nm x, _map p !! nm = Some x -> x < a0 \/ (x = b /\ nm = id))
  /\ others_ok a0 p
  /\ avoids a0 c p
  /\ _map p !! id = Some b.

(** How far a removal got. *)
Inductive Removal :=
| InFlight
| Failed (e : value)
| Removed.

(** The traces of a sequential removal of [ids]: one delete per id, in
    the order of [ids], each created and relayed only after the response
    to the one before; the trace ends with a delete in flight, with a
    delete answered by an error (nothing follows it), or with the response
    to the last delete. *)
Inductive removal : list string -> list Effect -> Removal -> Prop :=
| removal_nil : removal [] [] Removed
| removal_in_flight id ids c :
    removal (id :: ids)
      [NewRequest (delete_request id c); RelayRequest (delete_request id c)] InFlight
| removal_failed id ids c e :
    removal (id :: ids)
      [NewRequest (delete_request id c); RelayRequest (delete_request id c);
       Fail (delete_request id c) e] (Failed e)
| removal_next id ids c v l s :
    removal ids l s ->
    removal (id :: ids)
      (NewRequest (delete_request id c) :: RelayRequest (delete_request id c)
       :: Respond (delete_request id c) v :: l) s.

(** The promise of a removal that got as far as [s]. *)
Definition settlement (s : Removal) (t : async) : Prop :=
  match s with
  | InFlight => is_settled t = false
  | Failed e => t = Throw (ActorError e)
  | Removed => exists v, t = Return v
  end.

(** The chain with the deletes of [done] answered, that of [id] in
    flight. *)
Definition chain_in_flight (a0 : nat) (ids : list string) (k : value -> async)
    (cfg : Protocol * async) : Prop :=
  exists done l_done id rest c,
    ids = done ++ id :: rest
    /\ removal done l_done Removed
    /\ snd cfg = waiting_delete (a0 + length done) c
                   (seq (S (a0 + length done)) (length rest)) k
    /\ removing a0 (a0 + length done) id rest c (fst cfg)
    /\ effects_from a0 (fst cfg)
       = l_done ++ [NewRequest (delete_request id c); RelayRequest (delete_request id c)].

(** The chain rejected by the error that answered the delete of [id]. *)
Definition chain_failed (a0 : nat) (ids : list string) (cfg : Protocol * async) : Prop :=
  exists done l_done id rest c e,
    ids = done ++ id :: rest
    /\ removal done l_done Removed
    /\ snd cfg = Throw (ActorError e)
    /\ old_only a0 (fst cfg)
    /\ effects_from a0 (fst cfg)
       = l_done ++ [NewRequest (delete_request id c); RelayRequest (delete_request id c);
                    Fail (delete_request id c) e].

(** Every delete answered: the chain goes on with [k]. *)
Definition chain_done (a0 : nat) (ids : list string) (k : value -> async)
    (cfg : Protocol * async) : Prop :=
  exists v p,
    cfg = exec (k v) p
    /\ removal ids (effects_from a0 p) Removed
    /\ old_only a0 p.

(** Every delete answered and the promise of [removeBreakpoints]
    fulfilled. *)
Definition chain_removed (a0 : nat) (ids : list string) (cfg : Protocol * async) : Prop :=
  (exists v, snd cfg = Return v)
  /\ removal ids (effects_from a0 (fst cfg)) Removed
  /\ old_only a0 (fst cfg).

(** A response of the actor named [nm] that is no error. *)
Definition is_response_from (nm : string) (body : value) : Prop :=
  is_reply_from nm body = true /\ truthy (get body "error") = false.

(** ** The methods that read the paused program *)

(** A TypeError thrown in a callback, as the reason of a rejection. *)
Definition type_error : Reason := Thrown (str "TypeError").

(** A callback that returns the array [f body], or throws a TypeError. *)
Definition returning (f : value -> option (list value)) (body : value) : async :=
  match f body with
  | Some items => Return (array items)
  | None => Throw type_error
  end.

(** [ContextActor.getStackTrace(startFrame, maxLevels)] *)
Definition getStackTrace (this : nat) (startFrame maxLevels : value) : async :=
  then_
    (request this
       (object [("type", str "frames"); ("startFrame", startFrame);
                ("count", maxLevels)]))
    (returning getStackTrace_fulfilled) Throw.

(** [ContextActor.getScopes(frame)] *)
Definition getScopes (this : nat) (frame : value) : async :=
  then_
    (request this
       (object [("type", str "frames"); ("startFrame", frame); ("count", number 1)]))
    (returning getScopes_fulfilled) Throw.

(** [EnvironmentActor.getBindings()] *)
Definition getBindings (this : nat) : async :=
  then_ (request this (object [("type", str "bindings")]))
    (fun body => if nullish body then Throw type_error else Return (get body "bindings"))
    Throw.

(** [GripActor.getPrototypeAndProperties()] *)
Definition getPrototypeAndProperties (this : nat) : async :=
  request this (object [("type", str "prototypeAndProperties")]).

(** ['value' in desc]; [None] is the TypeError for a [desc] that is no
    object. *)
Definition has_value (desc : value) : option bool :=
  match desc with
  | object fields => Some (existsb (fun kv => bool_decide (fst kv = "value")) fields)
  | array _ => Some false
  | _ => None
  end.

(** [ContextActor.translateProperty(desc)] *)
Definition translateProperty (desc : value) : option ResultVariable :=
  match has_value desc with
  | None => None
  | Some false => Some {| display := str "(property)"; id := undefined |}
  | Some true =>
      Some {| display := formatGrip (get desc "value");
              id := getActor (get desc "value") |}
  end.

(** [{name: key, value: ...}] *)
Definition variable (key : string) (v : ResultVariable) : value :=
  object [("name", str key); ("value", result_value v)].

Section Variables.

(** The own enumerable properties of a value, each with its value, in
    the order of [Object.keys]; [None] when [Object.keys] throws.  A
    built-in of the platform. *)
Variable own_properties : value -> option (list (string * value)).

(** What [Object.keys(item).forEach(...)] pushes for the properties
    [entries]; [None] when a [translateProperty] throws. *)
Fixpoint translate_entries (entries : list (string * value)) : option (list value) :=
  match entries with
  | [] => Some []
  | (key, desc) :: entries' =>
      match translateProperty desc with
      | Some v =>
          match translate_entries entries' with
          | Some result => Some (variable key v :: result)
          | None => None
          end
      | None => None
      end
  end.

(** [ContextActor.translateProperties(item, result)]: what it pushes. *)
Definition translateProperties (item : value) : option (list value) :=
  match own_properties item with
  | Some entries => translate_entries entries
  | None => None
  end.

(** [body.arguments.forEach((item) => { this.translateProperties(item, result); })] *)
Fixpoint translate_arguments (items : list value) : option (list value) :=
  match items with
  | [] => Some []
  | item :: items' =>
      match translateProperties item with
      | Some pushed =>
          match translate_arguments items' with
          | Some result => Some (pushed ++ result)
          | None => None
          end
      | None => None
      end
  end.

(** The callback of [getVariables] for an environment, on its bindings. *)
Definition getVariables_bindings (body : value) : option (list value) :=
  if nullish body then None
  else
    match
      (if truthy (get body "arguments") then
         match get body "arguments" with
         | array items => translate_arguments items
         | _ => None
         end
       else Some [])
    with
    | Some arguments =>
        match
          (if truthy (get body "variables")
           then translateProperties (get body "variables") else Some [])
        with
        | Some variables => Some (arguments ++ variables)
        | None => None
        end
    | None => None
    end.

(** The callback of [getVariables] for an object grip. *)
Definition getVariables_grip (body : value) : option (list value) :=
  if nullish body then None
  else
    match translateProperties (get body "ownProperties") with
    | Some properties =>
        if truthy (get body "prototype") then
          match translateProperty (get body "prototype") with
          | Some v => Some (properties ++ [variable "__proto__" v])
          | None => None
          end
        else Some properties
    | None => None
    end.

(** [ContextActor.getVariables(refId)] *)
Definition getVariables (refId : string) : async :=
  if String.prefix EnvironmentVariablesPrefix refId then
    NewActor EnvironmentActor
      (substring_from (String.length EnvironmentVariablesPrefix) refId)
      (fun environment =>
         then_ (executeOnce environment (getBindings environment))
           (returning getVariables_bindings) Throw)
  else
    NewActor GripActor refId
      (fun objectGrip =>
         then_ (executeOnce objectGrip (getPrototypeAndProperties objectGrip))
           (returning getVariables_grip) Throw).

End Variables.

(** Several promises alive at once: a message arrives, then each of
    them runs as far as it goes, the older first. *)
Definition receive_all (urlHelper : IURLHelper) (cfg : Protocol * list async)
    (body : value) : Protocol * list async :=
  exec_all (snd cfg) (onExecuteCommand urlHelper (fst cfg) body).

Definition run_all (urlHelper : IURLHelper) (cfg : Protocol * list async)
    (bodies : list value) : Protocol * list async :=
  fold_left (receive_all urlHelper) bodies cfg.

(** The classes whose objects live for one request: their constructors
    send nothing and they handle no notification. *)
Definition one_shot_class (c : ActorClass) : bool :=
  match c with
  | EnvironmentActor | GripActor | SourceActor | Breakpoint => true
  | _ => false
  end.

(** A one-shot actor at work: [new C(name, ...)], then
    [executeOnce(() => this.sendRequest(body))]. *)
Definition one_shot (c : ActorClass) (nm : string) (body : value) : async :=
  NewActor c nm (fun this => executeOnce this (request this body)).

End Protocol.

(* ===================================================================== *)
(** * Part 6: the debug session ([ffDebug.ts])                            *)
(* ===================================================================== *)

Module Debug.
Import JS UrlHelper Session Protocol.

Local Open Scope string_scope.
Local Open Scope list_scope.

(** The fields of [FirefoxDebugSession] that the breakpoint and shutdown
    paths use.  A [PromiseCapability] is named by its number in the store
    [capabilities] of [protocol], which holds every capability of the
    program.  [_pendingSourceCapabilities] keeps its keys in insertion
    order, as [Object.keys] lists them.  [_process] is the field of
    [FirefoxSession]: absent when no browser was spawned, else whether the
    child process is alive; [_session] tells whether the session reference
    is still held (it is [null] after a disconnect). *)
Record FirefoxDebugSession := {
  _breakPointsIds : gmap string (list string);
  _pausedCapability : nat;
  _pendingSourceCapabilities : list (string * nat);
  _sourcePromises : gmap string nat;
  _session : bool;
  _process : option bool;
  protocol : Protocol;
  events : list string
}.

Definition set_protocol (d : FirefoxDebugSession) (p : Protocol) : FirefoxDebugSession :=
  {| _breakPointsIds := _breakPointsIds d; _pausedCapability := _pausedCapability d;
     _pendingSourceCapabilities := _pendingSourceCapabilities d;
     _sourcePromises := _sourcePromises d; _session := _session d;
     _process := _process d; protocol := p; events := events d |}.

Definition set_sources (d : FirefoxDebugSession) (pending : list (string * nat))
    (promises : gmap string nat) : FirefoxDebugSession :=
  {| _breakPointsIds := _breakPointsIds d; _pausedCapability := _pausedCapability d;
     _pendingSourceCapabilities := pending; _sourcePromises := promises;
     _session := _session d; _process := _process d; protocol := protocol d;
     events := events d |}.

Definition add_event (d : FirefoxDebugSession) (e : string) : FirefoxDebugSession :=
  {| _breakPointsIds := _breakPointsIds d; _pausedCapability := _pausedCapability d;
     _pendingSourceCapabilities := _pendingSourceCapabilities d;
     _sourcePromises := _sourcePromises d; _session := _session d;
     _process := _process d; protocol := protocol d; events := events d ++ [e] |}.

Definition end_session (d : FirefoxDebugSession) : FirefoxDebugSession :=
  {| _breakPointsIds := _breakPointsIds d; _pausedCapability := _pausedCapability d;
     _pendingSourceCapabilities := _pendingSourceCapabilities d;
     _sourcePromises := _sourcePromises d; _session := false;
     _process := Some false; protocol := protocol d; events := events d |}.

Fixpoint pending_lookup (pending : list (string * nat)) (key : string) : option nat :=
  match pending with
  | [] => None
  | (k, c) :: pending' =>
      if bool_decide (k = key) then Some c else pending_lookup pending' key
  end.

Fixpoint pending_delete (pending : list (string * nat)) (key : string)
    : list (string * nat) :=
  match pending with
  | [] => []
  | (k, c) :: pending' =>
      if bool_decide (k = key) then pending_delete pending' key
      else (k, c) :: pending_delete pending' key
  end.

(** [getSourceId(path)]: the promise for the source actor id of [path]. *)
Definition getSourceId (d : FirefoxDebugSession) (path : string)
    : FirefoxDebugSession * nat :=
  match _sourcePromises d !! path with
  | Some promise => (d, promise)
  | None =>
      let capability := length (capabilities (protocol d)) in
      (set_sources
         (set_protocol d (allocate (protocol d) (S capability)))
         (_pendingSourceCapabilities d ++ [(path, capability)])
         (<[path := capability]> (_sourcePromises d)),
       capability)
  end.

(** The [source] case of [onFirefoxNotification], as far as it runs at
    once.  For a path that is waited for it calls [resolve] on the pending
    capability; the entry of [_pendingSourceCapabilities] is deleted later,
    by the callback that [getSourceId] chained on the promise.  That
    callback is queued when the capability is settled, so by the first
    [resolve] only: the second component is the path of the callback
    queued, if any. *)
Definition source_case (d : FirefoxDebugSession) (path : string) (id : value)
    : FirefoxDebugSession * list string :=
  match pending_lookup (_pendingSourceCapabilities d) path with
  | None =>
      let promise := length (capabilities (protocol d)) in
      (set_sources
         (set_protocol d
            (settle (allocate (protocol d) (S promise)) promise (Fulfilled id)))
         (_pendingSourceCapabilities d)
         (<[path := promise]> (_sourcePromises d)),
       [])
  | Some capability =>
      (set_protocol d (settle (protocol d) capability (Fulfilled id)),
       match capabilities (protocol d) !! capability with
       | Some None => [path]
       | _ => []
       end)
  end.

(** The callback [(_) => { delete this._pendingSourceCapabilities[path]; }]
    of [getSourceId]. *)
Definition source_settled (d : FirefoxDebugSession) (path : string)
    : FirefoxDebugSession :=
  set_sources d (pending_delete (_pendingSourceCapabilities d) path) (_sourcePromises d).

(** The [source] cases of the notifications that one [data] event
    dispatches, in order, with the callbacks they queue. *)
Fixpoint source_cases (d : FirefoxDebugSession) (notifications : list (string * value))
    : FirefoxDebugSession * list string :=
  match notifications with
  | [] => (d, [])
  | (path, id) :: notifications' =>
      let '(d', queued) := source_case d path id in
      let '(d'', queued') := source_cases d' notifications' in
      (d'', queued ++ queued')
  end.

(** One turn of [source] notifications: the notifications of one [data]
    event are handled one after the other, and the queued callbacks run
    when the event's callback has returned. *)
Definition onSourceNotifications (d : FirefoxDebugSession)
    (notifications : list (string * value)) : FirefoxDebugSession :=
  let '(d', queued) := source_cases d notifications in
  fold_left source_settled queued d'.

(** A turn with one [source] notification. *)
Definition onSourceNotification (d : FirefoxDebugSession) (path : string)
    (id : value) : FirefoxDebugSession :=
  onSourceNotifications d [(path, id)].


Inductive Outcome :=
| Completed
| TypeError.

(** [disconnectRequest].  For the first key of
    [_pendingSourceCapabilities] (its value, a capability object, is
    truthy) the callback calls [this._pendingSourceCapabilities.reject],
    a property of the map that is no function: a TypeError, which ends
    the request there.  [this._session.stop()] calls [this._process.kill()]. *)
Definition disconnectRequest (d : FirefoxDebugSession) : FirefoxDebugSession * Outcome :=
  let d1 :=
    set_protocol d
      (settle (protocol d) (_pausedCapability d) (Rejected (Thrown (str "stopping")))) in
  match _pendingSourceCapabilities d1 with
  | _ :: _ => (d1, TypeError)
  | [] =>
      let d2 := add_event d1 "output: stopping" in
      if negb (_session d2) then (d2, TypeError)
      else
        match _process d2 with
        | None => (d2, TypeError)
        | Some _ => (add_event (end_session d2) "response: disconnect", Completed)
        end
  end.

(** The callbacks of [setBreakPointsRequest] behind the gate:
    [.then(results => ... removeBreakpoints ...)
     .then(() => ... addBreakpoints(sourceId, lines) ...)].
    [oldBreakpointsIds] is [this._breakPointsIds[path]] when the first
    callback runs.  The second callback is written inside the first,
    where the variable [sourceId] that both share is bound. *)
Definition behind_gate (oldBreakpointsIds : option (list string)) (lines : list value)
    (results : list value) : async :=
  let sourceId := List.nth 0 results undefined in
  bind
    (match oldBreakpointsIds with
     | Some (id :: ids) => removeBreakpoints (id :: ids)
     | _ => Return undefined
     end)
    (fun _ => addBreakpoints (ToString sourceId) lines).

(** The chain of [setBreakPointsRequest], up to the items that
    [addBreakpoints] answers with:
    [Promise.all([this.getSourceId(path), this._resumeAllowedPromise])
       .then(...).then(...)].
    [source] and [gate] are the two promises. *)
Definition setBreakPoints (source gate : nat)
    (oldBreakpointsIds : option (list string)) (lines : list value) : async :=
  All [Then source Return Throw; Then gate Return Throw]
    (behind_gate oldBreakpointsIds lines) Throw.

(** The ids that [setBreakPointsRequest] removes. *)
Definition old_ids (oldBreakpointsIds : option (list string)) : list string :=
  match oldBreakpointsIds with
  | Some ids => ids
  | None => []
  end.

(** A promise of the gate: waiting for its capability, or fulfilled. *)
Definition gate_child (c : nat) (t : async) : Prop :=
  t = Then c Return Throw \/ exists v, t = Return v.

(** The chain of [setBreakPointsRequest] waiting for the source or for
    the gate. *)
Definition gate_waiting (a0 source gate : nat) (k : list value -> async)
    (cfg : Protocol * async) : Prop :=
  exists t1 t2,
    gate_child source t1 /\ gate_child gate t2
    /\ snd cfg = All [t1; t2] k Throw
    /\ well_formed (fst cfg)
    /\ length (actors (fst cfg)) = a0.

(** The chain rejected before any removal. *)
Definition gate_rejected (a0 : nat) (cfg : Protocol * async) : Prop :=
  is_settled (snd cfg) = true
  /\ old_only a0 (fst cfg)
  /\ effects_from a0 (fst cfg) = [].

(** The removals are over: whatever follows, follows their trace. *)
Definition chain_added (a0 : nat) (ids : list string) (cfg : Protocol * async) : Prop :=
  exists l_rem l_add,
    effects_from a0 (fst cfg) = l_rem ++ l_add
    /\ removal ids l_rem Removed.

(** The states of the chain of [setBreakPointsRequest]. *)
Definition setting (a0 source gate : nat) (ids : list string)
    (k : list value -> async) (cfg : Protocol * async) : Prop :=
  gate_waiting a0 source gate k cfg
  \/ gate_rejected a0 cfg
  \/ (exists k', chain_in_flight a0 ids k' cfg)
  \/ chain_failed a0 ids cfg
  \/ chain_added a0 ids cfg.

(** A session at a pause, nothing waiting for a source, with an
    [evaluate] under way on its context actor: capability 0 is
    [_pausedCapability], capability 2 the one stored in
    [_evaluateCapabilty]; 1 and 3 are those of the actor's requests. *)
Definition evaluating : FirefoxDebugSession :=
  {| _breakPointsIds := ∅;
     _pausedCapability := 0;
     _pendingSourceCapabilities := [];
     _sourcePromises := ∅;
     _session := true;
     _process := Some true;
     protocol :=
       invoke LocalURLHelper
         (newActor (allocate empty 1) ContextActor "server1.conn0.context2")
         0 (CallEvaluate (str "1 + 1") undefined);
     events := [] |}.

(** What [getSourceId] and the [source] notifications keep true of the
    two maps: a path waited for has its capability as its promise, that
    capability is unsettled, and no two paths wait for the same one; a
    promise that is not waited for is settled. *)
Definition sources_ok (d : FirefoxDebugSession) : Prop :=
  (forall path c,
     pending_lookup (_pendingSourceCapabilities d) path = Some c ->
     _sourcePromises d !! path = Some c
     /\ capabilities (protocol d) !! c = Some None)
  /\ (forall path1 path2 c,
        pending_lookup (_pendingSourceCapabilities d) path1 = Some c ->
        pending_lookup (_pendingSourceCapabilities d) path2 = Some c ->
        path1 = path2)
  /\ (forall path c,
        _sourcePromises d !! path = Some c ->
        pending_lookup (_pendingSourceCapabilities d) path = Some c
        \/ exists s, capabilities (protocol d) !! c = Some (Some s)).

(** The ids notified for [path], oldest first. *)
Definition notified (path : string) (notifications : list (string * value))
    : list value :=
  omap (fun n => if bool_decide (fst n = path) then Some (snd n) else None) notifications.

(** [getSourceId(path)] would return a promise fulfilled with [v]. *)
Definition known (d : FirefoxDebugSession) (path : string) (v : value) : Prop :=
  exists c, _sourcePromises d !! path = Some c
            /\ capabilities (protocol d) !! c = Some (Some (Fulfilled v)).

(** The two maps inside a turn, [queued] being the paths whose callback
    is queued: as [sources_ok], but the capability of a path waited for is
    settled when its callback is queued. *)
Definition sources_mid (d : FirefoxDebugSession) (queued : list string) : Prop :=
  (forall path c,
     pending_lookup (_pendingSourceCapabilities d) path = Some c ->
     _sourcePromises d !! path = Some c
     /\ (path ∉ queued -> capabilities (protocol d) !! c = Some None)
     /\ (path ∈ queued -> exists s, capabilities (protocol d) !! c = Some (Some s)))
  /\ (forall path1 path2 c,
        pending_lookup (_pendingSourceCapabilities d) path1 = Some c ->
        pending_lookup (_pendingSourceCapabilities d) path2 = Some c ->
        path1 = path2)
  /\ (forall path c,
        _sourcePromises d !! path = Some c ->
        pending_lookup (_pendingSourceCapabilities d) path = Some c
        \/ exists s, capabilities (protocol d) !! c = Some (Some s)).

(** [new FirefoxDebugSession()], before [launch]: no browser process
    yet, and one capability, [_pausedCapability]. *)
Definition new_FirefoxDebugSession : FirefoxDebugSession :=
  {| _breakPointsIds := ∅;
     _pausedCapability := 0;
     _pendingSourceCapabilities := [];
     _sourcePromises := ∅;
     _session := true;
     _process := None;
     protocol := allocate empty 1;
     events := [] |}.

End Debug.

(* ===================================================================== *)
(** * Part II: properties                                                 *)
(* ===================================================================== *)

Module TransportFacts.
Import Transport.

(** ** Decimal length prefixes *)

Lemma uint_bytes_digits (d : Decimal.uint) : forallb is_digit (uint_bytes d) = true.
Proof. induction d; simpl; auto. Qed.

Lemma uint_bytes_value_acc (d : Decimal.uint) (acc : nat) :
  fold_left (fun acc b => 10 * acc + Z.to_nat (b - 0x30)) (uint_bytes d) acc
  = Nat.of_uint_acc d acc.
Proof.
  revert acc; induction d; intros acc; simpl fold_left; simpl Nat.of_uint_acc;
    rewrite ?IHd, ?Nat.tail_mul_spec; f_equal; simpl; lia.
Qed.

Lemma decimal_value (n : nat) : digits_value (decimal n) = n.
Proof.
  unfold digits_value, decimal. rewrite uint_bytes_value_acc.
  apply (DecimalNat.Unsigned.of_to n).
Qed.

Lemma decimal_digits (n : nat) : forallb is_digit (decimal n) = true.
Proof. apply uint_bytes_digits. Qed.

Lemma decimal_nonempty (n : nat) : decimal n <> [].
Proof.
  unfold decimal. intros H.
  assert (E : Nat.to_uint n = Decimal.Nil)
    by (destruct (Nat.to_uint n); simpl in H; congruence).
  pose proof (DecimalNat.Unsigned.to_of (Nat.to_uint n)) as U.
  rewrite DecimalNat.Unsigned.of_to, E in U.
  symmetry in U. revert U. apply DecimalFacts.unorm_nonnil.
Qed.

(** ** The digit scan *)

Lemma skip_digits_app (ds rest : Buffer) (i : nat) :
  forallb is_digit ds = true ->
  skip_digits (ds ++ rest) i = skip_digits rest (i + length ds).
Proof.
  revert i; induction ds as [|d ds IH]; intros i H; simpl in *.
  - f_equal; lia.
  - apply andb_prop in H as [Hd Hds]. rewrite Hd, IH by assumption. f_equal; lia.
Qed.

Lemma skip_digits_all (ds : Buffer) (i : nat) :
  forallb is_digit ds = true -> skip_digits ds i = i + length ds.
Proof.
  intros H. rewrite <- (app_nil_r ds) at 1. now rewrite skip_digits_app.
Qed.

Lemma colon_not_digit : is_digit colon = false.
Proof. reflexivity. Qed.

Lemma scanned_index buffer pos digits after :
  scanned buffer pos digits after ->
  skip_digits (drop pos buffer) pos = pos + length digits.
Proof.
  intros (E & Hd & Ha). rewrite E, skip_digits_app by assumption.
  destruct after as [|b rest]; simpl; [reflexivity|now rewrite Ha].
Qed.

Lemma scanned_length buffer pos digits after :
  scanned buffer pos digits after ->
  after <> [] ->
  length buffer = pos + length digits + length after.
Proof.
  intros (E & _ & _) Hne.
  assert (L : length (drop pos buffer) = length digits + length after)
    by (rewrite E; apply length_app).
  rewrite length_drop in L.
  destruct after; [congruence|]. simpl in L. simpl. lia.
Qed.

Section ParserFacts.

Variable msg : Type.
Variable JSON_parse : Buffer -> option msg.

Local Abbreviation parseFirefoxPacket := (parseFirefoxPacket msg JSON_parse).
Local Abbreviation parse_loop := (parse_loop msg JSON_parse).
Local Abbreviation on_data := (on_data msg JSON_parse).
Local Abbreviation data_events := (data_events msg JSON_parse).
Local Abbreviation frame_message := (frame_message msg JSON_parse).
Local Abbreviation wf_frame := (wf_frame msg JSON_parse).

(** Every outcome of [parseFirefoxPacket], by the shape of the buffer. *)
Lemma parse_scanned buffer pos digits after :
  scanned buffer pos digits after ->
  parseFirefoxPacket buffer pos =
  match after with
  | [] => Null msg
  | b :: rest =>
      if bool_decide (b = colon) && negb (bool_decide (digits = [])) then
        if length rest <? digits_value digits then Null msg
        else
          let lastPos := pos + length digits + 1 + digits_value digits in
          match take (digits_value digits) rest with
          | [] => Packet msg lastPos None
          | body =>
              match JSON_parse body with
              | Some m => Packet msg lastPos (Some m)
              | None => Throws msg JSONSyntaxError
              end
          end
      else Throws msg InvalidPacketHeader
  end.
Proof.
  intros Hs. pose proof (scanned_index _ _ _ _ Hs) as Hi.
  unfold parseFirefoxPacket. rewrite Hi.
  destruct after as [|b rest].
  - (* the digits run to the end of the buffer *)
    destruct Hs as (E & _ & _). rewrite app_nil_r in E.
    assert (L : length (drop pos buffer) = length digits) by now rewrite E.
    rewrite length_drop in L.
    destruct (Nat.leb_spec (length buffer) (pos + length digits)); [reflexivity|lia].
  - pose proof (scanned_length _ _ _ _ Hs ltac:(discriminate)) as L. simpl in L.
    destruct Hs as (E & Hd & Hb).
    destruct (Nat.leb_spec (length buffer) (pos + length digits)); [lia|].
    assert (Hat : buffer !! (pos + length digits) = Some b).
    { rewrite <- lookup_drop, E, lookup_app_r by lia.
      now replace (length digits - length digits) with 0 by lia. }
    rewrite Hat.
    assert (Hpos : (pos + length digits =? pos) = bool_decide (digits = [])).
    { destruct digits; simpl.
      - rewrite Nat.add_0_r, Nat.eqb_refl. reflexivity.
      - destruct (Nat.eqb_spec (pos + S (length digits)) pos); [lia|].
        reflexivity. }
    rewrite Hpos.
    assert (Hcol : bool_decide (Some b = Some colon) = bool_decide (b = colon)).
    { apply bool_decide_ext. split; congruence. }
    rewrite Hcol.
    destruct (bool_decide (digits = [])) eqn:Hnil; simpl.
    { now rewrite andb_false_r. }
    destruct (bool_decide (b = colon)) eqn:Hc; simpl; [|reflexivity].
    assert (Hsl : slice buffer pos (pos + length digits) = digits).
    { unfold slice. rewrite E.
      replace (pos + length digits - pos) with (length digits) by lia.
      now rewrite take_app_length. }
    rewrite Hsl.
    assert (Hrest : drop (S (pos + length digits)) buffer = rest).
    { replace (S (pos + length digits)) with (pos + S (length digits)) by lia.
      rewrite <- drop_drop, E.
      change (b :: rest) with ([b] ++ rest). rewrite app_assoc.
      rewrite drop_app_length'; [reflexivity|]. rewrite length_app. simpl. lia. }
    match goal with
    | |- context [length buffer <? ?x] => destruct (Nat.ltb_spec (length buffer) x)
    end;
      destruct (Nat.ltb_spec (length rest) (digits_value digits)); try lia;
      [reflexivity|].
    unfold slice.
    match goal with
    | |- context [take ?k (drop ?j buffer)] =>
        replace k with (digits_value digits) by lia;
        replace (drop j buffer) with rest
    end.
    match goal with
    | |- context [Packet msg ?x None] =>
        replace x with (pos + length digits + 1 + digits_value digits) by lia
    end.
    destruct (take (digits_value digits) rest); reflexivity.
Qed.

(** ** The loop of the [data] callback *)

Lemma skip_digits_ge (l : Buffer) (i : nat) : i <= skip_digits l i.
Proof.
  revert i; induction l as [|b l IH]; intros i; simpl; [lia|].
  destruct (is_digit b); [specialize (IH (S i))|]; lia.
Qed.

Lemma skip_digits_split (l : Buffer) (i : nat) :
  exists ds after,
    l = ds ++ after /\ forallb is_digit ds = true
    /\ match after with b :: _ => is_digit b = false | [] => True end
    /\ skip_digits l i = i + length ds.
Proof.
  revert i; induction l as [|b l IH]; intros i.
  - exists [], []. simpl. repeat split; lia.
  - simpl. destruct (is_digit b) eqn:Hb.
    + destruct (IH (S i)) as (ds & after & -> & Hds & Ha & Hi).
      exists (b :: ds), after. simpl. rewrite Hb, Hds, Hi. repeat split; auto; lia.
    + exists [], (b :: l). simpl. repeat split; auto; lia.
Qed.

(** A packet always ends after the position it was parsed from, and inside
    the buffer: the loop makes progress. *)
Lemma parse_packet_progress buffer pos lastPos body :
  parseFirefoxPacket buffer pos = Packet msg lastPos body ->
  pos < lastPos <= length buffer.
Proof.
  unfold parseFirefoxPacket.
  pose proof (skip_digits_ge (drop pos buffer) pos) as Hge.
  set (i := skip_digits (drop pos buffer) pos) in *.
  destruct (length buffer <=? i); [discriminate|].
  destruct ((i =? pos) || _); [discriminate|].
  set (n := digits_value _).
  destruct (Nat.ltb_spec (length buffer) (S i + n)); [discriminate|].
  destruct (slice buffer (S i) (S i + n));
    [|destruct (JSON_parse _)]; intros [= <- _] || discriminate; lia.
Qed.

Lemma parse_loop_total fuel buffer pos dispatched :
  length buffer - pos < fuel ->
  is_Some (parse_loop fuel buffer pos dispatched).
Proof.
  revert pos dispatched; induction fuel as [|fuel IH]; intros pos dispatched Hf; [lia|].
  simpl. destruct (Nat.ltb_spec pos (length buffer)); [|eauto].
  destruct (parseFirefoxPacket buffer pos) as [|lastPos body|e] eqn:Hp; eauto.
  apply parse_packet_progress in Hp. apply IH. lia.
Qed.

(** The [data] callback always terminates. *)
Lemma on_data_total ffBuffer data : is_Some (on_data ffBuffer data).
Proof.
  unfold on_data.
  destruct (parse_loop_total (S (length (ffBuffer ++ data))) (ffBuffer ++ data) 0 [])
    as [[d pos|d e] ->]; [lia|eauto..].
Qed.

Lemma parse_frame buffer pos f rest :
  wf_frame f = true ->
  drop pos buffer = frame_bytes f ++ rest ->
  parseFirefoxPacket buffer pos
  = Packet msg (pos + length (frame_bytes f)) (frame_message f).
Proof.
  unfold wf_frame, frame_bytes, frame_message. destruct f as [hd pl]; simpl.
  intros Hwf E.
  apply andb_prop in Hwf as [Hwf Hjson]. apply andb_prop in Hwf as [Hwf Hval].
  apply andb_prop in Hwf as [Hne Hdig].
  apply negb_true_iff in Hne. apply Nat.eqb_eq in Hval.
  rewrite (parse_scanned buffer pos hd (colon :: pl ++ rest)).
  2:{ split; [|split; [assumption|reflexivity]]. now rewrite E, <- app_assoc. }
  rewrite Hne, Hval. simpl.
  destruct (Nat.ltb_spec (length (pl ++ rest)) (length pl));
    [rewrite length_app in *; lia|].
  rewrite take_app_length, length_app. simpl length.
  replace (pos + length hd + 1 + length pl) with (pos + (length hd + S (length pl))) by lia.
  destruct pl as [|b pl]; [reflexivity|].
  apply orb_prop in Hjson as [Hjson|Hjson]; [discriminate|].
  apply bool_decide_eq_true in Hjson as [m ->]. reflexivity.
Qed.

Lemma frame_bytes_nonempty f : 0 < length (frame_bytes f).
Proof. unfold frame_bytes. rewrite length_app. simpl. lia. Qed.

Lemma frames_count_le (frames : list Frame) :
  length frames <= length (concat (map frame_bytes frames)).
Proof.
  induction frames as [|f frames IH]; simpl; [lia|].
  rewrite length_app. pose proof (frame_bytes_nonempty f). lia.
Qed.

Lemma parse_loop_frames frames fuel buffer pos dispatched rest :
  forallb wf_frame frames = true ->
  drop pos buffer = concat (map frame_bytes frames) ++ rest ->
  parse_loop (length frames + fuel) buffer pos dispatched
  = parse_loop fuel buffer (pos + length (concat (map frame_bytes frames)))
      (dispatched ++ map frame_message frames).
Proof.
  revert pos dispatched; induction frames as [|f frames IH]; intros pos dispatched Hwf E.
  - simpl. now rewrite Nat.add_0_r, app_nil_r.
  - simpl in Hwf. apply andb_prop in Hwf as [Hf Hwf].
    simpl in E. rewrite <- app_assoc in E.
    assert (Hlen : pos + length (frame_bytes f) <= length buffer).
    { assert (L : length (drop pos buffer) >= length (frame_bytes f))
        by (rewrite E, length_app; lia).
      rewrite length_drop in L. pose proof (frame_bytes_nonempty f). lia. }
    pose proof (frame_bytes_nonempty f).
    simpl. destruct (Nat.ltb_spec pos (length buffer)); [|lia].
    rewrite (parse_frame _ _ _ _ Hf E).
    rewrite IH; [|assumption|].
    + rewrite length_app, <- app_assoc. simpl. f_equal. lia.
    + rewrite <- drop_drop, E. now rewrite drop_app_length.
Qed.

Lemma partial_frame_exit tail buffer pos fuel dispatched :
  partial_frame tail = true ->
  drop pos buffer = tail ->
  parse_loop (S fuel) buffer pos dispatched = Some (LoopExit msg dispatched pos).
Proof.
  unfold partial_frame. intros Hp E. simpl.
  destruct (Nat.ltb_spec pos (length buffer)); [|reflexivity].
  destruct (skip_digits_split tail 0) as (ds & after & Ht & Hds & Ha & Hn).
  rewrite Hn in Hp. simpl in Hp.
  assert (Hs : scanned buffer pos ds after) by (split; [|split]; congruence).
  rewrite (parse_scanned _ _ _ _ Hs).
  destruct after as [|b rest']; [reflexivity|].
  destruct (Nat.eqb_spec (length ds) (length tail)) as [El|_].
  { rewrite Ht, length_app in El. simpl in El. lia. }
  repeat (apply andb_prop in Hp as [Hp ?]).
  assert (Hb : tail !! length ds = Some b).
  { rewrite Ht, lookup_app_r by lia. now rewrite Nat.sub_diag. }
  match goal with H : bool_decide _ = true |- _ => apply bool_decide_eq_true in H end.
  assert (b = colon) as -> by congruence.
  rewrite bool_decide_eq_true_2 by reflexivity.
  destruct ds as [|d ds]; [simpl in Hp; discriminate|]. simpl negb. simpl andb.
  match goal with H : (_ <? _) = true |- _ => apply Nat.ltb_lt in H; rename H into Hlt end.
  rewrite Ht, take_app_length in Hlt.
  rewrite <- Ht in Hlt. rewrite Ht, length_app in Hlt. simpl length in Hlt.
  destruct (Nat.ltb_spec (length rest') (digits_value (d :: ds))); [reflexivity|].
  simpl in *. lia.
Qed.

Lemma parse_loop_stream frames tail buffer :
  forallb wf_frame frames = true ->
  partial_frame tail = true ->
  buffer = concat (map frame_bytes frames) ++ tail ->
  parse_loop (S (length buffer)) buffer 0 []
  = Some (LoopExit msg (map frame_message frames)
            (length (concat (map frame_bytes frames)))).
Proof.
  intros Hwf Hp E.
  pose proof (frames_count_le frames) as Hc.
  assert (Hl : length buffer
               = length (concat (map frame_bytes frames)) + length tail)
    by (rewrite E; apply length_app).
  replace (S (length buffer))
    with (length frames + S (length buffer - length frames)) by lia.
  rewrite (parse_loop_frames frames _ buffer 0 [] tail Hwf E).
  simpl "+". simpl app.
  apply (partial_frame_exit tail); [assumption|].
  rewrite E. now rewrite drop_app_length.
Qed.

Lemma parse_malformed buffer pos digits after :
  scanned buffer pos digits after ->
  malformed_header digits after ->
  parseFirefoxPacket buffer pos = Throws msg InvalidPacketHeader.
Proof.
  intros Hs (b & rest & -> & Hbad). rewrite (parse_scanned _ _ _ _ Hs).
  destruct Hbad as [Hb| ->].
  - now rewrite bool_decide_eq_false_2.
  - rewrite (bool_decide_eq_true_2 ([] = [])) by reflexivity.
    now rewrite andb_false_r.
Qed.

Lemma parse_incomplete buffer pos digits after :
  scanned buffer pos digits after ->
  incomplete_packet digits after ->
  parseFirefoxPacket buffer pos = Null msg.
Proof.
  intros Hs Hinc. rewrite (parse_scanned _ _ _ _ Hs).
  destruct Hinc as [->|(rest & -> & Hne & Hlt)]; [reflexivity|].
  rewrite bool_decide_eq_true_2 by reflexivity.
  rewrite bool_decide_eq_false_2 by assumption. simpl.
  destruct (Nat.ltb_spec (length rest) (digits_value digits)); [reflexivity|lia].
Qed.

Lemma parse_empty_body buffer pos digits after :
  scanned buffer pos digits after ->
  empty_body_packet digits after ->
  parseFirefoxPacket buffer pos = Packet msg (pos + length digits + 1) None.
Proof.
  intros Hs (rest & -> & Hne & H0). rewrite (parse_scanned _ _ _ _ Hs).
  rewrite bool_decide_eq_true_2 by reflexivity.
  rewrite bool_decide_eq_false_2 by assumption. simpl.
  rewrite H0. simpl. now rewrite Nat.add_0_r.
Qed.

Lemma parse_loop_throws buffer pos e fuel dispatched :
  pos < length buffer ->
  parseFirefoxPacket buffer pos = Throws msg e ->
  parse_loop (S fuel) buffer pos dispatched = Some (LoopThrows msg dispatched e).
Proof.
  intros Hlt Ht. simpl. destruct (Nat.ltb_spec pos (length buffer)); [|lia].
  now rewrite Ht.
Qed.

Lemma parse_loop_null buffer pos fuel dispatched :
  parseFirefoxPacket buffer pos = Null msg ->
  parse_loop (S fuel) buffer pos dispatched = Some (LoopExit msg dispatched pos).
Proof. intros Hn. simpl. rewrite Hn. now destruct (pos <? length buffer). Qed.

(** X3.  The exception of a malformed header leaves the [data] callback
    after the frames in front of it were dispatched; the retained buffer
    keeps the value it had before the chunk. *)
Lemma data_throws_on_malformed_header ffBuffer data frames digits after :
  forallb wf_frame frames = true ->
  forallb is_digit digits = true ->
  match after with b :: _ => is_digit b = false | [] => True end ->
  malformed_header digits after ->
  ffBuffer ++ data = concat (map frame_bytes frames) ++ digits ++ after ->
  on_data ffBuffer data
  = Some (DataThrows msg (map frame_message frames) InvalidPacketHeader ffBuffer).
Proof.
  intros Hwf Hd Ha Hbad E. unfold on_data.
  set (newBuffer := ffBuffer ++ data) in *.
  pose proof (frames_count_le frames) as Hc.
  assert (Hl : length newBuffer
               = length (concat (map frame_bytes frames)) + length (digits ++ after))
    by (rewrite E; apply length_app).
  assert (Hpos : 0 < length (digits ++ after)).
  { destruct Hbad as (b & rest & -> & _). rewrite length_app. simpl. lia. }
  replace (S (length newBuffer))
    with (length frames + S (length newBuffer - length frames)) by lia.
  rewrite (parse_loop_frames frames _ newBuffer 0 [] _ Hwf E).
  simpl "+". simpl app.
  assert (Hs : scanned newBuffer (length (concat (map frame_bytes frames))) digits after).
  { split; [|split; assumption]. rewrite E. now rewrite drop_app_length. }
  rewrite (parse_loop_throws _ _ InvalidPacketHeader); [reflexivity|lia|].
  now apply (parse_malformed _ _ digits after).
Qed.

(** ** The claims about the transport *)

(** C2.  For every inbound chunk [data] and retained buffer [ffBuffer]: when
    the accumulated buffer [ffBuffer ++ data] consists of the complete frames
    [frames] followed by a partial frame [tail] (possibly empty), the single
    run of the [data] callback dispatches exactly the messages of [frames],
    in buffer order, and retains exactly the bytes of [tail]; the next
    callback prepends them, unchanged, to its chunk. *)
Theorem data_dispatches_complete_frames ffBuffer data frames tail :
  forallb wf_frame frames = true ->
  partial_frame tail = true ->
  ffBuffer ++ data = concat (map frame_bytes frames) ++ tail ->
  on_data ffBuffer data
  = Some (DataReturns msg (map frame_message frames) tail).
Proof.
  intros Hwf Hp E. unfold on_data.
  rewrite (parse_loop_stream frames tail _ Hwf Hp E).
  f_equal. f_equal.
  assert (Hl : length (ffBuffer ++ data)
               = length (concat (map frame_bytes frames)) + length tail)
    by (rewrite E; apply length_app).
  destruct (Nat.ltb_spec (length (concat (map frame_bytes frames)))
              (length (ffBuffer ++ data))).
  - rewrite E. now rewrite drop_app_length.
  - assert (tail = []) as -> by (destruct tail; [reflexivity|simpl in *; lia]).
    destruct (0 <? length ffBuffer) eqn:H0; [reflexivity|].
    apply Nat.ltb_ge in H0. destruct ffBuffer; [reflexivity|simpl in H0; lia].
Qed.


Section RoundTrip.

(** [JSON.stringify] followed by the UTF-8 encoding of [new Buffer(...)]. *)
Variable JSON_stringify : msg -> Buffer.

(** C4.  For a JSON-serializable body (one that [JSON.stringify] renders to
    a text, never empty, that [JSON.parse] reads back as the same body), the
    bytes [sendResponse] writes parse, from position 0, to one packet that
    spans all of them and carries the original body; the [data] callback
    dispatches it and retains nothing. *)
Theorem framing_round_trip (body : msg) :
  JSON_parse (JSON_stringify body) = Some body ->
  JSON_stringify body <> [] ->
  parseFirefoxPacket (sendResponse (JSON_stringify body)) 0
  = Packet msg (length (sendResponse (JSON_stringify body))) (Some body)
  /\ on_data [] (sendResponse (JSON_stringify body))
     = Some (DataReturns msg [Some body] []).
Proof.
  intros Hrt Hne. set (text := JSON_stringify body) in *.
  set (f := {| header := decimal (length text); payload := text |}).
  assert (Hwf : wf_frame f = true).
  { unfold wf_frame, f; simpl.
    rewrite (bool_decide_eq_false_2 _ (decimal_nonempty _)).
    rewrite decimal_digits, decimal_value, Nat.eqb_refl. simpl.
    rewrite Hrt. rewrite (bool_decide_eq_true_2 (is_Some (Some body))) by eauto.
    apply orb_true_r. }
  assert (Hm : frame_message f = Some body).
  { unfold frame_message, f; simpl. fold text. destruct text; [congruence|exact Hrt]. }
  assert (Hb : sendResponse text = frame_bytes f) by reflexivity.
  split.
  - rewrite (parse_frame (sendResponse text) 0 f [] Hwf).
    + now rewrite Hm, Hb.
    + now rewrite Hb, app_nil_r.
  - unfold on_data. simpl app.
    rewrite (parse_loop_stream [f] [] (sendResponse text)).
    + simpl. rewrite Hm, app_nil_r, <- Hb.
      now rewrite Nat.ltb_irrefl.
    + simpl. now rewrite Hwf.
    + reflexivity.
    + simpl. now rewrite Hb, !app_nil_r.
Qed.

End RoundTrip.

End ParserFacts.

(** ** The transport at work on concrete buffers *)

(** The retained bytes ["4:t"] and the chunk ["rue5:f"]: the frame ["4:true"]
    is dispatched, the partial frame ["5:f"] is retained. *)
Lemma data_dispatches_complete_frames_witness :
  on_data bool parse_literal [0x34; 0x3a; 0x74]%Z [0x72; 0x75; 0x65; 0x35; 0x3a; 0x66]%Z
  = Some (DataReturns bool [Some true] [0x35; 0x3a; 0x66]%Z).
Proof.
  apply (data_dispatches_complete_frames bool parse_literal
           [0x34; 0x3a; 0x74]%Z [0x72; 0x75; 0x65; 0x35; 0x3a; 0x66]%Z
           [{| header := [0x34]%Z; payload := stringify_literal true |}]
           [0x35; 0x3a; 0x66]%Z);
    vm_compute; reflexivity.
Defined.



(** The body [true] written by [sendResponse] and parsed back. *)
Lemma framing_round_trip_witness :
  parseFirefoxPacket bool parse_literal (sendResponse (stringify_literal true)) 0
  = Packet bool 6 (Some true)
  /\ on_data bool parse_literal [] (sendResponse (stringify_literal true))
     = Some (DataReturns bool [Some true] []).
Proof.
  apply (framing_round_trip bool parse_literal stringify_literal true).
  - reflexivity.
  - discriminate.
Defined.

(** ** A stream of frames, cut into chunks *)

Section StreamFacts.

Variable msg : Type.
Variable JSON_parse : Buffer -> option msg.

Local Abbreviation on_data := (on_data msg JSON_parse).
Local Abbreviation feed := (feed msg JSON_parse).
Local Abbreviation frame_message := (frame_message msg JSON_parse).
Local Abbreviation wf_frame := (wf_frame msg JSON_parse).

Lemma on_data_stream ffBuffer data frames tail :
  forallb wf_frame frames = true ->
  partial_frame tail = true ->
  ffBuffer ++ data = stream frames ++ tail ->
  on_data ffBuffer data = Some (DataReturns msg (map frame_message frames) tail).
Proof.
  intros Hwf Hp E. unfold Transport.on_data.
  rewrite (parse_loop_stream _ _ frames tail _ Hwf Hp E).
  f_equal. f_equal.
  assert (Hl : length (ffBuffer ++ data) = length (stream frames) + length tail)
    by (rewrite E; apply length_app).
  fold (stream frames).
  destruct (Nat.ltb_spec (length (stream frames)) (length (ffBuffer ++ data))).
  - rewrite E. now rewrite drop_app_length.
  - assert (tail = []) as -> by (destruct tail; [reflexivity|simpl in *; lia]).
    destruct (0 <? length ffBuffer) eqn:H0; [reflexivity|].
    apply Nat.ltb_ge in H0. destruct ffBuffer; [reflexivity|simpl in H0; lia].
Qed.

(** A proper prefix of a frame is a partial frame. *)
Lemma prefix_partial f pre suf :
  wf_frame f = true ->
  frame_bytes f = pre ++ suf -> suf <> [] ->
  partial_frame pre = true.
Proof.
  unfold Transport.wf_frame. intros Hwf E Hsuf.
  apply andb_prop in Hwf as [Hwf _]. apply andb_prop in Hwf as [Hwf Hlen].
  apply andb_prop in Hwf as [Hne Hdig].
  apply Nat.eqb_eq in Hlen. apply negb_true_iff in Hne.
  apply bool_decide_eq_false in Hne.
  unfold frame_bytes in E. unfold partial_frame.
  destruct (Nat.le_gt_cases (length pre) (length (header f))) as [Hle|Hgt].
  - assert (Hp : pre = take (length pre) (header f)).
    { apply (f_equal (take (length pre))) in E.
      rewrite take_app_le in E by exact Hle.
      rewrite take_app_length in E. now symmetry. }
    assert (Hd : forallb is_digit pre = true).
    { rewrite Hp. apply forallb_forall. intros x Hx.
      rewrite forallb_forall in Hdig. apply Hdig.
      apply list_elem_of_In. apply list_elem_of_In in Hx.
      apply elem_of_take in Hx as (i & Hi & _).
      eapply list_elem_of_lookup_2; eassumption. }
    pose proof (skip_digits_all pre 0 Hd) as Hs. simpl in Hs.
    rewrite Hs, Nat.eqb_refl. reflexivity.
  - assert (Hp : exists body, pre = header f ++ colon :: body
                              /\ payload f = body ++ suf).
    { apply app_eq_app in E as [l [[E1 E2]|[E1 E2]]].
      - rewrite E1, length_app in Hgt. lia.
      - destruct l as [|b l].
        + rewrite app_nil_r in E1. subst. lia.
        + simpl in E2. injection E2 as <- E2. exists l. auto. }
    destruct Hp as (body & -> & Hpay).
    pose proof (skip_digits_app (header f) (colon :: body) 0 Hdig) as Hs.
    cbn [skip_digits] in Hs. rewrite colon_not_digit in Hs. simpl in Hs. rewrite Hs.
    rewrite length_app. simpl length.
    destruct (Nat.eqb_spec (length (header f)) (length (header f) + S (length body))); [lia|].
    assert (0 < length (header f)) by (destruct (header f); [congruence|simpl; lia]).
    destruct (Nat.ltb_spec 0 (length (header f))); [|lia]. simpl.
    rewrite lookup_app_r by lia. rewrite Nat.sub_diag. simpl.
    rewrite take_app_length. rewrite Hlen, Hpay, length_app.
    apply Nat.ltb_lt. destruct suf; [congruence|simpl; lia].
Qed.

Lemma pending_partial tail frames :
  forallb wf_frame frames = true -> pending tail frames -> partial_frame tail = true.
Proof.
  intros Hwf [->|(f & fs & suf & -> & E & Hs)]; [reflexivity|].
  simpl in Hwf. apply andb_prop in Hwf as [Hf _].
  eapply prefix_partial; eassumption.
Qed.

(** A prefix of a stream is some of its frames and the beginning of the
    next. *)
Lemma prefix_frames frames : forall pre rest,
  pre ++ rest = stream frames ->
  exists fs1 fs2 tail,
    frames = fs1 ++ fs2
    /\ pre = stream fs1 ++ tail
    /\ pending tail fs2
    /\ tail ++ rest = stream fs2.
Proof.
  induction frames as [|f fs IH]; intros pre rest E.
  - apply app_eq_nil in E as [-> ->]. exists [], [], []. unfold pending. auto.
  - unfold stream in E. simpl in E. fold (stream fs) in E.
    destruct (Nat.lt_ge_cases (length pre) (length (frame_bytes f))) as [Hlt|Hge].
    + exists [], (f :: fs), pre. split; [reflexivity|]. split; [reflexivity|].
      split; [|exact E].
      apply app_eq_app in E as [l [[-> E2]|[E1 E2]]].
      * rewrite length_app in Hlt. lia.
      * right. exists f, fs, l. split; [reflexivity|]. split; [exact E1|].
        intros ->. rewrite app_nil_r in E1. subst. lia.
    + assert (Hp : exists pre', pre = frame_bytes f ++ pre' /\ pre' ++ rest = stream fs).
      { apply app_eq_app in E as [l [[-> E2]|[E1 E2]]].
        - exists l. auto.
        - destruct l as [|b l].
          + rewrite app_nil_r in E1. subst. exists []. rewrite app_nil_r. auto.
          + apply (f_equal (@length Z)) in E1. rewrite length_app in E1.
            simpl in E1. lia. }
      destruct Hp as (pre' & -> & E').
      destruct (IH pre' rest E') as (fs1 & fs2 & tail & -> & -> & Hp & Et).
      exists (f :: fs1), fs2, tail. split; [reflexivity|].
      split; [unfold stream; simpl; now rewrite <- app_assoc|]. auto.
Qed.

Lemma stream_nil frames : stream frames = [] -> frames = [].
Proof.
  destruct frames as [|f fs]; [reflexivity|]. unfold stream, frame_bytes. simpl.
  intros E. apply app_eq_nil in E as [E _]. apply app_eq_nil in E as [_ E]. discriminate.
Qed.

Lemma feed_pending chunks : forall tail frames,
  forallb wf_frame frames = true ->
  pending tail frames ->
  tail ++ concat chunks = stream frames ->
  feed tail chunks = Some (map frame_message frames, []).
Proof.
  induction chunks as [|data chunks IH]; intros tail frames Hwf Hp E.
  - simpl in *. rewrite app_nil_r in E.
    destruct Hp as [->|(f & fs & suf & -> & Ef & Hs)].
    + symmetry in E. apply stream_nil in E as ->. reflexivity.
    + exfalso. apply (f_equal (@length Z)) in E, Ef.
      unfold stream in E. simpl in E. rewrite !length_app in *.
      destruct suf; [congruence|simpl in *; lia].
  - simpl concat in E. rewrite app_assoc in E.
    destruct (prefix_frames frames _ _ E) as (fs1 & fs2 & tail' & -> & Epre & Hp' & Et).
    rewrite forallb_app in Hwf. apply andb_prop in Hwf as [Hwf1 Hwf2].
    cbn [Transport.feed].
    rewrite (on_data_stream tail data fs1 tail' Hwf1 (pending_partial _ _ Hwf2 Hp') Epre).
    rewrite (IH tail' fs2 Hwf2 Hp' Et).
    now rewrite map_app.
Qed.

(** X1.  The frames of a stream are dispatched once each, in order,
    however the stream is cut into the chunks of the [data] events;
    nothing is retained after the last chunk. *)
Theorem feed_any_chunking frames chunks :
  forallb wf_frame frames = true ->
  concat chunks = stream frames ->
  feed [] chunks = Some (map frame_message frames, []).
Proof.
  intros Hwf E. apply feed_pending; [exact Hwf|now left|exact E].
Qed.

Section StreamRoundTrip.

(** [JSON.stringify] followed by the UTF-8 encoding of [new Buffer(...)]. *)
Variable JSON_stringify : msg -> Buffer.

Lemma sendResponse_frames bodies :
  Forall (fun body => JSON_parse (JSON_stringify body) = Some body
                      /\ JSON_stringify body <> []) bodies ->
  exists frames,
    forallb wf_frame frames = true
    /\ stream frames = concat (map (fun body => sendResponse (JSON_stringify body)) bodies)
    /\ map frame_message frames = map Some bodies.
Proof.
  induction 1 as [|body bodies [Hrt Hne] _ (frames & Hwf & Es & Em)].
  - exists []. auto.
  - set (text := JSON_stringify body) in *.
    exists ({| header := decimal (length text); payload := text |} :: frames).
    split; [|split].
    + simpl. rewrite Hwf, andb_true_r. unfold Transport.wf_frame. simpl.
      rewrite (bool_decide_eq_false_2 _ (decimal_nonempty _)).
      rewrite decimal_digits, decimal_value, Nat.eqb_refl. simpl.
      rewrite Hrt. rewrite (bool_decide_eq_true_2 (is_Some (Some body))) by eauto.
      apply orb_true_r.
    + unfold stream in *. simpl. now rewrite Es.
    + simpl. rewrite Em. f_equal. unfold Transport.frame_message. simpl.
      fold text. destruct text; [congruence|exact Hrt].
Qed.

(** X2.  The bodies written by [sendResponse], one after the other, are
    dispatched by the [data] callbacks of the receiving side, each once
    and in the order written, however the connection cuts the bytes into
    chunks. *)
Theorem sendResponse_feed bodies chunks :
  Forall (fun body => JSON_parse (JSON_stringify body) = Some body
                      /\ JSON_stringify body <> []) bodies ->
  concat chunks = concat (map (fun body => sendResponse (JSON_stringify body)) bodies) ->
  feed [] chunks = Some (map Some bodies, []).
Proof.
  intros Hb E. destruct (sendResponse_frames bodies Hb) as (frames & Hwf & Es & Em).
  rewrite <- Em. apply feed_pending; [exact Hwf|now left|]. now rewrite Es.
Qed.

End StreamRoundTrip.

End StreamFacts.

(** The frames ["4:true"] and ["5:false"] arriving as ["4:t"], ["rue5:f"]
    and ["alse"]. *)
Lemma feed_any_chunking_witness :
  feed bool parse_literal []
    [[0x34; 0x3a; 0x74]%Z; [0x72; 0x75; 0x65; 0x35; 0x3a; 0x66]%Z;
     [0x61; 0x6c; 0x73; 0x65]%Z]
  = Some ([Some true; Some false], []).
Proof.
  apply (feed_any_chunking bool parse_literal
           [{| header := [0x34]%Z; payload := stringify_literal true |};
            {| header := [0x35]%Z; payload := stringify_literal false |}]);
    vm_compute; reflexivity.
Defined.

(** [true] and [false] written by [sendResponse], arriving one byte short
    of the first frame and then the rest. *)
Lemma sendResponse_feed_witness :
  feed bool parse_literal []
    [[0x34; 0x3a; 0x74; 0x72; 0x75]%Z;
     [0x65; 0x35; 0x3a; 0x66; 0x61; 0x6c; 0x73; 0x65]%Z]
  = Some ([Some true; Some false], []).
Proof.
  apply (sendResponse_feed bool parse_literal stringify_literal [true; false]).
  - repeat constructor; discriminate.
  - vm_compute. reflexivity.
Defined.

(** The chunk ["4:truex"]: [true] is dispatched, then the callback
    throws. *)
Lemma data_throws_on_malformed_header_witness :
  on_data bool parse_literal [] [0x34; 0x3a; 0x74; 0x72; 0x75; 0x65; 0x78]%Z
  = Some (DataThrows bool [Some true] InvalidPacketHeader []).
Proof.
  apply (data_throws_on_malformed_header bool parse_literal []
           [0x34; 0x3a; 0x74; 0x72; 0x75; 0x65; 0x78]%Z
           [{| header := [0x34]%Z; payload := stringify_literal true |}]
           [] [0x78]%Z); try reflexivity.
  exists 0x78%Z, []. split; [reflexivity|]. right; reflexivity.
Defined.

End TransportFacts.

(* --------------------------------------------------------------------- *)

Module ActorFacts.
Import JS UrlHelper Session.

(** ** The request queue of an actor *)

Lemma observe_all_app f es1 es2 :
  observe_all f (es1 ++ es2)
  = match observe_all f es1 with
    | Some f' => observe_all f' es2
    | None => None
    end.
Proof.
  revert f; induction es1 as [|e es1 IH]; intros f; simpl; [reflexivity|].
  destruct (observe f e); [apply IH|reflexivity].
Qed.

Lemma observe_all_prefix f t t' f' :
  t `prefix_of` t' -> observe_all f t' = Some f' ->
  exists f'', observe_all f t = Some f''.
Proof.
  intros [u ->]. rewrite observe_all_app.
  destruct (observe_all f t); [eauto|discriminate].
Qed.

Lemma omap_cons {A B} (f : A -> option B) (x : A) (l : list A) :
  omap f (x :: l) = match f x with Some y => y :: omap f l | None => omap f l end.
Proof. reflexivity. Qed.

(** What a trace accepted by [observe_all] looks like: the requests
    created are the settled ones, then the one in flight, then the waiting
    ones; the relayed ones are the settled ones and the one in flight. *)
Lemma observe_all_shape f t f' cs0 rs ss :
  observe_all f t = Some f' ->
  cs0 = ss ++ option_list (in_flight f) ++ waiting f ->
  rs = ss ++ option_list (in_flight f) ->
  cs0 ++ omap issued t
  = (ss ++ omap settled t) ++ option_list (in_flight f') ++ waiting f'
  /\ rs ++ omap relayed t
     = (ss ++ omap settled t) ++ option_list (in_flight f').
Proof.
  revert f cs0 rs ss; induction t as [|e t IH]; intros f cs0 rs ss Ht Hcs Hrs.
  - simpl in *. injection Ht as <-. now rewrite !app_nil_r.
  - simpl in Ht. destruct (observe f e) as [f1|] eqn:He; [|discriminate].
    rewrite !omap_cons. destruct f as [fl w].
    destruct e; simpl in He, Hcs, Hrs; cbn [issued relayed settled];
      try (injection He as <-; apply (IH _ _ _ _ Ht); simpl; assumption).
    + (* NewRequest *)
      injection He as <-.
      replace (cs0 ++ _capability r :: omap issued t)
        with ((cs0 ++ [_capability r]) ++ omap issued t)
        by (now rewrite <- app_assoc).
      apply (IH _ (cs0 ++ [_capability r]) rs ss Ht); simpl; [|exact Hrs].
      rewrite Hcs, <- !app_assoc. reflexivity.
    + (* RelayRequest *)
      destruct fl; [discriminate|]. destruct w as [|c w]; [discriminate|].
      destruct (Nat.eqb_spec c (_capability r)) as [<-|]; [|discriminate].
      injection He as <-.
      replace (rs ++ c :: omap relayed t) with ((rs ++ [c]) ++ omap relayed t)
        by (now rewrite <- app_assoc).
      simpl in Hcs, Hrs. rewrite app_nil_r in Hrs.
      apply (IH _ cs0 (rs ++ [c]) ss Ht); simpl; [exact Hcs|now rewrite Hrs].
    + (* Respond *)
      destruct fl as [c|]; [|discriminate].
      destruct (Nat.eqb_spec c (_capability r)) as [<-|]; [|discriminate].
      injection He as <-.
      replace (ss ++ c :: omap settled t) with ((ss ++ [c]) ++ omap settled t)
        by (now rewrite <- app_assoc).
      apply (IH _ cs0 rs (ss ++ [c]) Ht); simpl.
      * rewrite Hcs. simpl. now rewrite <- !app_assoc.
      * rewrite Hrs. simpl. now rewrite app_nil_r.
    + (* Fail *)
      destruct fl as [c|]; [|discriminate].
      destruct (Nat.eqb_spec c (_capability r)) as [<-|]; [|discriminate].
      injection He as <-.
      replace (ss ++ c :: omap settled t) with ((ss ++ [c]) ++ omap settled t)
        by (now rewrite <- app_assoc).
      apply (IH _ cs0 rs (ss ++ [c]) Ht); simpl.
      * rewrite Hcs. simpl. now rewrite <- !app_assoc.
      * rewrite Hrs. simpl. now rewrite app_nil_r.
Qed.

Ltac split_step := split; [|split; [|split; [|split]]].

Lemma quiet_issued es : Forall quiet es -> omap issued es = [].
Proof.
  intros Hes. induction Hes as [|e es He _ IH]; [reflexivity|].
  rewrite omap_cons. destruct e; simpl in He; try contradiction; exact IH.
Qed.

Lemma quiet_ok a next es :
  queue_ok a -> Forall quiet es -> step_ok a next a es next.
Proof.
  intros Hq Hes. unfold step_ok. rewrite (quiet_issued _ Hes).
  split_step; [|assumption|lia|constructor|constructor].
  induction Hes as [|e es He _ IH]; [reflexivity|].
  simpl. destruct e; simpl in He; try contradiction; exact IH.
Qed.

Lemma step_ok_refl a next : queue_ok a -> step_ok a next a [] next.
Proof. intros Hq. apply quiet_ok; [assumption|constructor]. Qed.

Lemma step_ok_trans a next a1 es1 n1 a2 es2 n2 :
  step_ok a next a1 es1 n1 -> step_ok a1 n1 a2 es2 n2 ->
  step_ok a next a2 (es1 ++ es2) n2.
Proof.
  intros (Ho1 & Hq1 & Hn1 & Hi1 & Hs1) (Ho2 & Hq2 & Hn2 & Hi2 & Hs2).
  unfold step_ok. rewrite omap_app.
  split_step; [|assumption|lia| |].
  - now rewrite observe_all_app, Ho1.
  - apply Forall_app. split; (eapply Forall_impl; [eassumption|]); simpl; lia.
  - clear Ho1 Ho2. induction Hs1 as [|k ks Hs IH Hk]; [exact Hs2|].
    simpl. apply Forall_cons in Hi1 as [Hk1 Hi1]. constructor; [now apply IH|].
    apply Forall_app. split; [exact Hk|].
    eapply Forall_impl; [exact Hi2|]. simpl. lia.
Qed.

Lemma step_ok_quiet_r a next a' es next' es' :
  step_ok a next a' es next' -> Forall quiet es' ->
  step_ok a next a' (es ++ es') next'.
Proof.
  intros H Hq. eapply step_ok_trans; [exact H|].
  apply quiet_ok; [apply H|assumption].
Qed.

Lemma step_ok_defer a next a' es next' c k :
  step_ok a next a' es next' -> step_ok a next a' (es ++ [Defer c k]) next'.
Proof. intros H. apply step_ok_quiet_r; [assumption|repeat constructor]. Qed.

Lemma sendRequest_ok a next body :
  queue_ok a ->
  let '(a', es, next') := sendRequest a next body in step_ok a next a' es next'.
Proof.
  intros Hq. unfold sendRequest, step_ok, flight_of, queue_ok in *.
  destruct a as [cls nm [r|] q ts ev]; simpl in *.
  - split_step; [|discriminate|lia| |].
    + now rewrite map_app.
    + repeat constructor; lia.
    + repeat constructor.
  - rewrite (Hq eq_refl). simpl. rewrite Nat.eqb_refl.
    split_step; [reflexivity|discriminate|lia| |].
    + repeat constructor; lia.
    + repeat constructor.
Qed.

Lemma settle_ok a next r (e : Effect) :
  _processing a = Some r ->
  observe (flight_of a) e
  = Some {| in_flight := None; waiting := List.map _capability (_queue a) |} ->
  issued e = None ->
  let '(a', es) := sendNext a in step_ok a next a' (e :: es) next.
Proof.
  intros Hp He Hi. unfold sendNext, step_ok.
  destruct (_queue a) as [|r' q'] eqn:Hq; simpl; rewrite He, Hi; simpl.
  - split_step; [reflexivity|now intros _|lia|constructor|constructor].
  - rewrite Nat.eqb_refl.
    split_step; [reflexivity|discriminate|lia|constructor|constructor].
Qed.

Lemma processResponse_ok a next body :
  queue_ok a ->
  let '(a', es, _) := processResponse a body in step_ok a next a' es next.
Proof.
  intros Hq. unfold processResponse. destruct (_processing a) as [r|] eqn:Hp.
  - pose proof (settle_ok a next r (Respond r body) Hp) as H.
    destruct (sendNext a) as [a' es]. apply H; [|reflexivity].
    unfold flight_of. rewrite Hp. simpl. now rewrite Nat.eqb_refl.
  - now apply step_ok_refl.
Qed.

Lemma Actor_processError_ok a next body :
  queue_ok a ->
  let '(a', es, _) := Actor_processError a body in step_ok a next a' es next.
Proof.
  intros Hq. unfold Actor_processError. destruct (_processing a) as [r|] eqn:Hp.
  - pose proof (settle_ok a next r (Fail r body) Hp) as H.
    destruct (sendNext a) as [a' es]. apply H; [|reflexivity].
    unfold flight_of. rewrite Hp. simpl. now rewrite Nat.eqb_refl.
  - now apply step_ok_refl.
Qed.

Section WithUrlHelperFacts.

Variable urlHelper : IURLHelper.

Lemma processNotification_quiet a body es handled :
  processNotification urlHelper a body = Some (es, handled) -> Forall quiet es.
Proof.
  unfold processNotification, newSource, printMessage. intros H.
  repeat case_match; simplify_eq; repeat constructor.
Qed.

Lemma processError_ok a next body :
  queue_ok a ->
  let '(a', es, _) := processError a body in step_ok a next a' es next.
Proof.
  intros Hq. unfold processError.
  pose proof (Actor_processError_ok a next body Hq) as Hbase.
  destruct (class a); try exact Hbase.
  destruct (_ || _); [|exact Hbase].
  destruct (_evaluateCapabilty a).
  - apply quiet_ok; [assumption|]. repeat constructor.
  - now apply step_ok_refl.
Qed.

Lemma Actor_processCommand_ok a next body a' es handled :
  queue_ok a ->
  Actor_processCommand urlHelper a body = Some (a', es, handled) ->
  step_ok a next a' es next.
Proof.
  intros Hq. unfold Actor_processCommand.
  destruct (nullish body); [discriminate|].
  destruct (truthy (get body "type")).
  - destruct (processNotification urlHelper a body) as [[es' h]|] eqn:Hn; [|discriminate].
    intros [= <- <- <-]. apply quiet_ok; [assumption|].
    eapply processNotification_quiet; eassumption.
  - destruct (truthy (get body "error")); intros [= H].
    + pose proof (processError_ok a next body Hq) as Hok. now rewrite H in Hok.
    + pose proof (processResponse_ok a next body Hq) as Hok. now rewrite H in Hok.
Qed.

Lemma queue_ok_set_tabState a st : queue_ok a -> queue_ok (set_tabState a st).
Proof. exact (fun H => H). Qed.

Lemma queue_ok_set_evaluateCapabilty a c :
  queue_ok a -> queue_ok (set_evaluateCapabilty a c).
Proof. exact (fun H => H). Qed.

Lemma processCommand_ok a next body a' es handled next' :
  queue_ok a ->
  processCommand urlHelper a next body = Some (a', es, handled, next') ->
  step_ok a next a' es next'.
Proof.
  intros Hq. unfold processCommand.
  assert (Hbase :
    match Actor_processCommand urlHelper a body with
    | Some (a', es, handled) => Some (a', es, handled, next)
    | None => None
    end = Some (a', es, handled, next') -> step_ok a next a' es next').
  { destruct (Actor_processCommand urlHelper a body) as [[[a1 es1] h1]|] eqn:Hc;
      [|discriminate].
    intros [= <- <- <- <-]. eapply Actor_processCommand_ok; eassumption. }
  destruct (class a); try exact Hbase.
  destruct (_tabState a); try exact Hbase.
  pose proof (sendRequest_ok (set_tabState a SELECT_TAB) next
                (object [("type", str "listTabs")])
                (queue_ok_set_tabState a SELECT_TAB Hq)) as Hs.
  destruct (sendRequest _ _ _) as [[a1 es1] n1].
  intros [= <- <- <- <-]. now apply step_ok_defer.
Qed.

Lemma step_ok_weaken a next a' es next' m :
  step_ok a next a' es next' -> m <= next -> step_ok a m a' es next'.
Proof.
  intros (Ho & Hq & Hn & Hi & Hs) Hm. split_step; try assumption; [lia|].
  eapply Forall_impl; [exact Hi|]. simpl. lia.
Qed.

Lemma sendMessage_quiet a body : Forall quiet (sendMessage a body).
Proof. repeat constructor. Qed.

Lemma resume_quiet a reason : Forall quiet (resume a reason).
Proof. unfold resume. destruct (negb _); apply sendMessage_quiet. Qed.

Lemma evaluate_ok a next expr frame :
  queue_ok a ->
  let '(a', es, next') := evaluate a next expr frame in step_ok a next a' es next'.
Proof.
  intros Hq. unfold evaluate.
  pose proof (sendRequest_ok (set_evaluateCapabilty a (Some next)) (S next)
                (object [("type", str "frames");
                         ("startFrame", if is_undefined frame then number 0 else frame);
                         ("count", number 1)])
                (queue_ok_set_evaluateCapabilty a _ Hq)) as Hs.
  destruct (sendRequest _ _ _) as [[a1 es1] n1].
  apply step_ok_defer. apply (step_ok_weaken _ (S next)); [exact Hs|lia].
Qed.

Lemma construct_ok c name next :
  let '(a, es, next') := construct c name next in
  step_ok (new_Actor c name) next a es next'.
Proof.
  assert (Hq : queue_ok (new_Actor c name)) by (intros _; reflexivity).
  unfold construct.
  destruct c; try (now apply step_ok_refl).
  - (* ConsoleActor *)
    pose proof (sendRequest_ok (new_Actor ConsoleActor name) next
                  (object [("type", str "startListeners");
                           ("listeners", array [str "PageError"; str "ConsoleAPI"])]) Hq) as H1.
    destruct (sendRequest _ _ _) as [[a1 es1] n1].
    pose proof (sendRequest_ok a1 n1
                  (object [("type", str "getCachedMessages");
                           ("messageTypes", array [str "PageError"; str "ConsoleAPI"])])
                  (proj1 (proj2 H1))) as H2.
    destruct (sendRequest _ _ _) as [[a2 es2] n2].
    rewrite (app_assoc es1). eapply step_ok_trans.
    + apply step_ok_defer. exact H1.
    + apply step_ok_defer. exact H2.
  - (* ContextActor *)
    pose proof (sendRequest_ok (new_Actor ContextActor name) next
                  (object [("type", str "sources")]) Hq) as H1.
    destruct (sendRequest _ _ _) as [[a1 es1] n1].
    eapply step_ok_trans.
    + apply quiet_ok; [exact Hq|apply sendMessage_quiet].
    + apply step_ok_defer. exact H1.
Qed.

Lemma call_ok a next c a' es next' :
  queue_ok a ->
  call urlHelper a next c = Some (a', es, next') ->
  step_ok a next a' es next'.
Proof.
  intros Hq. destruct c as [body|body|body|reason|expr frame]; simpl.
  - intros [= H]. pose proof (sendRequest_ok a next body Hq) as Hok.
    now rewrite H in Hok.
  - intros [= <- <- <-]. apply quiet_ok; [assumption|apply sendMessage_quiet].
  - destruct (processCommand urlHelper a next body) as [[[[a1 es1] h] n1]|] eqn:Hc;
      [|discriminate].
    intros [= <- <- <-]. eapply processCommand_ok; eassumption.
  - destruct (class a); try discriminate.
    intros [= <- <- <-]. apply quiet_ok; [assumption|apply resume_quiet].
  - destruct (class a); try discriminate.
    intros [= H]. pose proof (evaluate_ok a next expr frame Hq) as Hok.
    now rewrite H in Hok.
Qed.

Lemma calls_ok a next cs :
  queue_ok a ->
  let '(a', es, next') := calls urlHelper a next cs in step_ok a next a' es next'.
Proof.
  revert a next; induction cs as [|c cs IH]; intros a next Hq; simpl.
  - now apply step_ok_refl.
  - destruct (call urlHelper a next c) as [[[a1 es1] n1]|] eqn:Hc.
    + pose proof (call_ok _ _ _ _ _ _ Hq Hc) as H1.
      specialize (IH a1 n1 (proj1 (proj2 H1))).
      destruct (calls urlHelper a1 n1 cs) as [[a2 es2] n2].
      eapply step_ok_trans; eassumption.
    + now apply IH.
Qed.

Lemma history_ok c name next cs :
  exists f,
    observe_all {| in_flight := None; waiting := [] |}
      (history urlHelper c name next cs) = Some f
    /\ StronglySorted lt (omap issued (history urlHelper c name next cs)).
Proof.
  unfold history.
  pose proof (construct_ok c name next) as H0.
  destruct (construct c name next) as [[a0 es0] n0].
  pose proof (calls_ok a0 n0 cs (proj1 (proj2 H0))) as H1.
  destruct (calls urlHelper a0 n0 cs) as [[a1 es1] n1].
  destruct (step_ok_trans _ _ _ _ _ _ _ _ H0 H1) as (Ho & _ & _ & _ & Hs).
  exists (flight_of a1). split; [exact Ho|exact Hs].
Qed.

(** C1.  For an actor of any class and any sequence of calls on it
    ([sendRequest], [sendMessage], inbound messages, [resume],
    [evaluate]), at every moment of its history: the requests settled so
    far (resolved or rejected), in the order they settled, are the first of
    the requests relayed to the transport, which are the first of the
    requests issued, in the order they were issued; and at most one relayed
    request is not settled yet, so request n+1 is relayed only after request
    n was settled.  Nothing but the position in the queue pairs a response
    with a request. *)
Theorem requests_settle_in_issue_order c name next cs t :
  t `prefix_of` history urlHelper c name next cs ->
  omap settled t `prefix_of` omap relayed t
  /\ omap relayed t `prefix_of` omap issued t
  /\ length (omap relayed t) <= S (length (omap settled t))
  /\ StronglySorted lt (omap issued t).
Proof.
  intros Hpre. destruct (history_ok c name next cs) as (f & Ho & Hs).
  destruct (observe_all_prefix _ _ _ _ Hpre Ho) as (f' & Ho').
  destruct (observe_all_shape _ _ _ [] [] [] Ho' eq_refl eq_refl) as [Hi Hr].
  simpl in Hi, Hr. rewrite Hi, Hr.
  split; [|split; [|split]].
  - now exists (option_list (in_flight f')).
  - exists (waiting f'). apply app_assoc.
  - rewrite length_app. destruct (in_flight f'); simpl; lia.
  - rewrite <- Hi. destruct Hpre as [u Hu]. rewrite Hu, omap_app in Hs.
    eapply StronglySorted_app_1_l. exact Hs.
Qed.

End WithUrlHelperFacts.

(** Whatever a response says, it settles the request in flight: the head
    of the queue. *)
Lemma response_settles_request_in_flight a r q response :
  processResponse (set_processing a (Some r) q) response
  = (fst (sendNext (set_processing a (Some r) q)),
     Respond r response :: snd (sendNext (set_processing a (Some r) q)),
     true).
Proof. unfold processResponse. simpl. now destruct (sendNext _). Qed.

(** A source actor with three requests issued at once, answered by a
    response, an error and a response. *)
Lemma requests_settle_in_issue_order_witness :
  let t :=
    history LocalURLHelper SourceActor "src1" 0
      [CallSendRequest (object [("type", str "setBreakpoint")]);
       CallSendRequest (object [("type", str "setBreakpoint")]);
       CallSendRequest (object [("type", str "setBreakpoint")]);
       CallProcessCommand (object [("from", str "src1"); ("actor", str "bp1")]);
       CallProcessCommand (object [("from", str "src1"); ("error", str "noSuchActor")]);
       CallProcessCommand (object [("from", str "src1"); ("actor", str "bp3")])] in
  omap settled t = [0; 1; 2]
  /\ omap settled t `prefix_of` omap relayed t
  /\ omap relayed t `prefix_of` omap issued t
  /\ length (omap relayed t) <= S (length (omap settled t))
  /\ StronglySorted lt (omap issued t).
Proof.
  cbv zeta. split; [reflexivity|].
  match goal with
  | |- context [history ?u ?c ?n ?k ?cs] =>
      apply (requests_settle_in_issue_order u c n k cs (history u c n k cs))
  end.
  exists []. symmetry. apply app_nil_r.
Defined.

End ActorFacts.

(* --------------------------------------------------------------------- *)

Module GripFacts.
Import JS UrlHelper Session.

Local Open Scope string_scope.
Local Open Scope list_scope.

(** ** Formatting grips *)

Lemma formatGrip_primitive v :
  typeof_object v = false -> formatGrip v = stringify_value v.
Proof. intros H. unfold formatGrip. now rewrite H. Qed.

Lemma formatGrip_null : formatGrip null = str "null".
Proof. reflexivity. Qed.

Lemma formatGrip_number n : formatGrip (number n) = str (number_to_string n).
Proof. reflexivity. Qed.

Lemma formatGrip_string s : formatGrip (str s) = str (quote s).
Proof. reflexivity. Qed.

Lemma formatGrip_boolean b :
  formatGrip (boolean b) = str (if b then "true" else "false").
Proof. now destruct b. Qed.

(** The special values travel as [{type: tag}]. *)
Lemma formatGrip_tag tag fields :
  In tag ["null"; "undefined"; "Infinity"; "-Infinity"; "NaN"; "-0"] ->
  lookup_field fields "type" = str tag ->
  formatGrip (object fields) = str tag.
Proof.
  intros Hin Ht. unfold formatGrip. simpl. rewrite Ht.
  simpl in Hin. decompose [or] Hin; subst; try contradiction; reflexivity.
Qed.

Lemma formatGrip_longString fields :
  lookup_field fields "type" = str "longString" ->
  formatGrip (object fields) = lookup_field fields "initial".
Proof. intros Ht. unfold formatGrip. simpl. now rewrite Ht. Qed.

Lemma formatGrip_remote_object fields cls :
  lookup_field fields "type" = str "object" ->
  lookup_field fields "class" = str cls ->
  formatGrip (object fields) = str ("[object " +:+ cls +:+ "]").
Proof. intros Ht Hc. unfold formatGrip. simpl. now rewrite Ht, Hc. Qed.

Lemma getActor_remote_object fields :
  lookup_field fields "type" = str "object" ->
  getActor (object fields) = lookup_field fields "actor".
Proof. intros Ht. unfold getActor. simpl. now rewrite Ht. Qed.

Lemma getActor_primitive v : typeof_object v = false -> getActor v = undefined.
Proof. intros H. unfold getActor. now rewrite H. Qed.

(** ** Translating a completion value *)

Lemma formatReturnValue_terminated fields :
  truthy (lookup_field fields "terminated") = true ->
  formatReturnValue (object fields)
  = Some {| display := str "(terminated)"; id := undefined |}.
Proof. intros H. unfold formatReturnValue. simpl. now rewrite H. Qed.

(** A thrown value that is truthy is reported as an error. *)
Lemma formatReturnValue_throw_truthy fields :
  truthy (lookup_field fields "terminated") = false ->
  truthy (lookup_field fields "throw") = true ->
  formatReturnValue (object fields)
  = Some {| display :=
              str ("(error: " +:+ ToString (formatGrip (lookup_field fields "throw")) +:+ ")");
            id := getActor (lookup_field fields "throw") |}.
Proof. intros H1 H2. unfold formatReturnValue. simpl. now rewrite H1, H2. Qed.

Lemma formatReturnValue_return fields :
  truthy (lookup_field fields "terminated") = false ->
  truthy (lookup_field fields "throw") = false ->
  formatReturnValue (object fields)
  = Some {| display := formatGrip (lookup_field fields "return");
            id := getActor (lookup_field fields "return") |}.
Proof. intros H1 H2. unfold formatReturnValue. simpl. now rewrite H1, H2. Qed.

(** [evaluate("1+1")]: [frameFinished = {return: 2}]. *)
Example formatReturnValue_two :
  formatReturnValue (object [("return", number 2)])
  = Some {| display := str "2"; id := undefined |}.
Proof. reflexivity. Qed.

(** [evaluate("throwSomething()")]: the thrown value is a remote [Error]. *)
Example formatReturnValue_thrown_Error :
  formatReturnValue
    (object [("throw", object [("type", str "object"); ("class", str "Error");
                               ("actor", str "server1.obj7")])])
  = Some {| display := str "(error: [object Error])"; id := str "server1.obj7" |}.
Proof. reflexivity. Qed.

(** C8, at the failing input.  [evaluate("throw 0")] completes with
    [frameFinished = {throw: 0}]: the thrown value is there, but it is
    falsy, so [if (value.throw)] skips the error branch and the absent
    return value is formatted instead: the display is [undefined], not
    ["(error: 0)"]. *)
Theorem formatReturnValue_throw_zero :
  formatReturnValue (object [("throw", number 0)])
  = Some {| display := undefined; id := undefined |}
  /\ formatGrip (number 0) = str "0".
Proof. split; reflexivity. Qed.

(** The same for the other falsy primitives, [throw ""] and [throw false]. *)
Lemma formatReturnValue_throw_falsy v :
  In v [number 0; str ""; boolean false] ->
  formatReturnValue (object [("throw", v)])
  = Some {| display := undefined; id := undefined |}.
Proof.
  simpl. intros H. decompose [or] H; subst; try contradiction; reflexivity.
Qed.

(** ** [newSource] notifications *)

Lemma LocalURLHelper_nonempty url_string :
  url_string <> "" -> convertToLocal LocalURLHelper url_string <> "".
Proof.
  intros Hne. simpl. destruct (String.prefix "file:///" url_string) eqn:Hp; simpl;
    [|assumption].
  revert Hp. unfold substring_from.
  do 8 (destruct url_string as [|? url_string]; [discriminate|]; simpl;
        match goal with
        | |- (if ?d then _ else _) = true -> _ => destruct d; [subst|discriminate]
        end).
  intros _. simpl. discriminate.
Qed.

Section Http.

Variable url_pathname : string -> string.
Variable path_join : string -> string -> string.
Variable path_relative : string -> string -> string.
Variable url_resolve : string -> string -> string.

(** Node's [path.join] returns ["."] rather than an empty string. *)
Hypothesis path_join_nonempty : forall a b, path_join a b <> "".

Lemma HttpURLHelper_nonempty webRoot baseUrl url_string :
  convertToLocal
    (HttpURLHelper url_pathname path_join path_relative url_resolve webRoot baseUrl)
    url_string <> "".
Proof. simpl. apply path_join_nonempty. Qed.

End Http.

(** With a resolver that never answers the empty string, every source that
    has a URL is published: the guard [if (!path)] never fires. *)
Lemma newSource_published urlHelper source url_string :
  (forall u, u <> "" -> convertToLocal urlHelper u <> "") ->
  url_string <> "" ->
  lookup_field source "url" = str url_string ->
  newSource urlHelper (object [("type", str "newSource"); ("source", object source)])
  = Some ([NotifySession "source"
             (object [("path", str (convertToLocal urlHelper url_string));
                      ("url", str url_string);
                      ("id", lookup_field source "actor")])], true).
Proof.
  intros Hh Hne Hu. unfold newSource. simpl. rewrite Hu. simpl.
  rewrite (bool_decide_eq_false_2 _ Hne). simpl.
  now rewrite (bool_decide_eq_false_2 _ (Hh _ Hne)).
Qed.

(** A source without a URL is ignored. *)
Lemma newSource_without_url urlHelper source :
  truthy (lookup_field source "url") = false ->
  newSource urlHelper (object [("type", str "newSource"); ("source", object source)])
  = Some ([], true).
Proof. intros Hu. unfold newSource. simpl. now rewrite Hu. Qed.

(** C9, at the failing input.  A page opened from a local file loads a
    script from another origin; the context actor is told of the new
    source.  The local-file resolver hands the URL back unchanged, the
    guard commented 'ignoring non-project scripts' does not fire, and the
    source is published to the session with the URL as its local path. *)
Theorem newSource_outside_project_published :
  processNotification LocalURLHelper (new_Actor ContextActor "server1.conn0.context2")
    (object [("from", str "server1.conn0.context2"); ("type", str "newSource");
             ("source", object [("actor", str "server1.conn0.source9");
                                ("url", str "http://cdn.example.com/lib.js")])])
  = Some ([NotifySession "source"
             (object [("path", str "http://cdn.example.com/lib.js");
                      ("url", str "http://cdn.example.com/lib.js");
                      ("id", str "server1.conn0.source9")])], true).
Proof. reflexivity. Qed.

End GripFacts.

(* --------------------------------------------------------------------- *)

Module ProtocolFacts.
Import JS UrlHelper Session Protocol.

Local Open Scope string_scope.
Local Open Scope list_scope.

(** ** Induction on promise trees, through the promises of [Promise.all] *)

Lemma exec_All ts k h p :
  exec (All ts k h) p
  = let '(p', ts') := exec_all ts p in
    match thrown ts' with
    | Some r => exec (h r) p'
    | None =>
        match returned ts' with
        | Some vs => exec (k vs) p'
        | None => (p', All ts' k h)
        end
    end.
Proof. reflexivity. Qed.

(** ** What running and receiving leave alone *)

Lemma commit_actors p a actor es next :
  actors (commit p a actor es next) = <[a := actor]> (actors p).
Proof. reflexivity. Qed.

Lemma commit_map p a actor es next : _map (commit p a actor es next) = _map p.
Proof. reflexivity. Qed.

Lemma commit_log p a actor es next :
  log (commit p a actor es next) = log p ++ List.map (pair a) es.
Proof. reflexivity. Qed.

Lemma names_kept_refl p : names_kept p p.
Proof. exact (fun _ _ H => H). Qed.

Lemma names_kept_trans p1 p2 p3 :
  names_kept p1 p2 -> names_kept p2 p3 -> names_kept p1 p3.
Proof. intros H1 H2 a nm H. auto. Qed.

Lemma commit_names p a actor actor' es next :
  actors p !! a = Some actor -> name actor' = name actor ->
  names_kept p (commit p a actor' es next).
Proof.
  intros Ha Hn b nm. unfold actor_name. rewrite commit_actors.
  destruct (decide (a = b)) as [<-|Hne].
  - rewrite Ha, list_lookup_insert_eq by (eapply lookup_lt_Some; eassumption).
    simpl. congruence.
  - now rewrite list_lookup_insert_ne.
Qed.

Lemma sendRequest_name a next body :
  name (fst (fst (sendRequest a next body))) = name a.
Proof. unfold sendRequest. now destruct (_processing a). Qed.

Lemma sendNext_name a : name (fst (sendNext a)) = name a.
Proof. unfold sendNext. now destruct (_queue a). Qed.

Lemma processCommand_name urlHelper a next body a' es handled next' :
  processCommand urlHelper a next body = Some (a', es, handled, next') ->
  name a' = name a.
Proof.
  unfold processCommand, Actor_processCommand, processError, Actor_processError,
    processResponse.
  pose proof (sendNext_name a) as Hn.
  pose proof (sendRequest_name (set_tabState a SELECT_TAB) next
                (object [("type", str "listTabs")])) as Hs.
  intros H. repeat case_match; simplify_eq; simpl in *; congruence.
Qed.

Lemma construct_name c nm next : name (fst (fst (construct c nm next))) = nm.
Proof. destruct c; reflexivity. Qed.

Lemma addActor_actors p a : actors (addActor p a) = actors p.
Proof. unfold addActor. now destruct (actors p !! a). Qed.

Lemma removeActor_actors p a : actors (removeActor p a) = actors p.
Proof. unfold removeActor. now destruct (actors p !! a). Qed.

Lemma onExecuteCommand_map urlHelper p body :
  _map (onExecuteCommand urlHelper p body) = _map p.
Proof.
  unfold onExecuteCommand. repeat case_match; reflexivity.
Qed.

Lemma onExecuteCommand_names urlHelper p body :
  names_kept p (onExecuteCommand urlHelper p body).
Proof.
  unfold onExecuteCommand. repeat case_match; try apply names_kept_refl.
  eapply commit_names; [eassumption|]. eapply processCommand_name; eassumption.
Qed.

Lemma newActor_names p c name : names_kept p (newActor p c name).
Proof.
  unfold newActor. destruct (construct c name _) as [[actor es] next].
  intros b nm. unfold actor_name. rewrite commit_actors. simpl.
  intros H. destruct (actors p !! b) as [x|] eqn:Hb; [|discriminate].
  pose proof (lookup_lt_Some _ _ _ Hb) as Hlt.
  rewrite list_lookup_insert_ne by lia. now rewrite lookup_app_l, Hb.
Qed.

Lemma exec_names t : forall p, names_kept p (fst (exec t p)).
Proof.
  induction t as [v|r|c nm k IH|a k IH|a k IH|a body k IH|c f IHf g IHg|ts k h IHts IHk IHh]
    using async_ind_all; intros p.
  - apply names_kept_refl.
  - apply names_kept_refl.
  - simpl. eapply names_kept_trans; [|apply IH]. apply newActor_names.
  - simpl. eapply names_kept_trans; [|apply IH].
    intros b nm. unfold actor_name. now rewrite addActor_actors.
  - simpl. eapply names_kept_trans; [|apply IH].
    intros b nm. unfold actor_name. now rewrite removeActor_actors.
  - simpl. destruct (actors p !! a) as [actor|] eqn:Ha; [|apply names_kept_refl].
    pose proof (sendRequest_name actor (length (capabilities p)) body) as Hn.
    destruct (sendRequest _ _ _) as [[actor' es] next].
    eapply names_kept_trans; [|apply IH]. eapply commit_names; eassumption.
  - simpl. destruct (capabilities p !! c) as [[[v|r]|]|];
      auto using names_kept_refl.
  - rewrite exec_All.
    assert (Hall : names_kept p (fst (exec_all ts p))).
    { clear -IHts. revert p. induction IHts as [|t ts Ht _ IH]; intros p; simpl.
      - apply names_kept_refl.
      - specialize (Ht p). destruct (exec t p) as [p1 t1].
        specialize (IH p1). destruct (exec_all ts p1) as [p2 ts2].
        eapply names_kept_trans; eassumption. }
    destruct (exec_all ts p) as [p' ts'].
    destruct (thrown ts') as [r|]; [eapply names_kept_trans; [exact Hall|apply IHh]|].
    destruct (returned ts') as [vs|]; [eapply names_kept_trans; [exact Hall|apply IHk]|].
    exact Hall.
Qed.

Lemma exec_all_names ts p : names_kept p (fst (exec_all ts p)).
Proof.
  revert p; induction ts as [|t ts IH]; intros p; simpl.
  - apply names_kept_refl.
  - pose proof (exec_names t p) as Ht. destruct (exec t p) as [p1 t1].
    specialize (IH p1). destruct (exec_all ts p1) as [p2 ts2].
    eapply names_kept_trans; eassumption.
Qed.

Lemma newActor_lookup p c nm :
  actor_name (newActor p c nm) (length (actors p)) = Some nm.
Proof.
  unfold newActor, actor_name.
  pose proof (construct_name c nm (length (capabilities p))) as Hn.
  destruct (construct c nm _) as [[actor es] next]. simpl in Hn.
  rewrite commit_actors. simpl.
  rewrite list_lookup_insert_eq by (rewrite length_app; simpl; lia).
  simpl. now rewrite Hn.
Qed.

(** ** One-shot actors *)

(** While the action runs, the two deregistering callbacks hang on it;
    once it has settled, the name is out of the map. *)
Lemma exec_deregistering this nm t : forall p,
  actor_name p this = Some nm ->
  actor_name (fst (exec (deregistering this t) p)) this = Some nm
  /\ ((exists t', snd (exec (deregistering this t) p) = deregistering this t')
      \/ (is_settled (snd (exec (deregistering this t) p)) = true
          /\ _map (fst (exec (deregistering this t) p)) !! nm = None)).
Proof.
  assert (Hdone : forall p u,
    is_settled u = true -> actor_name p this = Some nm ->
    actor_name (fst (exec (RemoveActor this u) p)) this = Some nm
    /\ ((exists t', snd (exec (RemoveActor this u) p) = deregistering this t')
        \/ (is_settled (snd (exec (RemoveActor this u) p)) = true
            /\ _map (fst (exec (RemoveActor this u) p)) !! nm = None))).
  { intros p u Hu Hn.
    assert (E : exec (RemoveActor this u) p = (removeActor p this, u))
      by (destruct u; try discriminate; reflexivity).
    rewrite E. simpl. split.
    - unfold actor_name. now rewrite removeActor_actors.
    - right. split; [exact Hu|]. unfold removeActor.
      unfold actor_name in Hn. destruct (actors p !! this) as [actor|]; [|discriminate].
      simpl in *. injection Hn as ->. apply lookup_delete_eq. }
  induction t as [v|r|c n k IH|a k IH|a k IH|a body k IH|c f IHf g IHg|ts k IHk h IHh];
    intros p Hn.
  - apply (Hdone p (Return v)); [reflexivity|assumption].
  - apply (Hdone p (Throw r)); [reflexivity|assumption].
  - apply IH. now apply newActor_names.
  - apply IH. unfold actor_name. now rewrite addActor_actors.
  - apply IH. unfold actor_name. now rewrite removeActor_actors.
  - unfold deregistering. simpl. destruct (actors p !! a) as [actor|] eqn:Ha.
    + pose proof (sendRequest_name actor (length (capabilities p)) body) as Hs.
      destruct (sendRequest _ _ _) as [[actor' es] next].
      apply IH. eapply commit_names; eassumption.
    + simpl. split; [assumption|left]. now exists (SendRequest a body k).
  - unfold deregistering. simpl. destruct (capabilities p !! c) as [[[v|r]|]|].
    + now apply IHf.
    + now apply IHg.
    + split; [assumption|left]. now exists (Then c f g).
    + split; [assumption|left]. now exists (Then c f g).
  - unfold deregistering. simpl then_. rewrite exec_All.
    pose proof (exec_all_names ts p _ _ Hn) as Hn'.
    destruct (exec_all ts p) as [p' ts']. simpl in Hn'.
    destruct (thrown ts') as [r|]; [now apply IHh|].
    destruct (returned ts') as [vs|]; [now apply IHk|].
    simpl. split; [assumption|left]. now exists (All ts' k h).
Qed.

Lemma receive_executing urlHelper this nm cfg body :
  executing this nm cfg -> executing this nm (receive urlHelper cfg body).
Proof.
  destruct cfg as [p t]. intros [Hn Ht]. unfold receive. simpl in *.
  pose proof (onExecuteCommand_names urlHelper p body _ _ Hn) as Hn'.
  destruct Ht as [[t' ->]|[Hs Hm]].
  - now apply exec_deregistering.
  - assert (E : exec t (onExecuteCommand urlHelper p body)
                = (onExecuteCommand urlHelper p body, t))
      by (destruct t; try discriminate; reflexivity).
    rewrite E. split; [exact Hn'|right]. simpl.
    now rewrite onExecuteCommand_map.
Qed.

Lemma run_executing urlHelper this nm bodies : forall cfg,
  executing this nm cfg -> executing this nm (run urlHelper cfg bodies).
Proof.
  induction bodies as [|body bodies IH]; intros cfg H; simpl; [exact H|].
  apply IH. now apply receive_executing.
Qed.

(** C7.  For a one-shot actor of any class, with any name, and any
    operation [op]: [executeOnce(op)] first registers the actor (the map
    sends its name to it), then runs [op] with the deregistering callbacks
    chained on its promise; and whatever messages arrive, once the promise
    of [executeOnce] has settled, fulfilled or rejected, the map has no
    entry for the actor's name. *)
Theorem executeOnce_deregisters urlHelper c nm (op : nat -> async) p0 bodies :
  let this := length (actors p0) in
  let registered := addActor (newActor p0 c nm) this in
  let cfg :=
    run urlHelper (exec (NewActor c nm (fun this => executeOnce this (op this))) p0)
      bodies in
  _map registered !! nm = Some this
  /\ exec (NewActor c nm (fun this => executeOnce this (op this))) p0
     = exec (deregistering this (op this)) registered
  /\ (is_settled (snd cfg) = true -> _map (fst cfg) !! nm = None).
Proof.
  intros this registered cfg.
  pose proof (newActor_lookup p0 c nm) as Hn. fold this in Hn.
  assert (Hreg : _map registered !! nm = Some this).
  { unfold registered, addActor. unfold actor_name in Hn.
    destruct (actors (newActor p0 c nm) !! this) as [actor|]; [|discriminate].
    simpl in *. injection Hn as ->. apply lookup_insert_eq. }
  split; [exact Hreg|]. split; [reflexivity|].
  assert (Hex : executing this nm cfg).
  { apply run_executing. change (exec (NewActor c nm (fun this => executeOnce this (op this))) p0)
      with (exec (deregistering this (op this)) registered).
    apply exec_deregistering. unfold registered, actor_name.
    now rewrite addActor_actors. }
  destruct Hex as [_ [[t' Ht]|[_ Hm]]]; [|intros _; exact Hm].
  rewrite Ht. unfold deregistering. destruct t'; simpl; discriminate.
Qed.

(** ** Adding breakpoints *)

Lemma succ_minus n : S n - n = 1.
Proof. lia. Qed.

Lemma exec_addBreakpoint_busy a nm r0 q line p :
  actors p !! a = Some (source_actor nm (Some r0) q) ->
  exec (addBreakpoint a line) p
  = ({| actors := <[a := source_actor nm (Some r0)
                          (q ++ [setBreakpoint_request nm (length (capabilities p)) line])]> (actors p);
        _map := _map p;
        capabilities := capabilities p ++ [None];
        log := log p ++ [(a, NewRequest (setBreakpoint_request nm (length (capabilities p)) line))] |},
     then_ (Then (length (capabilities p)) Return Throw)
        (addBreakpoint_fulfilled line) (addBreakpoint_rejected line)).
Proof.
  intros Ha. unfold addBreakpoint, request. simpl. rewrite Ha. simpl.
  unfold commit. simpl. rewrite succ_minus. simpl.
  rewrite lookup_app_r by lia. rewrite Nat.sub_diag. simpl. reflexivity.
Qed.

Lemma exec_addBreakpoint_idle a nm line p :
  actors p !! a = Some (source_actor nm None []) ->
  exec (addBreakpoint a line) p
  = ({| actors := <[a := source_actor nm
                          (Some (setBreakpoint_request nm (length (capabilities p)) line)) []]> (actors p);
        _map := _map p;
        capabilities := capabilities p ++ [None];
        log := log p ++ [(a, NewRequest (setBreakpoint_request nm (length (capabilities p)) line));
                         (a, RelayRequest (setBreakpoint_request nm (length (capabilities p)) line))] |},
     then_ (Then (length (capabilities p)) Return Throw)
        (addBreakpoint_fulfilled line) (addBreakpoint_rejected line)).
Proof.
  intros Ha. unfold addBreakpoint, request. simpl. rewrite Ha. simpl.
  unfold commit. simpl. rewrite succ_minus. simpl.
  rewrite lookup_app_r by lia. rewrite Nat.sub_diag. simpl. reflexivity.
Qed.

Lemma exec_all_busy a nm lines : forall r0 q p,
  actors p !! a = Some (source_actor nm (Some r0) q) ->
  exists p',
    exec_all (List.map (addBreakpoint a) lines) p
    = (p', awaiting (length (capabilities p)) lines)
    /\ actors p' !! a
       = Some (source_actor nm (Some r0)
                 (q ++ setBreakpoint_requests nm (length (capabilities p)) lines))
    /\ capabilities p' = capabilities p ++ replicate (length lines) None
    /\ _map p' = _map p.
Proof.
  induction lines as [|line lines IH]; intros r0 q p Ha.
  - exists p. simpl. rewrite !app_nil_r. auto.
  - cbn [List.map exec_all]. rewrite (exec_addBreakpoint_busy _ _ _ _ _ _ Ha).
    set (p1 := {| actors := _ |}).
    assert (Hlt : a < length (actors p)) by (eapply lookup_lt_Some; eassumption).
    destruct (IH r0 (q ++ [setBreakpoint_request nm (length (capabilities p)) line]) p1)
      as (p' & He & Ha' & Hc & Hm).
    { unfold p1. simpl. now rewrite list_lookup_insert_eq. }
    exists p'. rewrite He.
    assert (Hl : length (capabilities p1) = S (length (capabilities p)))
      by (unfold p1; simpl; rewrite length_app; simpl; lia).
    rewrite Hl in *. split; [reflexivity|]. split; [|split].
    + rewrite Ha'. simpl. now rewrite <- app_assoc.
    + rewrite Hc. unfold p1. simpl. now rewrite <- app_assoc.
    + rewrite Hm. reflexivity.
Qed.

Lemma exec_all_idle a nm line lines p :
  actors p !! a = Some (source_actor nm None []) ->
  exists p',
    exec_all (List.map (addBreakpoint a) (line :: lines)) p
    = (p', awaiting (length (capabilities p)) (line :: lines))
    /\ actors p' !! a
       = Some (source_actor nm
                 (Some (setBreakpoint_request nm (length (capabilities p)) line))
                 (setBreakpoint_requests nm (S (length (capabilities p))) lines))
    /\ capabilities p' = capabilities p ++ replicate (S (length lines)) None
    /\ _map p' = _map p.
Proof.
  intros Ha. cbn [List.map exec_all]. rewrite (exec_addBreakpoint_idle _ _ _ _ Ha).
  set (p1 := {| actors := _ |}).
  assert (Hlt : a < length (actors p)) by (eapply lookup_lt_Some; eassumption).
  destruct (exec_all_busy a nm lines
              (setBreakpoint_request nm (length (capabilities p)) line) [] p1)
    as (p' & He & Ha' & Hc & Hm).
  { unfold p1. simpl. now rewrite list_lookup_insert_eq. }
  exists p'. rewrite He.
  assert (Hl : length (capabilities p1) = S (length (capabilities p)))
    by (unfold p1; simpl; rewrite length_app; simpl; lia).
  rewrite Hl in *. split; [reflexivity|]. split; [|split].
  - rewrite Ha'. reflexivity.
  - rewrite Hc. unfold p1. simpl. now rewrite <- app_assoc.
  - rewrite Hm. reflexivity.
Qed.

Lemma reply_exec urlHelper a nm c line rest p reply :
  nm <> "" ->
  adding a nm c (line :: rest) p ->
  is_reply_from nm reply = true ->
  onExecuteCommand urlHelper p reply
  = {| actors := <[a := source_actor nm (head (setBreakpoint_requests nm (S c) rest))
                          (tail (setBreakpoint_requests nm (S c) rest))]> (actors p);
       _map := _map p;
       capabilities := <[c := Some (reply_outcome reply)]> (capabilities p);
       log := log p ++ List.map (pair a)
                (reply_effect (setBreakpoint_request nm c line) reply
                 :: match rest with
                    | [] => []
                    | line' :: _ => [RelayRequest (setBreakpoint_request nm (S c) line')]
                    end) |}.
Proof.
  intros Hnm (Ha & Hc & Hm) Hr.
  unfold is_reply_from in Hr. apply andb_prop in Hr as [Hfrom Htype].
  apply negb_true_iff in Htype.
  destruct reply as [| | | | | |fields]; try discriminate.
  simpl in Hfrom, Htype.
  destruct (lookup_field fields "from") as [| | | |from| |] eqn:Ef; try discriminate.
  simpl in Hfrom. apply bool_decide_eq_true in Hfrom. subst from.
  pose proof (Hc 0 ltac:(simpl; lia)) as Hc0. rewrite Nat.add_0_r in Hc0.
  unfold onExecuteCommand. simpl. rewrite Ef. simpl.
  rewrite (bool_decide_eq_false_2 _ Hnm). simpl.
  rewrite Hm, Ha. unfold processCommand. simpl class. cbv iota.
  unfold Actor_processCommand. simpl nullish. cbv iota.
  simpl get. rewrite Htype.
  unfold reply_outcome, reply_effect. simpl get.
  destruct (truthy (lookup_field fields "error")) eqn:Ee.
  - unfold processError. simpl class. cbv iota.
    unfold Actor_processError. simpl _processing. cbv iota. cbv beta.
    unfold sendNext. simpl _queue.
    destruct rest as [|line' rest']; unfold commit; simpl;
      rewrite Nat.sub_diag; simpl; rewrite app_nil_r;
      unfold settle_in; rewrite Hc0; reflexivity.
  - unfold processResponse. simpl _processing. cbv iota. cbv beta.
    unfold sendNext. simpl _queue.
    destruct rest as [|line' rest']; unfold commit; simpl;
      rewrite Nat.sub_diag; simpl; rewrite app_nil_r;
      unfold settle_in; rewrite Hc0; reflexivity.
Qed.

Lemma reply_step urlHelper a nm c line rest p reply :
  nm <> "" ->
  adding a nm c (line :: rest) p ->
  is_reply_from nm reply = true ->
  capabilities (onExecuteCommand urlHelper p reply) !! c = Some (Some (reply_outcome reply))
  /\ adding a nm (S c) rest (onExecuteCommand urlHelper p reply).
Proof.
  intros Hnm Hadd Hr. rewrite (reply_exec _ _ _ _ _ _ _ _ Hnm Hadd Hr).
  destruct Hadd as (Ha & Hc & Hm).
  assert (Hlt : a < length (actors p)) by (eapply lookup_lt_Some; eassumption).
  pose proof (Hc 0 ltac:(simpl; lia)) as Hc0. rewrite Nat.add_0_r in Hc0.
  simpl. split; [|split; [|split]]; simpl.
  - now rewrite list_lookup_insert_eq by (eapply lookup_lt_Some; eassumption).
  - now rewrite list_lookup_insert_eq.
  - intros i Hi. rewrite list_lookup_insert_ne by lia.
    specialize (Hc (S i) ltac:(simpl in *; lia)).
    now replace (c + S i) with (S (c + i)) in Hc by lia.
  - exact Hm.
Qed.

Lemma exec_all_returns done ts p :
  exec_all (List.map Return done ++ ts) p
  = (fst (exec_all ts p), List.map Return done ++ snd (exec_all ts p)).
Proof.
  induction done as [|v done IH]; simpl.
  - now destruct (exec_all ts p).
  - rewrite IH. reflexivity.
Qed.

Lemma exec_all_awaiting lines : forall c p,
  (forall i, i < length lines -> capabilities p !! (c + i) = Some None) ->
  exec_all (awaiting c lines) p = (p, awaiting c lines).
Proof.
  induction lines as [|line lines IH]; intros c p Hc; [reflexivity|].
  simpl. pose proof (Hc 0 ltac:(simpl; lia)) as Hc0. rewrite Nat.add_0_r in Hc0.
  rewrite Hc0. rewrite IH; [reflexivity|].
  intros i Hi. specialize (Hc (S i) ltac:(simpl; lia)).
  now replace (c + S i) with (S c + i) in Hc by lia.
Qed.

Lemma exec_all_answered c line rest p reply :
  capabilities p !! c = Some (Some (reply_outcome reply)) ->
  (forall i, i < length rest -> capabilities p !! (S c + i) = Some None) ->
  exec_all (awaiting c (line :: rest)) p
  = (p, Return (breakpoint_entry line reply) :: awaiting (S c) rest).
Proof.
  intros Hc Hrest.
  assert (E : exec (then_ (Then c Return Throw)
                      (addBreakpoint_fulfilled line) (addBreakpoint_rejected line)) p
              = (p, Return (breakpoint_entry line reply))).
  { simpl. rewrite Hc. unfold reply_outcome, breakpoint_entry.
    destruct (truthy (get reply "error")); reflexivity. }
  change (exec_all (awaiting c (line :: rest)) p)
    with (let '(p1, t1) := exec (then_ (Then c Return Throw)
                      (addBreakpoint_fulfilled line) (addBreakpoint_rejected line)) p in
          let '(p2, ts2) := exec_all (awaiting (S c) rest) p1 in (p2, t1 :: ts2)).
  rewrite E. now rewrite (exec_all_awaiting rest (S c) p Hrest).
Qed.

Lemma thrown_awaiting done c lines :
  thrown (List.map Return done ++ awaiting c lines) = None.
Proof.
  induction done as [|v done IH]; simpl; [|exact IH].
  revert c; induction lines as [|line lines IH]; intros c; simpl; auto.
Qed.

Lemma returned_awaiting done c line lines :
  returned (List.map Return done ++ awaiting c (line :: lines)) = None.
Proof.
  induction done as [|v done IH]; [reflexivity|].
  cbn [List.map app returned]. now rewrite IH.
Qed.

Lemma returned_all done : returned (List.map Return done) = Some done.
Proof. induction done as [|v done IH]; simpl; [reflexivity|now rewrite IH]. Qed.

Lemma adding_tree_eq a done c lines :
  adding_tree a done c lines
  = All (List.map Return done ++ awaiting c lines)
      (fun items => RemoveActor a (Return (array items)))
      (fun reason => RemoveActor a (Throw reason)).
Proof. reflexivity. Qed.

Lemma receive_adding urlHelper a nm c line rest done p reply :
  nm <> "" ->
  adding a nm c (line :: rest) p ->
  is_reply_from nm reply = true ->
  receive urlHelper (p, adding_tree a done c (line :: rest)) reply
  = match rest with
    | [] => (removeActor (onExecuteCommand urlHelper p reply) a,
             Return (array (done ++ [breakpoint_entry line reply])))
    | _ :: _ => (onExecuteCommand urlHelper p reply,
                 adding_tree a (done ++ [breakpoint_entry line reply]) (S c) rest)
    end.
Proof.
  intros Hnm Hadd Hr.
  destruct (reply_step urlHelper _ _ _ _ _ _ _ Hnm Hadd Hr) as (Hc & Ha' & Hc' & Hm').
  unfold receive. simpl fst. simpl snd.
  set (p' := onExecuteCommand urlHelper p reply) in *.
  rewrite adding_tree_eq, exec_All.
  rewrite exec_all_returns.
  rewrite (exec_all_answered _ _ _ _ _ Hc Hc').
  cbn [fst snd].
  replace (List.map Return done ++ Return (breakpoint_entry line reply) :: awaiting (S c) rest)
    with (List.map Return (done ++ [breakpoint_entry line reply]) ++ awaiting (S c) rest)
    by (rewrite map_app, <- app_assoc; reflexivity).
  rewrite thrown_awaiting.
  destruct rest as [|line' rest'].
  - simpl awaiting. rewrite app_nil_r, returned_all. reflexivity.
  - rewrite returned_awaiting, adding_tree_eq. reflexivity.
Qed.

Lemma run_adding urlHelper a nm : forall rest line c done p replies,
  nm <> "" ->
  adding a nm c (line :: rest) p ->
  length replies = S (length rest) ->
  Forall (fun reply => is_reply_from nm reply = true) replies ->
  snd (run urlHelper (p, adding_tree a done c (line :: rest)) replies)
  = Return (array (done ++ zip_with breakpoint_entry (line :: rest) replies)).
Proof.
  induction rest as [|line' rest IH]; intros line c done p replies Hnm Hadd Hlen Hall.
  - destruct replies as [|reply [|? ?]]; try discriminate.
    apply Forall_cons in Hall as [Hr _].
    simpl run. rewrite (receive_adding _ _ _ _ _ _ _ _ _ Hnm Hadd Hr). reflexivity.
  - destruct replies as [|reply replies]; [discriminate|].
    apply Forall_cons in Hall as [Hr Hall].
    simpl run. rewrite (receive_adding _ _ _ _ _ _ _ _ _ Hnm Hadd Hr).
    destruct (reply_step urlHelper _ _ _ _ _ _ _ Hnm Hadd Hr) as (_ & Hadd').
    rewrite (IH line' (S c) _ _ replies Hnm Hadd'); [|simpl in Hlen; lia|exact Hall].
    simpl. now rewrite <- app_assoc.
Qed.

Lemma newActor_plain p c nm :
  construct c nm (length (capabilities p)) = (new_Actor c nm, [], length (capabilities p)) ->
  newActor p c nm
  = {| actors := actors p ++ [new_Actor c nm]; _map := _map p;
       capabilities := capabilities p; log := log p |}.
Proof.
  intros E. unfold newActor. rewrite E. unfold commit. simpl.
  rewrite insert_app_r_alt by lia. rewrite !Nat.sub_diag. simpl.
  now rewrite !app_nil_r.
Qed.

Lemma lookup_replicate_None {A} (l : list (option A)) n i :
  i < n -> (l ++ replicate n None) !! (length l + i) = Some None.
Proof.
  intros Hi. rewrite lookup_app_r by lia.
  replace (length l + i - length l) with i by lia.
  now apply lookup_replicate_2.
Qed.

Lemma exec_NewActor c nm k p :
  exec (NewActor c nm k) p = exec (k (length (actors p))) (newActor p c nm).
Proof. reflexivity. Qed.

Lemma exec_executeOnce this action p :
  exec (executeOnce this action) p = exec (deregistering this action) (addActor p this).
Proof. reflexivity. Qed.

(** C6.  [addBreakpoints(sourceId, lines)], in any state of the
    protocol, once the source actor has answered each of its requests in
    turn, by a response or by an error: the promise is fulfilled (never
    rejected: a failed request is not propagated) with exactly one entry
    per requested line, in the order of the lines, the entry of a line
    being [breakpoint_entry] of the line and of its reply: for an answered
    request the breakpoint actor, the server's corrected line when it
    reports one and [verified] exactly when the server did not report the
    breakpoint as pending; for a failed one
    [{id: undefined, line: original line, verified: false}]. *)
Theorem addBreakpoints_entries urlHelper nm lines replies p0 :
  nm <> "" ->
  length replies = length lines ->
  Forall (fun reply => is_reply_from nm reply = true) replies ->
  snd (run urlHelper (exec (addBreakpoints nm lines) p0) replies)
  = Return (array (zip_with breakpoint_entry lines replies))
  /\ length (zip_with breakpoint_entry lines replies) = length lines.
Proof.
  intros Hnm Hlen Hall.
  split; [|rewrite length_zip_with; lia].
  destruct lines as [|line lines].
  - destruct replies; [|discriminate]. reflexivity.
  - set (a := length (actors p0)).
    unfold addBreakpoints. rewrite exec_NewActor, exec_executeOnce. fold a.
    rewrite (newActor_plain p0 SourceActor nm eq_refl). fold a.
    set (p1 := addActor _ a).
    assert (Hp1 : p1 = {| actors := actors p0 ++ [source_actor nm None []];
                          _map := <[nm := a]> (_map p0);
                          capabilities := capabilities p0; log := log p0 |}).
    { unfold p1, addActor. simpl. unfold a.
      rewrite lookup_app_r by lia. now rewrite Nat.sub_diag. }
    destruct (exec_all_idle a nm line lines p1) as (p' & He & Ha' & Hc & Hm).
    { rewrite Hp1. simpl. unfold a. rewrite lookup_app_r by lia.
      now rewrite Nat.sub_diag. }
    change (deregistering a
              (All (List.map (addBreakpoint a) (line :: lines))
                 (fun items => Return (array items)) Throw))
      with (All (List.map (addBreakpoint a) (line :: lines))
              (fun items => RemoveActor a (Return (array items)))
              (fun reason => RemoveActor a (Throw reason))).
    rewrite exec_All, He.
    assert (Ht : thrown (awaiting (length (capabilities p1)) (line :: lines)) = None)
      by exact (thrown_awaiting [] _ (line :: lines)).
    assert (Hr : returned (awaiting (length (capabilities p1)) (line :: lines)) = None)
      by exact (returned_awaiting [] _ line lines).
    rewrite Ht, Hr.
    change (All (awaiting (length (capabilities p1)) (line :: lines))
              (fun items => RemoveActor a (Return (array items)))
              (fun reason => RemoveActor a (Throw reason)))
      with (adding_tree a [] (length (capabilities p1)) (line :: lines)).
    apply (run_adding urlHelper a nm lines line _ [] p' replies Hnm); try assumption.
    split; [exact Ha'|]. split.
    + intros i Hi. rewrite Hc. now apply lookup_replicate_None.
    + rewrite Hm, Hp1. simpl. apply lookup_insert_eq.
Qed.

(** The operation of [Breakpoint.remove] on a fresh protocol: the promise
    is fulfilled by the response and the name is gone from the map. *)
Lemma executeOnce_deregisters_witness :
  is_settled (snd (run LocalURLHelper
    (exec (NewActor Breakpoint "bp1" (fun this => executeOnce this (remove this))) empty)
    [object [("from", str "bp1")]])) = true
  /\ _map (fst (run LocalURLHelper
    (exec (NewActor Breakpoint "bp1" (fun this => executeOnce this (remove this))) empty)
    [object [("from", str "bp1")]])) !! "bp1" = None.
Proof.
  split; [reflexivity|].
  apply (executeOnce_deregisters LocalURLHelper Breakpoint "bp1" remove empty
           [object [("from", str "bp1")]]).
  reflexivity.
Defined.

(** Two lines on a fresh protocol, the first request failing, the second
    answered with a pending breakpoint moved to line 7. *)
Lemma addBreakpoints_entries_witness :
  snd (run LocalURLHelper (exec (addBreakpoints "src1" [number 2; number 3]) empty)
         [object [("from", str "src1"); ("error", str "noSuchActor")];
          object [("from", str "src1"); ("actor", str "bp2");
                  ("isPending", boolean true);
                  ("actualLocation", object [("line", number 7)])]])
  = Return (array
      [object [("id", undefined); ("line", number 2); ("verified", boolean false)];
       object [("id", str "bp2"); ("line", number 7); ("verified", boolean false)]]).
Proof.
  refine (proj1 (addBreakpoints_entries LocalURLHelper "src1" [number 2; number 3]
    [object [("from", str "src1"); ("error", str "noSuchActor")];
     object [("from", str "src1"); ("actor", str "bp2");
             ("isPending", boolean true);
             ("actualLocation", object [("line", number 7)])]] empty _ _ _)).
  - discriminate.
  - reflexivity.
  - repeat constructor.
Defined.

(** ** Removing breakpoints *)

Lemma then_assoc t : forall f g f' g',
  then_ (then_ t f g) f' g'
  = then_ t (fun v => then_ (f v) f' g') (fun r => then_ (g r) f' g').
Proof.
  induction t; intros; simpl; try reflexivity; f_equal;
    try (apply functional_extensionality; intros); auto.
Qed.

Lemma bind_assoc t f g : bind (bind t f) g = bind t (fun v => bind (f v) g).
Proof. unfold bind. rewrite then_assoc. reflexivity. Qed.

Lemma created_nil p : created p [] = p.
Proof. destruct p. unfold created. simpl. now rewrite app_nil_r. Qed.

Lemma newActor_Breakpoint p id :
  newActor p Breakpoint id = created p [id].
Proof. now rewrite newActor_plain. Qed.

Lemma created_cons p id ids :
  created (created p [id]) ids = created p (id :: ids).
Proof. unfold created. simpl. now rewrite <- app_assoc. Qed.

Lemma exec_forEach ids : forall promise k p,
  exec (bind (removeBreakpoints_forEach ids promise) k) p
  = exec (bind promise (delete_chain (seq (length (actors p)) (length ids)) k))
      (created p ids).
Proof.
  induction ids as [|id ids IH]; intros promise k p.
  - simpl. now rewrite created_nil.
  - cbn [removeBreakpoints_forEach].
    change (exec (bind (NewActor Breakpoint id _) k) p)
      with (exec (bind (removeBreakpoints_forEach ids
                    (bind promise (fun _ => executeOnce (length (actors p))
                                              (remove (length (actors p)))))) k)
              (newActor p Breakpoint id)).
    rewrite IH, newActor_Breakpoint, created_cons, bind_assoc.
    unfold created at 1. simpl actors. rewrite length_app. simpl length.
    replace (length (actors p) + 1) with (S (length (actors p))) by lia.
    reflexivity.
Qed.

(** ** What a method does to the capabilities an actor holds *)

Ltac caps := unfold actor_caps in *; simpl in *; rewrite ?in_app_iff in *; simpl in *.

Lemma sendRequest_caps a n body a' es n' :
  sendRequest a n body = (a', es, n') ->
  n' = S n
  /\ (forall e c, In e es -> settle_target e <> Some c)
  /\ (forall c, In c (actor_caps a') -> In c (actor_caps a) \/ c = n).
Proof.
  unfold sendRequest. destruct (_processing a) as [r|] eqn:E; intros [= <- <- <-];
    (split; [reflexivity|]); (split; [intros e c He; simpl in He; intuition (subst; discriminate)|]);
    intros c; caps; rewrite ?E; simpl; rewrite ?map_app, ?in_app_iff; simpl; intuition.
Qed.

Lemma sendNext_caps a a' es :
  sendNext a = (a', es) ->
  (forall e c, In e es -> settle_target e <> Some c)
  /\ (forall c, In c (actor_caps a') -> In c (actor_caps a)).
Proof.
  unfold sendNext. destruct (_queue a) as [|r q] eqn:E; intros [= <- <-];
    (split; [intros e c He; simpl in He; intuition (subst; discriminate)|]);
    intros c; caps; rewrite ?E; simpl; intuition.
Qed.

Lemma processResponse_caps a body a' es h :
  processResponse a body = (a', es, h) ->
  (forall e c, In e es -> settle_target e = Some c -> In c (actor_caps a))
  /\ (forall c, In c (actor_caps a') -> In c (actor_caps a)).
Proof.
  unfold processResponse. destruct (_processing a) as [r|] eqn:E.
  - destruct (sendNext a) as [a1 es1] eqn:En. intros [= <- <- <-].
    apply sendNext_caps in En as [Hs Hc]. split; [|exact Hc].
    intros e c [<-|He] Ht; [|now apply Hs in Ht].
    injection Ht as <-. caps. rewrite E. simpl. auto.
  - intros [= <- <- <-]. split; [intros e c []|auto].
Qed.

Lemma Actor_processError_caps a body a' es h :
  Actor_processError a body = (a', es, h) ->
  (forall e c, In e es -> settle_target e = Some c -> In c (actor_caps a))
  /\ (forall c, In c (actor_caps a') -> In c (actor_caps a)).
Proof.
  unfold Actor_processError. destruct (_processing a) as [r|] eqn:E.
  - destruct (sendNext a) as [a1 es1] eqn:En. intros [= <- <- <-].
    apply sendNext_caps in En as [Hs Hc]. split; [|exact Hc].
    intros e c [<-|He] Ht; [|now apply Hs in Ht].
    injection Ht as <-. caps. rewrite E. simpl. auto.
  - intros [= <- <- <-]. split; [intros e c []|auto].
Qed.

Section CapsWithUrlHelper.
Variable urlHelper : IURLHelper.

Lemma processError_caps a body a' es h :
  processError a body = (a', es, h) ->
  (forall e c, In e es -> settle_target e = Some c -> In c (actor_caps a))
  /\ (forall c, In c (actor_caps a') -> In c (actor_caps a)).
Proof.
  unfold processError.
  destruct (class a); try apply Actor_processError_caps.
  destruct (_ || _); [|apply Actor_processError_caps].
  destruct (_evaluateCapabilty a) as [ev|] eqn:E; intros [= <- <- <-].
  - split; [|auto]. intros e c [<-|[]] [= <-]. caps. rewrite E. simpl. auto.
  - split; [intros e c []|auto].
Qed.

Lemma processNotification_caps a body es h :
  processNotification urlHelper a body = Some (es, h) ->
  forall e c, In e es -> settle_target e = Some c -> In c (actor_caps a).
Proof.
  unfold processNotification, newSource, printMessage. intros H e c He Ht.
  destruct (class a); repeat case_match; simplify_eq; simpl in He;
    try (destruct He as [<-|[]]); try contradiction; try discriminate.
  all: injection Ht as <-; caps;
    match goal with H : _evaluateCapabilty _ = _ |- _ => rewrite H end;
    simpl; auto.
Qed.

Lemma Actor_processCommand_caps a body a' es h :
  Actor_processCommand urlHelper a body = Some (a', es, h) ->
  (forall e c, In e es -> settle_target e = Some c -> In c (actor_caps a))
  /\ (forall c, In c (actor_caps a') -> In c (actor_caps a)).
Proof.
  unfold Actor_processCommand. destruct (nullish body); [discriminate|].
  destruct (truthy (get body "type")).
  - destruct (processNotification urlHelper a body) as [[es1 h1]|] eqn:E; [|discriminate].
    intros [= <- <- <-]. split; [|auto]. eapply processNotification_caps; eassumption.
  - destruct (truthy (get body "error")); intros [= H].
    + eapply processError_caps; eassumption.
    + eapply processResponse_caps; eassumption.
Qed.

Lemma processCommand_caps a n body a' es h n' :
  processCommand urlHelper a n body = Some (a', es, h, n') ->
  n <= n'
  /\ (forall e c, In e es -> settle_target e = Some c -> In c (actor_caps a))
  /\ (forall c, In c (actor_caps a') -> In c (actor_caps a) \/ (c = n /\ n < n')).
Proof.
  unfold processCommand.
  assert (G : match Actor_processCommand urlHelper a body with
              | Some (a', es, handled) => Some (a', es, handled, n)
              | None => None
              end = Some (a', es, h, n') ->
              n <= n'
              /\ (forall e c, In e es -> settle_target e = Some c -> In c (actor_caps a))
              /\ (forall c, In c (actor_caps a') -> In c (actor_caps a) \/ (c = n /\ n < n'))).
  { destruct (Actor_processCommand urlHelper a body) as [[[a1 es1] h1]|] eqn:E; [|discriminate].
    intros [= <- <- <- <-]. apply Actor_processCommand_caps in E as [Hs Hc].
    split; [lia|]. split; [exact Hs|]. intros c Hin. left. auto. }
  destruct (class a); try exact G.
  destruct (_tabState a); try exact G.
  destruct (sendRequest _ n _) as [[a1 es1] n1] eqn:E.
  intros [= <- <- <- <-]. apply sendRequest_caps in E as (-> & Hs & Hc).
  split; [lia|]. split.
  - intros e c He Ht. apply in_app_iff in He as [He|[<-|[]]]; [|discriminate].
    now apply Hs in Ht.
  - intros c Hin. apply Hc in Hin as [Hin| ->]; [left|right; split; lia].
    revert Hin. caps. auto.
Qed.

End CapsWithUrlHelper.

(** ** Messages for the other actors *)

Lemma framed_refl a0 p : framed a0 p p.
Proof. unfold framed. intuition. Qed.

Lemma effects_keep es : forall caps c,
  (forall e, In e es -> settle_target e <> Some c) ->
  fold_left effect_on es caps !! c = caps !! c.
Proof.
  induction es as [|e es IH]; intros caps c H; simpl; [reflexivity|].
  rewrite IH by (intros e' He'; apply H; now right).
  assert (He : settle_target e <> Some c) by (apply H; now left).
  destruct e; simpl in *; try reflexivity; unfold settle_in;
    repeat case_match; try reflexivity;
    apply list_lookup_insert_ne; congruence.
Qed.

Lemma effects_length es : forall caps,
  length (fold_left effect_on es caps) = length caps.
Proof.
  induction es as [|e es IH]; intros caps; simpl; [reflexivity|].
  rewrite IH. destruct e; simpl; try reflexivity; unfold settle_in;
    repeat case_match; try reflexivity; apply length_insert.
Qed.

Lemma effects_from_commit a0 p a actor es n :
  effects_from a0 (commit p a actor es n)
  = effects_from a0 p ++ (if Nat.leb a0 a then es else []).
Proof.
  unfold effects_from, commit. simpl. rewrite List.filter_app, List.map_app. f_equal.
  induction es as [|e es IH]; simpl.
  - now destruct (Nat.leb a0 a).
  - destruct (Nat.leb a0 a); simpl in *; [now rewrite IH|exact IH].
Qed.

Lemma commit_length p a actor es n :
  length (capabilities (commit p a actor es n))
  = length (capabilities p) + (n - length (capabilities p)).
Proof.
  unfold commit. simpl. now rewrite effects_length, length_app, length_replicate.
Qed.

Lemma commit_frame urlHelper a0 p x actor body actor' es h n' :
  x < a0 -> actors p !! x = Some actor ->
  processCommand urlHelper actor (length (capabilities p)) body = Some (actor', es, h, n') ->
  framed a0 p (commit p x actor' es n').
Proof.
  intros Hx Ha Hp. apply processCommand_caps in Hp as (Hn & Hs & Hc).
  assert (Hlt : x < length (actors p)) by (eapply lookup_lt_Some; eassumption).
  pose proof (commit_length p x actor' es n') as Hl.
  unfold framed. split; [|split; [|split; [|split; [|split; [|split]]]]].
  - intros y Hy. simpl. apply list_lookup_insert_ne. lia.
  - simpl. apply length_insert.
  - reflexivity.
  - rewrite effects_from_commit. destruct (Nat.leb_spec a0 x); [lia|apply app_nil_r].
  - lia.
  - intros Hok y act Hy Hact c Hin.
    simpl actors in Hact. destruct (decide (y = x)) as [->|Hne].
    + rewrite list_lookup_insert_eq in Hact by exact Hlt. injection Hact as <-.
      apply Hc in Hin as [Hin|[-> Hlt']]; [|lia].
      specialize (Hok x actor Hx Ha c Hin). lia.
    + rewrite list_lookup_insert_ne in Hact by congruence.
      specialize (Hok y act Hy Hact c Hin). lia.
  - intros c Hcl Hav. split.
    + unfold commit. simpl. rewrite effects_keep.
      * apply lookup_app_l. exact Hcl.
      * intros e He Ht. apply (Hav x actor Hx Ha). eapply Hs; eassumption.
    + intros y act Hy Hact Hin.
      simpl actors in Hact. destruct (decide (y = x)) as [->|Hne].
      * rewrite list_lookup_insert_eq in Hact by exact Hlt. injection Hact as <-.
        apply Hc in Hin as [Hin|[-> Hlt']]; [|lia].
        exact (Hav x actor Hx Ha Hin).
      * rewrite list_lookup_insert_ne in Hact by congruence.
        exact (Hav y act Hy Hact Hin).
Qed.

Lemma onExecuteCommand_frame urlHelper a0 p body :
  (forall x, _map p !! ToString (get body "from") = Some x -> x < a0) ->
  framed a0 p (onExecuteCommand urlHelper p body).
Proof.
  intros Hr. unfold onExecuteCommand.
  destruct (_ || _); [apply framed_refl|].
  destruct (_map p !! _) as [x|] eqn:Em; [|apply framed_refl].
  destruct (actors p !! x) as [actor|] eqn:Ea; [|apply framed_refl].
  destruct (processCommand _ _ _ _) as [[[[actor' es] h] n']|] eqn:Ep; [|apply framed_refl].
  eapply commit_frame; eauto.
Qed.

(** ** The chain of deletes *)

Lemma exec_delete_chain b bs k v0 id p :
  actors p !! b = Some (breakpoint_actor id None) ->
  exec (delete_chain (b :: bs) k v0) p
  = ({| actors := <[b := breakpoint_actor id
                          (Some (delete_request id (length (capabilities p))))]> (actors p);
        _map := <[id := b]> (_map p);
        capabilities := capabilities p ++ [None];
        log := log p ++ [(b, NewRequest (delete_request id (length (capabilities p))));
                         (b, RelayRequest (delete_request id (length (capabilities p))))] |},
     waiting_delete b (length (capabilities p)) bs k).
Proof.
  intros Ha. cbn [delete_chain]. unfold executeOnce, remove, request, bind.
  simpl. unfold addActor. rewrite Ha. simpl. rewrite Ha. simpl.
  unfold commit. simpl. rewrite succ_minus. simpl.
  rewrite lookup_app_r by lia. rewrite Nat.sub_diag. simpl. reflexivity.
Qed.

Lemma resting_start a0 b id rest k v0 p :
  resting a0 b (id :: rest) p ->
  exists p1,
    exec (delete_chain (seq b (S (length rest))) k v0) p
    = (p1, waiting_delete b (length (capabilities p)) (seq (S b) (length rest)) k)
    /\ removing a0 b id rest (length (capabilities p)) p1
    /\ effects_from a0 p1
       = effects_from a0 p
         ++ [NewRequest (delete_request id (length (capabilities p)));
             RelayRequest (delete_request id (length (capabilities p)))].
Proof.
  intros (Hb & Hact & Hold & Hok).
  pose proof (Hact 0 id eq_refl) as Ha. rewrite Nat.add_0_r in Ha.
  assert (Hlt : b < length (actors p)) by (eapply lookup_lt_Some; eassumption).
  eexists. split; [cbn [seq]; apply (exec_delete_chain _ _ _ _ _ _ Ha)|].
  split.
  - unfold removing. simpl. split; [exact Hb|].
    split; [|split; [|split; [|split; [|split; [|split]]]]].
    + now apply list_lookup_insert_eq.
    + intros i id' Hi. rewrite list_lookup_insert_ne by lia.
      specialize (Hact (S i) id' Hi). now replace (b + S i) with (S (b + i)) in Hact by lia.
    + rewrite lookup_app_r by lia. now rewrite Nat.sub_diag.
    + intros nm x Hm. destruct (decide (nm = id)) as [->|Hne].
      * rewrite lookup_insert_eq in Hm. injection Hm as <-. auto.
      * rewrite lookup_insert_ne in Hm by congruence. left. eapply Hold; eassumption.
    + intros x actor Hx Hx' c Hin. simpl in Hx'.
      rewrite list_lookup_insert_ne in Hx' by lia.
      simpl. rewrite length_app. simpl. specialize (Hok x actor Hx Hx' c Hin). lia.
    + intros x actor Hx Hx' Hin. simpl in Hx'.
      rewrite list_lookup_insert_ne in Hx' by lia.
      specialize (Hok x actor Hx Hx' _ Hin). lia.
    + apply lookup_insert_eq.
  - unfold effects_from. simpl. rewrite List.filter_app, List.map_app. simpl.
    destruct (Nat.leb_spec a0 b); [reflexivity|lia].
Qed.

Lemma removing_framed a0 b id rest c k bs p p' :
  removing a0 b id rest c p ->
  framed a0 p p' ->
  exec (waiting_delete b c bs k) p' = (p', waiting_delete b c bs k)
  /\ removing a0 b id rest c p'
  /\ effects_from a0 p' = effects_from a0 p.
Proof.
  intros (Hb & Ha & Hrest & Hc & Hm & Hok & Hav & Hid) (Fa & Fla & Fm & Fe & Fl & Fok & Fc).
  assert (Hcl : c < length (capabilities p)) by (eapply lookup_lt_Some; eassumption).
  destruct (Fc c Hcl Hav) as [Fc1 Fc2].
  split; [|split; [|exact Fe]].
  - unfold waiting_delete. simpl. now rewrite Fc1, Hc.
  - unfold removing. split; [exact Hb|].
    split; [|split; [|split; [|split; [|split; [|split]]]]].
    + rewrite Fa by lia. exact Ha.
    + intros i id' Hi. rewrite Fa by lia. eauto.
    + now rewrite Fc1.
    + now rewrite Fm.
    + auto.
    + exact Fc2.
    + now rewrite Fm.
Qed.

Lemma commit_nothing_framed a0 p a actor :
  actors p !! a = Some actor ->
  framed a0 p (commit p a actor [] (length (capabilities p))).
Proof.
  intros Ha. unfold framed, commit, effects_from, others_ok, avoids. simpl.
  rewrite Nat.sub_diag. simpl. rewrite !app_nil_r, (list_insert_id _ _ _ Ha).
  intuition eauto.
Qed.

Lemma removing_message urlHelper a0 b id rest c p body :
  removing a0 b id rest c p ->
  framed a0 p (onExecuteCommand urlHelper p body)
  \/ exists s eff,
       ((s = Fulfilled body /\ eff = Respond (delete_request id c) body)
        \/ (s = Rejected (ActorError body) /\ eff = Fail (delete_request id c) body))
       /\ onExecuteCommand urlHelper p body
          = {| actors := <[b := breakpoint_actor id None]> (actors p);
               _map := _map p;
               capabilities := <[c := Some s]> (capabilities p);
               log := log p ++ [(b, eff)] |}.
Proof.
  intros (Hb & Ha & Hrest & Hc & Hm & Hok & Hav & Hid).
  destruct (_map p !! ToString (get body "from")) as [x|] eqn:Em.
  2:{ left. apply onExecuteCommand_frame. intros x Hx. congruence. }
  destruct (Hm _ _ Em) as [Hx|[-> Hnm]].
  { left. apply onExecuteCommand_frame. intros x' Hx'. rewrite Em in Hx'.
    injection Hx' as <-. exact Hx. }
  unfold onExecuteCommand. rewrite Em, Ha.
  destruct (_ || _); [left; apply framed_refl|].
  unfold processCommand. simpl class. cbv iota.
  unfold Actor_processCommand.
  destruct (nullish body); [left; apply framed_refl|].
  destruct (truthy (get body "type")).
  { simpl. left. now apply commit_nothing_framed. }
  destruct (truthy (get body "error")).
  - right. exists (Rejected (ActorError body)), (Fail (delete_request id c) body).
    split; [right; auto|].
    unfold commit. simpl. rewrite Nat.sub_diag. simpl. rewrite app_nil_r.
    unfold settle_in. rewrite Hc. reflexivity.
  - right. exists (Fulfilled body), (Respond (delete_request id c) body).
    split; [left; auto|].
    unfold commit. simpl. rewrite Nat.sub_diag. simpl. rewrite app_nil_r.
    unfold settle_in. rewrite Hc. reflexivity.
Qed.

Lemma exec_Then_fulfilled c f g p v :
  capabilities p !! c = Some (Some (Fulfilled v)) ->
  exec (Then c f g) p = exec (f v) p.
Proof. intros H. simpl. now rewrite H. Qed.

Lemma exec_Then_rejected c f g p r :
  capabilities p !! c = Some (Some (Rejected r)) ->
  exec (Then c f g) p = exec (g r) p.
Proof. intros H. simpl. now rewrite H. Qed.

Lemma removing_fulfilled a0 b id rest c k p v :
  removing a0 b id rest c p ->
  exists p',
    exec (waiting_delete b c (seq (S b) (length rest)) k)
      {| actors := <[b := breakpoint_actor id None]> (actors p);
         _map := _map p;
         capabilities := <[c := Some (Fulfilled v)]> (capabilities p);
         log := log p ++ [(b, Respond (delete_request id c) v)] |}
    = exec (delete_chain (seq (S b) (length rest)) k v) p'
    /\ resting a0 (S b) rest p'
    /\ effects_from a0 p' = effects_from a0 p ++ [Respond (delete_request id c) v].
Proof.
  intros Hrem.
  destruct Hrem as (Hb & Ha & Hrest & Hc & Hm & Hok & Hav & Hid).
  assert (Hlt : b < length (actors p)) by (eapply lookup_lt_Some; eassumption).
  assert (Hcl : c < length (capabilities p)) by (eapply lookup_lt_Some; eassumption).
  set (p1 := {| actors := _ |}).
  assert (Ha1 : actors p1 !! b = Some (breakpoint_actor id None))
    by (unfold p1; simpl; now apply list_lookup_insert_eq).
  assert (Hc1 : capabilities p1 !! c = Some (Some (Fulfilled v)))
    by (unfold p1; simpl; now apply list_lookup_insert_eq).
  exists (removeActor p1 b). split; [|split].
  - unfold waiting_delete. rewrite (exec_Then_fulfilled _ _ _ _ _ Hc1). reflexivity.
  - split; [lia|]. split; [|split].
    + intros i id' Hi. unfold removeActor. rewrite Ha1. simpl.
      rewrite list_lookup_insert_ne by lia. apply (Hrest i id' Hi).
    + unfold removeActor. rewrite Ha1. intros nm x Hx. simpl in Hx.
      destruct (decide (nm = id)) as [->|Hne].
      * now rewrite lookup_delete_eq in Hx.
      * rewrite lookup_delete_ne in Hx by congruence.
        destruct (Hm _ _ Hx) as [?|[? ?]]; [assumption|congruence].
    + intros x actor Hx Hx' c' Hin. unfold removeActor in *. rewrite Ha1 in *.
      simpl in *. rewrite list_lookup_insert_ne in Hx' by lia.
      rewrite length_insert. eapply Hok; eassumption.
  - unfold removeActor. rewrite Ha1. unfold effects_from. simpl.
    rewrite List.filter_app, List.map_app. simpl.
    destruct (Nat.leb_spec a0 b); [reflexivity|lia].
Qed.

Lemma removing_receive urlHelper a0 b id rest c k p body :
  removing a0 b id rest c p ->
  (exists p',
     receive urlHelper (p, waiting_delete b c (seq (S b) (length rest)) k) body
     = (p', waiting_delete b c (seq (S b) (length rest)) k)
     /\ removing a0 b id rest c p'
     /\ effects_from a0 p' = effects_from a0 p)
  \/ (exists p',
        receive urlHelper (p, waiting_delete b c (seq (S b) (length rest)) k) body
        = exec (delete_chain (seq (S b) (length rest)) k body) p'
        /\ resting a0 (S b) rest p'
        /\ effects_from a0 p'
           = effects_from a0 p ++ [Respond (delete_request id c) body])
  \/ (exists p',
        receive urlHelper (p, waiting_delete b c (seq (S b) (length rest)) k) body
        = (p', Throw (ActorError body))
        /\ old_only a0 p'
        /\ effects_from a0 p'
           = effects_from a0 p ++ [Fail (delete_request id c) body]).
Proof.
  intros Hrem. unfold receive. cbn [fst snd].
  destruct (removing_message urlHelper _ _ _ _ _ _ body Hrem)
    as [Hf|(s & eff & [[-> ->]|[-> ->]] & ->)].
  { left. eexists. eapply removing_framed; eassumption. }
  { right. left. now apply removing_fulfilled. }
  right. right.
  destruct Hrem as (Hb & Ha & Hrest & Hc & Hm & Hok & Hav & Hid).
  assert (Hlt : b < length (actors p)) by (eapply lookup_lt_Some; eassumption).
  assert (Hcl : c < length (capabilities p)) by (eapply lookup_lt_Some; eassumption).
  set (p1 := {| actors := _ |}).
  assert (Ha1 : actors p1 !! b = Some (breakpoint_actor id None))
    by (unfold p1; simpl; now apply list_lookup_insert_eq).
  assert (Hc1 : capabilities p1 !! c = Some (Some (Rejected (ActorError body))))
    by (unfold p1; simpl; now apply list_lookup_insert_eq).
  exists (removeActor p1 b). split; [|split].
  - unfold waiting_delete. rewrite (exec_Then_rejected _ _ _ _ _ Hc1). reflexivity.
  - unfold removeActor. rewrite Ha1. intros nm x Hx. simpl in Hx.
    destruct (decide (nm = id)) as [->|Hne].
    + now rewrite lookup_delete_eq in Hx.
    + rewrite lookup_delete_ne in Hx by congruence.
      destruct (Hm _ _ Hx) as [?|[? ?]]; [assumption|congruence].
  - unfold removeActor. rewrite Ha1. unfold effects_from. simpl.
    rewrite List.filter_app, List.map_app. simpl.
    destruct (Nat.leb_spec a0 b); [reflexivity|lia].
Qed.

(** ** The trace of a removal *)

Lemma removal_app ids1 l1 ids2 l2 s :
  removal ids1 l1 Removed -> removal ids2 l2 s ->
  removal (ids1 ++ ids2) (l1 ++ l2) s.
Proof.
  intros H1 H2. remember Removed as s1 eqn:Es.
  induction H1; try discriminate; simpl; [exact H2|].
  apply removal_next. auto.
Qed.

Lemma removal_snoc ids l id c v :
  removal ids l Removed ->
  removal (ids ++ [id])
    (l ++ [NewRequest (delete_request id c); RelayRequest (delete_request id c);
           Respond (delete_request id c) v]) Removed.
Proof.
  intros H. apply removal_app; [exact H|]. apply removal_next, removal_nil.
Qed.

Lemma chain_enter a0 done l_done rest k v p :
  removal done l_done Removed ->
  resting a0 (a0 + length done) rest p ->
  effects_from a0 p = l_done ->
  let cfg := exec (delete_chain (seq (a0 + length done) (length rest)) k v) p in
  chain_in_flight a0 (done ++ rest) k cfg \/ chain_done a0 (done ++ rest) k cfg.
Proof.
  intros Hd Hrest He cfg. destruct rest as [|id rest].
  - right. exists v, p. rewrite app_nil_r in *. destruct Hrest as (_ & _ & Ho & Hok).
    rewrite He. auto.
  - left. destruct (resting_start _ _ _ _ k v _ Hrest) as (p1 & E & Hr & He1).
    exists done, l_done, id, rest, (length (capabilities p)).
    unfold cfg. cbn [length]. rewrite E. simpl. rewrite He1, He. auto.
Qed.

Lemma chain_receive urlHelper a0 ids k cfg body :
  chain_in_flight a0 ids k cfg ->
  chain_in_flight a0 ids k (receive urlHelper cfg body)
  \/ chain_failed a0 ids (receive urlHelper cfg body)
  \/ chain_done a0 ids k (receive urlHelper cfg body).
Proof.
  intros (done & l_done & id & rest & c & -> & Hd & Ht & Hr & He).
  destruct cfg as [p t]. simpl in Ht, Hr, He. subst t.
  destruct (removing_receive urlHelper _ _ _ _ _ k _ body Hr)
    as [(p' & E & Hr' & He')|[(p' & E & Hr' & He')|(p' & E & Ho & He')]]; rewrite E.
  - left. exists done, l_done, id, rest, c. simpl. rewrite He', He. auto.
  - replace (done ++ id :: rest) with ((done ++ [id]) ++ rest)
      by (rewrite <- app_assoc; reflexivity).
    assert (El : S (a0 + length done) = a0 + length (done ++ [id]))
      by (rewrite length_app; simpl; lia).
    rewrite El in *.
    destruct (chain_enter a0 (done ++ [id])
                (l_done ++ [NewRequest (delete_request id c);
                            RelayRequest (delete_request id c);
                            Respond (delete_request id c) body]) rest k body p')
      as [H|H]; auto.
    + now apply removal_snoc.
    + rewrite He', He, <- app_assoc. reflexivity.
  - right. left. exists done, l_done, id, rest, c, body. simpl.
    rewrite He', He, <- app_assoc. auto.
Qed.

Lemma settled_receive urlHelper a0 p t body :
  is_settled t = true ->
  old_only a0 p ->
  exists p',
    receive urlHelper (p, t) body = (p', t)
    /\ old_only a0 p'
    /\ effects_from a0 p' = effects_from a0 p.
Proof.
  intros Ht Ho. exists (onExecuteCommand urlHelper p body).
  destruct (onExecuteCommand_frame urlHelper a0 p body) as (_ & _ & Fm & Fe & _).
  { intros x Hx. eapply Ho; eassumption. }
  split; [|split; [|exact Fe]].
  - unfold receive. simpl. destruct t; try discriminate; reflexivity.
  - intros nm x Hx. rewrite Fm in Hx. eapply Ho; eassumption.
Qed.

Lemma chain_failed_receive urlHelper a0 ids cfg body :
  chain_failed a0 ids cfg -> chain_failed a0 ids (receive urlHelper cfg body).
Proof.
  intros (done & l_done & id & rest & c & e & -> & Hd & Ht & Ho & He).
  destruct cfg as [p t]. simpl in Ht, Ho, He. subst t.
  destruct (settled_receive urlHelper a0 p (Throw (ActorError e)) body eq_refl Ho)
    as (p' & E & Ho' & He').
  rewrite E. exists done, l_done, id, rest, c, e. simpl. rewrite He', He. auto.
Qed.

(** ** The trace only grows *)

Lemma grows_refl a0 p : grows a0 p p.
Proof. unfold grows. reflexivity. Qed.

Lemma grows_trans a0 p1 p2 p3 : grows a0 p1 p2 -> grows a0 p2 p3 -> grows a0 p1 p3.
Proof. unfold grows. intros H1 H2. etransitivity; eassumption. Qed.

Lemma commit_grows a0 p a actor es n : grows a0 p (commit p a actor es n).
Proof. unfold grows. rewrite effects_from_commit. now apply prefix_app_r. Qed.

Lemma onExecuteCommand_grows urlHelper a0 p body :
  grows a0 p (onExecuteCommand urlHelper p body).
Proof.
  unfold onExecuteCommand. repeat case_match; try apply grows_refl. apply commit_grows.
Qed.

Lemma addActor_grows a0 p a : grows a0 p (addActor p a).
Proof. unfold addActor, grows. destruct (actors p !! a); reflexivity. Qed.

Lemma removeActor_grows a0 p a : grows a0 p (removeActor p a).
Proof. unfold removeActor, grows. destruct (actors p !! a); reflexivity. Qed.

Lemma newActor_grows a0 p c nm : grows a0 p (newActor p c nm).
Proof.
  unfold newActor. destruct (construct c nm _) as [[actor es] next].
  eapply grows_trans; [|apply commit_grows]. unfold grows. reflexivity.
Qed.

Lemma exec_grows a0 t : forall p, grows a0 p (fst (exec t p)).
Proof.
  induction t as [v|r|c nm k IH|a k IH|a k IH|a body k IH|c f IHf g IHg|ts k h IHts IHk IHh]
    using async_ind_all; intros p.
  - apply grows_refl.
  - apply grows_refl.
  - simpl. eapply grows_trans; [|apply IH]. apply newActor_grows.
  - simpl. eapply grows_trans; [|apply IH]. apply addActor_grows.
  - simpl. eapply grows_trans; [|apply IH]. apply removeActor_grows.
  - simpl. destruct (actors p !! a) as [actor|] eqn:Ha; [|apply grows_refl].
    destruct (sendRequest _ _ _) as [[actor' es] next].
    eapply grows_trans; [|apply IH]. apply commit_grows.
  - simpl. destruct (capabilities p !! c) as [[[v|r]|]|]; auto using grows_refl.
  - rewrite exec_All.
    assert (Hall : grows a0 p (fst (exec_all ts p))).
    { clear -IHts. revert p. induction IHts as [|t ts Ht _ IH]; intros p; simpl.
      - apply grows_refl.
      - specialize (Ht p). destruct (exec t p) as [p1 t1].
        specialize (IH p1). destruct (exec_all ts p1) as [p2 ts2].
        eapply grows_trans; eassumption. }
    destruct (exec_all ts p) as [p' ts'].
    destruct (thrown ts') as [r|]; [eapply grows_trans; [exact Hall|apply IHh]|].
    destruct (returned ts') as [vs|]; [eapply grows_trans; [exact Hall|apply IHk]|].
    exact Hall.
Qed.

Lemma receive_grows urlHelper a0 cfg body :
  grows a0 (fst cfg) (fst (receive urlHelper cfg body)).
Proof.
  unfold receive. eapply grows_trans; [|apply exec_grows]. apply onExecuteCommand_grows.
Qed.

(** ** [removeBreakpoints] *)

Lemma then_Return_Throw t : then_ t Return Throw = t.
Proof.
  induction t; simpl; try reflexivity; f_equal;
    try (apply functional_extensionality; intros); auto.
Qed.

Lemma created_resting p ids :
  well_formed p ->
  resting (length (actors p)) (length (actors p)) ids (created p ids)
  /\ effects_from (length (actors p)) (created p ids) = [].
Proof.
  intros (Ho & Hok & He). split; [|exact He].
  split; [lia|]. split; [|split].
  - intros i id Hi. unfold created. simpl.
    rewrite lookup_app_r by lia.
    replace (length (actors p) + i - length (actors p)) with i by lia.
    change (List.map (fun id => breakpoint_actor id None) ids)
      with ((fun id => breakpoint_actor id None) <$> ids).
    now rewrite list_lookup_fmap, Hi.
  - exact Ho.
  - intros x actor Hx Ha c Hc. unfold created in Ha. simpl in Ha.
    rewrite lookup_app_l in Ha by exact Hx. eapply Hok; eassumption.
Qed.

Lemma exec_removeBreakpoints ids k p :
  exec (bind (removeBreakpoints ids) k) p
  = exec (delete_chain (seq (length (actors p)) (length ids)) k undefined)
      (created p ids).
Proof. unfold removeBreakpoints. now rewrite exec_forEach. Qed.

Lemma removeBreakpoints_enter ids k p :
  well_formed p ->
  chain_in_flight (length (actors p)) ids k (exec (bind (removeBreakpoints ids) k) p)
  \/ chain_done (length (actors p)) ids k (exec (bind (removeBreakpoints ids) k) p).
Proof.
  intros Hwf. rewrite exec_removeBreakpoints.
  destruct (created_resting p ids Hwf) as [Hr He].
  pose proof (chain_enter (length (actors p)) [] [] ids k undefined (created p ids)
                removal_nil) as H.
  simpl in H. rewrite Nat.add_0_r in H. apply H; assumption.
Qed.

Lemma chain_done_Return a0 ids cfg :
  chain_done a0 ids Return cfg -> chain_removed a0 ids cfg.
Proof. intros (v & p & -> & Hr & Ho). split; [exists v; reflexivity|]. auto. Qed.

Lemma chain_removed_receive urlHelper a0 ids cfg body :
  chain_removed a0 ids cfg -> chain_removed a0 ids (receive urlHelper cfg body).
Proof.
  intros ((v & Hv) & Hr & Ho). destruct cfg as [p t]. simpl in *. subst t.
  destruct (settled_receive urlHelper a0 p (Return v) body eq_refl Ho)
    as (p' & E & Ho' & He').
  rewrite E. split; [exists v; reflexivity|]. simpl. rewrite He'. auto.
Qed.

Lemma removing_run urlHelper a0 ids bodies : forall cfg,
  chain_in_flight a0 ids Return cfg \/ chain_failed a0 ids cfg \/ chain_removed a0 ids cfg ->
  let cfg' := run urlHelper cfg bodies in
  chain_in_flight a0 ids Return cfg' \/ chain_failed a0 ids cfg' \/ chain_removed a0 ids cfg'.
Proof.
  induction bodies as [|body bodies IH]; intros cfg H; [exact H|].
  simpl. apply IH. destruct H as [H|[H|H]].
  - destruct (chain_receive urlHelper _ _ _ _ body H) as [H'|[H'|H']]; auto.
    right. right. now apply chain_done_Return.
  - right. left. now apply chain_failed_receive.
  - right. right. now apply chain_removed_receive.
Qed.

Lemma chain_in_flight_trace a0 ids k cfg :
  chain_in_flight a0 ids k cfg ->
  removal ids (effects_from a0 (fst cfg)) InFlight /\ is_settled (snd cfg) = false.
Proof.
  intros (done & l_done & id & rest & c & -> & Hd & Ht & Hr & He).
  rewrite He, Ht. split; [|reflexivity].
  apply removal_app; [exact Hd|apply removal_in_flight].
Qed.

Lemma chain_failed_trace a0 ids cfg :
  chain_failed a0 ids cfg ->
  exists e, removal ids (effects_from a0 (fst cfg)) (Failed e)
            /\ snd cfg = Throw (ActorError e).
Proof.
  intros (done & l_done & id & rest & c & e & -> & Hd & Ht & Ho & He).
  exists e. rewrite He, Ht. split; [|reflexivity].
  apply removal_app; [exact Hd|apply removal_failed].
Qed.

Lemma removeBreakpoints_trace urlHelper ids p0 bodies :
  well_formed p0 ->
  let cfg := run urlHelper (exec (removeBreakpoints ids) p0) bodies in
  exists s, removal ids (effects_from (length (actors p0)) (fst cfg)) s
            /\ settlement s (snd cfg).
Proof.
  intros Hwf cfg.
  assert (H : chain_in_flight (length (actors p0)) ids Return cfg
              \/ chain_failed (length (actors p0)) ids cfg
              \/ chain_removed (length (actors p0)) ids cfg).
  { apply removing_run. rewrite <- (then_Return_Throw (removeBreakpoints ids)).
    destruct (removeBreakpoints_enter ids Return p0 Hwf) as [H|H]; auto.
    right. right. now apply chain_done_Return. }
  destruct H as [H|[H|H]].
  - exists InFlight. now apply chain_in_flight_trace in H.
  - apply chain_failed_trace in H as (e & H1 & H2). exists (Failed e). auto.
  - destruct H as (Hv & Hr & _). exists Removed. auto.
Qed.

(** ** Every delete answered *)

Lemma removing_reply urlHelper a0 b id rest c p reply :
  id <> "" ->
  removing a0 b id rest c p ->
  is_response_from id reply ->
  onExecuteCommand urlHelper p reply
  = {| actors := <[b := breakpoint_actor id None]> (actors p);
       _map := _map p;
       capabilities := <[c := Some (Fulfilled reply)]> (capabilities p);
       log := log p ++ [(b, Respond (delete_request id c) reply)] |}.
Proof.
  intros Hnm (Hb & Ha & Hrest & Hc & Hm & Hok & Hav & Hid) [Hr He].
  unfold is_reply_from in Hr. apply andb_prop in Hr as [Hfrom Htype].
  apply negb_true_iff in Htype.
  destruct reply as [| | | | | |fields]; try discriminate.
  simpl in Hfrom, Htype, He.
  destruct (lookup_field fields "from") as [| | | |from| |] eqn:Ef; try discriminate.
  simpl in Hfrom. apply bool_decide_eq_true in Hfrom. subst from.
  unfold onExecuteCommand. simpl. rewrite Ef. simpl.
  rewrite (bool_decide_eq_false_2 _ Hnm). simpl.
  rewrite Hid, Ha. unfold processCommand. simpl class. cbv iota.
  unfold Actor_processCommand. simpl nullish. cbv iota.
  simpl get. rewrite Htype, He.
  unfold commit. simpl. rewrite Nat.sub_diag. simpl. rewrite app_nil_r.
  unfold settle_in. rewrite Hc. reflexivity.
Qed.

Lemma run_cons urlHelper cfg body bodies :
  run urlHelper cfg (body :: bodies) = run urlHelper (receive urlHelper cfg body) bodies.
Proof. reflexivity. Qed.

Lemma chain_replies urlHelper a0 k : forall rest done l_done id c p replies,
  Forall (fun id => id <> "") (id :: rest) ->
  removal done l_done Removed ->
  removing a0 (a0 + length done) id rest c p ->
  effects_from a0 p
  = l_done ++ [NewRequest (delete_request id c); RelayRequest (delete_request id c)] ->
  Forall2 is_response_from (id :: rest) replies ->
  chain_done a0 (done ++ id :: rest) k
    (run urlHelper
       (p, waiting_delete (a0 + length done) c
             (seq (S (a0 + length done)) (length rest)) k) replies).
Proof.
  induction rest as [|id' rest IH]; intros done l_done id c p replies Hne Hd Hr He Hrep.
  - apply Forall2_cons_inv_l in Hrep as (reply & replies' & Hreply & Hnil & ->).
    apply Forall2_nil_inv_l in Hnil as ->.
    apply Forall_cons in Hne as [Hid _].
    rewrite run_cons. unfold receive. cbn [fst snd].
    rewrite (removing_reply urlHelper _ _ _ _ _ _ _ Hid Hr Hreply).
    destruct (removing_fulfilled _ _ _ _ _ k _ reply Hr) as (p' & E & Hrest & He').
    rewrite E. simpl. exists reply, p'. split; [reflexivity|]. split.
    + rewrite He', He, <- app_assoc. simpl. now apply removal_snoc.
    + apply Hrest.
  - apply Forall2_cons_inv_l in Hrep as (reply & replies' & Hreply & Hrep & ->).
    apply Forall_cons in Hne as [Hid Hne].
    rewrite run_cons. unfold receive at 1. cbn [fst snd].
    rewrite (removing_reply urlHelper _ _ _ _ _ _ _ Hid Hr Hreply).
    destruct (removing_fulfilled _ _ _ _ _ k _ reply Hr) as (p' & E & Hrest & He').
    rewrite E.
    destruct (resting_start _ _ _ _ k reply _ Hrest) as (p2 & E2 & Hr2 & He2).
    cbn [length] in *. rewrite E2.
    replace (done ++ id :: id' :: rest) with ((done ++ [id]) ++ id' :: rest)
      by (rewrite <- app_assoc; reflexivity).
    assert (El : S (a0 + length done) = a0 + length (done ++ [id]))
      by (rewrite length_app; simpl; lia).
    rewrite El in *.
    apply (IH (done ++ [id])
             (l_done ++ [NewRequest (delete_request id c);
                         RelayRequest (delete_request id c);
                         Respond (delete_request id c) reply])); auto.
    + now apply removal_snoc.
    + rewrite He2, He', He, <- !app_assoc. reflexivity.
Qed.

Lemma removeBreakpoints_complete urlHelper ids replies p0 :
  well_formed p0 ->
  Forall (fun id => id <> "") ids ->
  Forall2 is_response_from ids replies ->
  chain_removed (length (actors p0)) ids
    (run urlHelper (exec (removeBreakpoints ids) p0) replies).
Proof.
  intros Hwf Hne Hrep. apply chain_done_Return.
  rewrite <- (then_Return_Throw (removeBreakpoints ids)).
  change (then_ (removeBreakpoints ids) Return Throw)
    with (bind (removeBreakpoints ids) Return).
  rewrite exec_removeBreakpoints.
  destruct (created_resting p0 ids Hwf) as [Hr He].
  destruct ids as [|id rest].
  - apply Forall2_nil_inv_l in Hrep as ->. simpl.
    exists undefined, (created p0 []). split; [reflexivity|].
    rewrite He. split; [apply removal_nil|apply Hr].
  - destruct (resting_start _ _ _ _ Return undefined _ Hr) as (p1 & E & Hr1 & He1).
    cbn [length]. rewrite E.
    pose proof (chain_replies urlHelper (length (actors p0)) Return rest [] [] id
                  (length (capabilities (created p0 (id :: rest)))) p1 replies Hne
                  removal_nil) as H.
    simpl in H. rewrite Nat.add_0_r in H. apply H; auto.
    now rewrite He1, He.
Qed.

Lemma well_formed_empty : well_formed empty.
Proof.
  split; [|split; [|reflexivity]].
  - intros nm x H. simpl in H. rewrite lookup_empty in H. discriminate.
  - intros x actor Hx. simpl in Hx. lia.
Qed.

End ProtocolFacts.

(* ===================================================================== *)
(** * The debug session                                                   *)
(* ===================================================================== *)

Module DebugFacts.
Import JS UrlHelper Session Protocol Debug ProtocolFacts.

Local Open Scope string_scope.
Local Open Scope list_scope.

(** ** [setBreakPointsRequest] *)

Lemma exec_gate source gate k t1 t2 p :
  gate_child source t1 -> gate_child gate t2 ->
  (exists t1' t2',
     exec (All [t1; t2] k Throw) p = (p, All [t1'; t2'] k Throw)
     /\ gate_child source t1' /\ gate_child gate t2')
  \/ (exists r, exec (All [t1; t2] k Throw) p = (p, Throw r))
  \/ (exists vs, exec (All [t1; t2] k Throw) p = exec (k vs) p).
Proof.
  unfold gate_child.
  intros [->|[v1 ->]] [->|[v2 ->]]; rewrite exec_All; simpl;
    destruct (capabilities p !! source) as [[[?|?]|]|];
    destruct (capabilities p !! gate) as [[[?|?]|]|]; simpl;
    first [ solve [right; right; eauto]
          | solve [right; left; eauto]
          | solve [left; do 2 eexists; split; [reflexivity|]; split; eauto] ].
Qed.

Lemma chain_done_added a0 ids k cfg :
  chain_done a0 ids k cfg -> chain_added a0 ids cfg.
Proof.
  intros (v & p & -> & Hr & Ho).
  destruct (exec_grows a0 (k v) p) as [l Hl].
  exists (effects_from a0 p), l. auto.
Qed.

Lemma well_formed_framed p p' :
  well_formed p -> framed (length (actors p)) p p' -> well_formed p'.
Proof.
  intros (Ho & Hok & He) (Fa & Fla & Fm & Fe & Fl & Fok & Fc).
  unfold well_formed. rewrite Fla. split; [|split].
  - intros nm x Hx. rewrite Fm in Hx. eapply Ho; eassumption.
  - auto.
  - now rewrite Fe.
Qed.

Lemma setBreakPoints_eq source gate old lines :
  setBreakPoints source gate old lines
  = All [Then source Return Throw; Then gate Return Throw] (behind_gate old lines) Throw.
Proof. reflexivity. Qed.

Lemma gate_open old lines vs p :
  well_formed p ->
  (exists k', chain_in_flight (length (actors p)) (old_ids old) k'
                (exec (behind_gate old lines vs) p))
  \/ chain_added (length (actors p)) (old_ids old) (exec (behind_gate old lines vs) p).
Proof.
  intros Hwf.
  assert (Hnone : forall t, chain_added (length (actors p)) [] (exec t p)).
  { intros t. destruct (exec_grows (length (actors p)) t p) as [l Hl].
    destruct Hwf as (_ & _ & He). rewrite He in Hl.
    exists [], l. split; [exact Hl|apply removal_nil]. }
  unfold behind_gate. destruct old as [[|id ids]|]; simpl old_ids.
  - right. apply Hnone.
  - destruct (removeBreakpoints_enter (id :: ids)
                (fun _ => addBreakpoints (ToString (List.nth 0 vs undefined)) lines) p Hwf)
      as [H|H].
    + left. eexists. exact H.
    + right. eapply chain_done_added. exact H.
  - right. apply Hnone.
Qed.

Lemma setting_gate source gate old lines t1 t2 p :
  gate_child source t1 -> gate_child gate t2 ->
  well_formed p ->
  setting (length (actors p)) source gate (old_ids old) (behind_gate old lines)
    (exec (All [t1; t2] (behind_gate old lines) Throw) p).
Proof.
  intros H1 H2 Hwf.
  destruct (exec_gate source gate (behind_gate old lines) t1 t2 p H1 H2)
    as [(t1' & t2' & E & H1' & H2')|[(r & E)|(vs & E)]]; rewrite E.
  - left. exists t1', t2'. auto.
  - right. left. destruct Hwf as (Ho & _ & He). split; [reflexivity|]. auto.
  - destruct (gate_open old lines vs p Hwf) as [H|H].
    + right. right. left. exact H.
    + right. right. right. right. exact H.
Qed.

Lemma setting_receive urlHelper a0 source gate old lines cfg body :
  setting a0 source gate (old_ids old) (behind_gate old lines) cfg ->
  setting a0 source gate (old_ids old) (behind_gate old lines)
    (receive urlHelper cfg body).
Proof.
  intros [H|[H|[H|[H|H]]]].
  - destruct H as (t1 & t2 & H1 & H2 & Ht & Hwf & Hl). destruct cfg as [p t].
    simpl in *. subst t a0. unfold receive. simpl.
    assert (F : framed (length (actors p)) p (onExecuteCommand urlHelper p body)).
    { apply onExecuteCommand_frame. intros x Hx. destruct Hwf as (Ho & _). eapply Ho; eassumption. }
    pose proof (well_formed_framed _ _ Hwf F) as Hwf'.
    destruct F as (_ & Fla & _). rewrite <- Fla.
    now apply setting_gate.
  - right. left. destruct H as (Ht & Ho & He). destruct cfg as [p t]. simpl in *.
    destruct (settled_receive urlHelper a0 p t body Ht Ho) as (p' & E & Ho' & He').
    rewrite E. split; [exact Ht|]. simpl. rewrite He', He. auto.
  - destruct H as (k' & H).
    destruct (chain_receive urlHelper _ _ _ _ body H) as [H'|[H'|H']].
    + right. right. left. eexists. exact H'.
    + right. right. right. left. exact H'.
    + right. right. right. right. eapply chain_done_added. exact H'.
  - right. right. right. left. now apply chain_failed_receive.
  - right. right. right. right. destruct H as (l_rem & l_add & He & Hr).
    destruct (receive_grows urlHelper a0 cfg body) as [l Hl].
    exists l_rem, (l_add ++ l). rewrite Hl, He, <- app_assoc. auto.
Qed.

Lemma setting_run urlHelper a0 source gate old lines bodies : forall cfg,
  setting a0 source gate (old_ids old) (behind_gate old lines) cfg ->
  setting a0 source gate (old_ids old) (behind_gate old lines)
    (run urlHelper cfg bodies).
Proof.
  induction bodies as [|body bodies IH]; intros cfg H; [exact H|].
  simpl. apply IH. now apply setting_receive.
Qed.

Lemma removal_deletes ids l s :
  removal ids l s ->
  forall r, In (RelayRequest r) l -> get (body r) "type" = str "delete".
Proof.
  induction 1; intros r Hin; simpl in Hin;
    repeat (destruct Hin as [Hin|Hin]; try discriminate; try (injection Hin as <-; reflexivity));
    auto; contradiction.
Qed.

Lemma setBreakPoints_trace urlHelper source gate old lines p0 bodies :
  well_formed p0 ->
  let cfg := run urlHelper (exec (setBreakPoints source gate old lines) p0) bodies in
  forall l1 r l2,
    effects_from (length (actors p0)) (fst cfg) = l1 ++ RelayRequest r :: l2 ->
    get (body r) "type" = str "setBreakpoint" ->
    exists l_rem l', l1 = l_rem ++ l' /\ removal (old_ids old) l_rem Removed.
Proof.
  intros Hwf cfg l1 r l2 He Hty.
  assert (H : setting (length (actors p0)) source gate (old_ids old) (behind_gate old lines) cfg).
  { apply setting_run. rewrite setBreakPoints_eq.
    apply setting_gate; unfold gate_child; auto. }
  assert (Hno : forall s, ~ removal (old_ids old) (l1 ++ RelayRequest r :: l2) s).
  { intros s Hr. pose proof (removal_deletes _ _ _ Hr r) as Hd.
    rewrite Hd in Hty; [discriminate|]. apply in_app_iff. right. now left. }
  destruct H as [H|[H|[H|[H|H]]]].
  - destruct H as (t1 & t2 & _ & _ & _ & (_ & _ & He') & Hl).
    rewrite Hl, He in He'. now destruct l1.
  - destruct H as (_ & _ & He'). rewrite He in He'. now destruct l1.
  - destruct H as (k' & H). apply chain_in_flight_trace in H as [H _].
    rewrite He in H. now apply Hno in H.
  - apply chain_failed_trace in H as (e & H & _). rewrite He in H. now apply Hno in H.
  - destruct H as (l_rem & l_add & He' & Hr). rewrite He in He'.
    apply app_eq_app in He' as [l [[-> E]|[-> E]]].
    + exists l_rem, l. auto.
    + destruct l as [|x l].
      * exists l1, []. rewrite !app_nil_r in *. auto.
      * simpl in E. injection E as <- _.
        pose proof (removal_deletes _ _ _ Hr r) as Hd.
        rewrite Hd in Hty; [discriminate|]. apply in_app_iff. right. now left.
Qed.

(** C5, as the code has it.  From any well-formed state of the protocol
    [p0], whatever messages arrive:

    - the trace of [removeBreakpoints(ids)] is a sequential removal of
      [ids]: the deletes go out one at a time, to one fresh [Breakpoint]
      object per id, in the order of [ids], each created and relayed only
      after the response to the delete before it; an error answering a
      delete rejects the promise with that error and no later delete is
      issued;
    - when every delete is answered by a response, the trace holds
      exactly one delete per id and the promise is fulfilled;
    - in the chain of [setBreakPointsRequest], every [setBreakpoint]
      request relayed comes after the complete trace of the removal of
      the old ids, each of their deletes answered by its response. *)
Theorem removals_precede_adds urlHelper p0 :
  well_formed p0 ->
  let a0 := length (actors p0) in
  (forall ids bodies,
     let cfg := run urlHelper (exec (removeBreakpoints ids) p0) bodies in
     exists s, removal ids (effects_from a0 (fst cfg)) s /\ settlement s (snd cfg))
  /\ (forall ids replies,
        Forall (fun id => id <> "") ids ->
        Forall2 is_response_from ids replies ->
        let cfg := run urlHelper (exec (removeBreakpoints ids) p0) replies in
        removal ids (effects_from a0 (fst cfg)) Removed
        /\ settlement Removed (snd cfg))
  /\ (forall source gate oldBreakpointsIds lines bodies,
        let cfg :=
          run urlHelper (exec (setBreakPoints source gate oldBreakpointsIds lines) p0)
            bodies in
        forall l1 r l2,
          effects_from a0 (fst cfg) = l1 ++ RelayRequest r :: l2 ->
          get (body r) "type" = str "setBreakpoint" ->
          exists l_rem l',
            l1 = l_rem ++ l' /\ removal (old_ids oldBreakpointsIds) l_rem Removed).
Proof.
  intros Hwf a0. split; [|split].
  - intros ids bodies. now apply removeBreakpoints_trace.
  - intros ids replies Hne Hrep cfg.
    destruct (removeBreakpoints_complete urlHelper ids replies p0 Hwf Hne Hrep)
      as (Hv & Hr & _).
    split; assumption.
  - intros source gate old lines bodies. now apply setBreakPoints_trace.
Qed.

(** Two old breakpoints, each delete answered by its response: one
    delete per id, in order. *)
Lemma removals_precede_adds_witness :
  removal ["bp1"; "bp2"]
    (effects_from 0
       (fst (run LocalURLHelper (exec (removeBreakpoints ["bp1"; "bp2"]) empty)
               [object [("from", str "bp1")]; object [("from", str "bp2")]])))
    Removed
  /\ settlement Removed
       (snd (run LocalURLHelper (exec (removeBreakpoints ["bp1"; "bp2"]) empty)
               [object [("from", str "bp1")]; object [("from", str "bp2")]])).
Proof.
  apply (proj1 (proj2 (removals_precede_adds LocalURLHelper empty well_formed_empty))
           ["bp1"; "bp2"]
           [object [("from", str "bp1")]; object [("from", str "bp2")]]).
  - repeat constructor; discriminate.
  - repeat constructor.
Defined.

(** [setBreakPointsRequest] with the source known and the gate open,
    one old breakpoint and one new line: the delete, its response, and
    only then the [setBreakpoint] request. *)
Example setBreakPoints_removes_then_adds :
  effects_from 0
    (fst (run LocalURLHelper
            (exec (setBreakPoints 0 1 (Some ["bp1"]) [number 5])
               (settle (settle (allocate empty 2) 0 (Fulfilled (str "src1")))
                  1 (Fulfilled undefined)))
            [object [("from", str "bp1")];
             object [("from", str "src1"); ("actor", str "bp7")]]))
  = [NewRequest (delete_request "bp1" 2);
     RelayRequest (delete_request "bp1" 2);
     Respond (delete_request "bp1" 2) (object [("from", str "bp1")]);
     NewRequest (setBreakpoint_request "src1" 3 (number 5));
     RelayRequest (setBreakpoint_request "src1" 3 (number 5));
     Respond (setBreakpoint_request "src1" 3 (number 5))
       (object [("from", str "src1"); ("actor", str "bp7")])].
Proof. vm_compute. reflexivity. Qed.

(** C5, where the claim fails.  The delete of ["bp1"] is answered by an
    error: the promise of [removeBreakpoints] is rejected with it and no
    delete is ever sent for ["bp2"], whatever arrives later. *)
Lemma removeBreakpoints_stops_at_error :
  List.map (fun ar => get (body (snd ar)) "to")
    (sent (fst (run LocalURLHelper (exec (removeBreakpoints ["bp1"; "bp2"]) empty)
                  [object [("from", str "bp1"); ("error", str "noSuchActor")];
                   object [("from", str "bp2")];
                   object [("from", str "bp1")]])))
  = [str "bp1"]
  /\ snd (run LocalURLHelper (exec (removeBreakpoints ["bp1"; "bp2"]) empty)
            [object [("from", str "bp1"); ("error", str "noSuchActor")];
             object [("from", str "bp2")];
             object [("from", str "bp1")]])
     = Throw (ActorError (object [("from", str "bp1"); ("error", str "noSuchActor")])).
Proof. split; vm_compute; reflexivity. Qed.

(** ** Disconnecting *)

Lemma disconnectRequest_protocol d :
  protocol (fst (disconnectRequest d))
  = settle (protocol d) (_pausedCapability d) (Rejected (Thrown (str "stopping"))).
Proof. unfold disconnectRequest. repeat case_match; reflexivity. Qed.

(** With a source still waited for, the request ends in a TypeError
    before anything is sent: no event, and the session is kept. *)
Lemma disconnectRequest_pending_source d :
  _pendingSourceCapabilities d <> [] ->
  snd (disconnectRequest d) = TypeError
  /\ events (fst (disconnectRequest d)) = events d
  /\ _session (fst (disconnectRequest d)) = _session d.
Proof.
  intros H. unfold disconnectRequest. simpl.
  destruct (_pendingSourceCapabilities d); [contradiction|]. auto.
Qed.

(** C10, as the code has it.  [disconnectRequest] rejects the promise of
    [_pausedCapability], the resume gate, with ['stopping'] when it is
    unsettled, whether or not the request then runs to its end; a gate
    already settled stays as it was.  A [setBreakPointsRequest] chain that
    waits for the gate ([setBreakPoints source paused ...], whether its
    source is known already or not) is rejected with it: it ends in
    ['stopping'] and sends nothing, neither a removal nor an add.  The
    promise of an [evaluate] is a capability of its own, which
    [disconnectRequest] leaves as it was. *)
Theorem disconnect_rejects_gate_and_chain d :
  let paused := _pausedCapability d in
  let before := capabilities (protocol d) in
  let after := protocol (fst (disconnectRequest d)) in
  (before !! paused = Some None ->
   capabilities after !! paused = Some (Some (Rejected (Thrown (str "stopping"))))
   /\ forall source t1 k,
        gate_child source t1 ->
        (forall r, before !! source <> Some (Some (Rejected r))) ->
        exec (All [t1; Then paused Return Throw] k Throw) after
        = (after, Throw (Thrown (str "stopping"))))
  /\ (forall s, before !! paused = Some (Some s) ->
                capabilities after !! paused = Some (Some s))
  /\ (forall a actor e,
        actors (protocol d) !! a = Some actor ->
        _evaluateCapabilty actor = Some e ->
        e <> paused ->
        capabilities after !! e = before !! e).
Proof.
  intros paused before after.
  assert (Ea : after = settle (protocol d) paused (Rejected (Thrown (str "stopping"))))
    by apply disconnectRequest_protocol.
  assert (Ec : capabilities after = settle_in before paused (Rejected (Thrown (str "stopping"))))
    by (rewrite Ea; reflexivity).
  split; [|split].
  - intros Hp.
    assert (Hg : capabilities after !! paused
                 = Some (Some (Rejected (Thrown (str "stopping"))))).
    { rewrite Ec. unfold settle_in. rewrite Hp. apply list_lookup_insert_eq.
      eapply lookup_lt_Some; eassumption. }
    split; [exact Hg|]. intros source t1 k Ht1 Hs.
    rewrite exec_All. cbn [exec_all].
    assert (E1 : exists t1',
               exec t1 after = (after, t1')
               /\ (thrown [t1'] = None
                   \/ thrown [t1'] = Some (Thrown (str "stopping")))).
    { destruct Ht1 as [->|[v ->]]; [|eexists; split; [reflexivity|now left]].
      cbn [exec]. destruct (decide (source = paused)) as [->|Hne].
      - rewrite Hg. cbn [exec]. eexists. split; [reflexivity|now right].
      - assert (capabilities after !! source = before !! source) as ->.
        { rewrite Ec. unfold settle_in. rewrite Hp.
          apply list_lookup_insert_ne. congruence. }
        destruct (before !! source) as [[[v|r]|]|] eqn:Eb.
        + cbn [exec]. eexists. split; [reflexivity|now left].
        + exfalso. exact (Hs r eq_refl).
        + eexists. split; [reflexivity|now left].
        + eexists. split; [reflexivity|now left]. }
    destruct E1 as (t1' & -> & Ht).
    cbn [exec]. rewrite Hg. cbn [exec thrown] in *.
    destruct t1'; destruct Ht as [Ht|Ht]; try discriminate Ht; try reflexivity.
    now injection Ht as ->.
  - intros s Hp. rewrite Ec. unfold settle_in. now rewrite Hp.
  - intros a actor e _ _ Hne. rewrite Ec. unfold settle_in.
    destruct (before !! paused) as [[s|]|]; try reflexivity.
    apply list_lookup_insert_ne. congruence.
Qed.

(** A session that waits for the source of ["/srv/www/app.js"], with a
    [setBreakPointsRequest] for it behind the gate: the disconnect
    rejects the gate and the chain. *)
Lemma disconnect_rejects_gate_and_chain_witness :
  capabilities
    (protocol (fst (disconnectRequest (fst (getSourceId evaluating "/srv/www/app.js")))))
    !! 0
  = Some (Some (Rejected (Thrown (str "stopping"))))
  /\ snd (exec (setBreakPoints 4 0 None [number 3])
            (protocol (fst (disconnectRequest
                              (fst (getSourceId evaluating "/srv/www/app.js"))))))
     = Throw (Thrown (str "stopping")).
Proof.
  destruct (proj1 (disconnect_rejects_gate_and_chain
                     (fst (getSourceId evaluating "/srv/www/app.js"))) eq_refl)
    as [Hg Hc].
  split; [exact Hg|].
  exact (f_equal snd
           (Hc 4 (Then 4 Return Throw) (behind_gate None [number 3])
               (or_introl eq_refl) (fun r H => ltac:(discriminate H)))).
Defined.

(** C10, where the claim fails.  [disconnectRequest] on [evaluating]
    runs to its end; the promise of the [evaluate] under way (capability
    2, held in [_evaluateCapabilty]) and those of the actor's requests
    (1 and 3) are as unsettled after it as before. *)
Lemma disconnect_leaves_evaluate_pending :
  _evaluateCapabilty <$> actors (protocol evaluating) !! 0 = Some (Some 2)
  /\ snd (disconnectRequest evaluating) = Completed
  /\ capabilities (protocol (fst (disconnectRequest evaluating)))
     = [Some (Rejected (Thrown (str "stopping"))); None; None; None].
Proof. split; [|split]; vm_compute; reflexivity. Qed.

(** ** Source ids *)

Lemma pending_lookup_app pending path c path' :
  pending_lookup (pending ++ [(path, c)]) path'
  = match pending_lookup pending path' with
    | Some x => Some x
    | None => if bool_decide (path = path') then Some c else None
    end.
Proof.
  induction pending as [|[k x] pending IH]; simpl; [reflexivity|].
  destruct (bool_decide (k = path')); [reflexivity|exact IH].
Qed.

Lemma pending_lookup_delete pending path path' :
  pending_lookup (pending_delete pending path) path'
  = if bool_decide (path = path') then None else pending_lookup pending path'.
Proof.
  induction pending as [|[k x] pending IH]; simpl; [now destruct (bool_decide _)|].
  destruct (bool_decide (k = path)) eqn:E1.
  - apply bool_decide_eq_true in E1. subst k. rewrite IH.
    destruct (bool_decide (path = path')); reflexivity.
  - simpl. rewrite IH. apply bool_decide_eq_false in E1.
    destruct (bool_decide (k = path')) eqn:E2; [|reflexivity].
    apply bool_decide_eq_true in E2. subst k.
    now rewrite (bool_decide_eq_false_2 _ (fun H => E1 (eq_sym H))).
Qed.

Lemma sources_ok_new : sources_ok new_FirefoxDebugSession.
Proof.
  split; [|split]; intros; discriminate.
Qed.

Lemma getSourceId_known d path c :
  _sourcePromises d !! path = Some c -> getSourceId d path = (d, c).
Proof. intros H. unfold getSourceId. now rewrite H. Qed.

Lemma allocate_one caps :
  caps ++ replicate (S (length caps) - length caps) (@None Settled) = caps ++ [None].
Proof. now replace (S (length caps) - length caps) with 1 by lia. Qed.

Lemma getSourceId_ok d path :
  sources_ok d -> sources_ok (fst (getSourceId d path)).
Proof.
  intros (H1 & H2 & H3). unfold getSourceId.
  destruct (_sourcePromises d !! path) as [c|] eqn:Ep; [exact (conj H1 (conj H2 H3))|].
  assert (Hn : pending_lookup (_pendingSourceCapabilities d) path = None).
  { destruct (pending_lookup _ path) as [c|] eqn:E; [|reflexivity].
    apply H1 in E as [E _]. congruence. }
  split; [|split]; simpl; rewrite ?allocate_one.
  - intros path' c. rewrite pending_lookup_app.
    destruct (pending_lookup _ path') as [x|] eqn:E.
    + intros [= <-]. destruct (H1 _ _ E) as [Hp Hc]. split.
      * rewrite lookup_insert_ne; [exact Hp|]. intros <-. congruence.
      * rewrite lookup_app_l; [exact Hc|]. eapply lookup_lt_Some; eassumption.
    + destruct (bool_decide (path = path')) eqn:Eb; [|discriminate].
      apply bool_decide_eq_true in Eb. subst path'. intros [= <-]. split.
      * apply lookup_insert_eq.
      * rewrite lookup_app_r by lia. now rewrite Nat.sub_diag.
  - intros path1 path2 c. rewrite !pending_lookup_app.
    destruct (pending_lookup _ path1) as [x1|] eqn:E1;
      destruct (pending_lookup _ path2) as [x2|] eqn:E2.
    + intros [= <-] [= <-]. eapply H2; eassumption.
    + intros [= <-]. destruct (bool_decide (path = path2)); [|discriminate].
      intros [= E]. apply H1 in E1 as [_ E1]. apply lookup_lt_Some in E1. lia.
    + destruct (bool_decide (path = path1)); [|discriminate].
      intros [= <-] [= E]. apply H1 in E2 as [_ E2]. apply lookup_lt_Some in E2. lia.
    + destruct (bool_decide (path = path1)) eqn:B1; [|discriminate].
      destruct (bool_decide (path = path2)) eqn:B2; [|discriminate].
      apply bool_decide_eq_true in B1, B2. congruence.
  - intros path' c. rewrite pending_lookup_app.
    destruct (decide (path = path')) as [<-|Hne].
    + rewrite lookup_insert_eq. intros [= <-]. left.
      rewrite Hn. now rewrite bool_decide_eq_true_2 by reflexivity.
    + rewrite lookup_insert_ne by exact Hne. intros Hp.
      destruct (H3 _ _ Hp) as [E|[s Hs]].
      * left. now rewrite E.
      * right. exists s. rewrite lookup_app_l; [exact Hs|].
        eapply lookup_lt_Some; eassumption.
Qed.

Lemma sources_ok_mid d : sources_ok d -> sources_mid d [].
Proof.
  intros (H1 & H2 & H3). split; [|split; assumption].
  intros path c E. destruct (H1 _ _ E) as [Hp Hc]. split; [exact Hp|].
  split; [intros _; exact Hc|]. intros Hin. now apply not_elem_of_nil in Hin.
Qed.

Lemma source_case_pending d path id :
  _pendingSourceCapabilities (fst (source_case d path id)) = _pendingSourceCapabilities d.
Proof. unfold source_case. now destruct (pending_lookup _ path). Qed.

Lemma source_cases_pending ns : forall d,
  _pendingSourceCapabilities (fst (source_cases d ns)) = _pendingSourceCapabilities d.
Proof.
  induction ns as [|[p i] ns IH]; intros d; [reflexivity|].
  cbn [source_cases]. pose proof (source_case_pending d p i) as E.
  destruct (source_case d p i) as [d1 q1]. specialize (IH d1).
  destruct (source_cases d1 ns) as [d2 q2]. simpl in *. congruence.
Qed.

Lemma source_case_mid d queued path id :
  sources_mid d queued ->
  sources_mid (fst (source_case d path id)) (queued ++ snd (source_case d path id)).
Proof.
  intros (H1 & H2 & H3). unfold source_case.
  destruct (pending_lookup (_pendingSourceCapabilities d) path) as [c|] eqn:Ep.
  - destruct (H1 _ _ Ep) as (Hpp & Hun & Hse).
    cbn [fst snd]. unfold sources_mid.
    cbn [_pendingSourceCapabilities _sourcePromises protocol set_protocol
         capabilities settle set_capabilities].
    unfold settle_in.
    destruct (capabilities (protocol d) !! c) as [[s|]|] eqn:Ec.
    + rewrite app_nil_r. exact (conj H1 (conj H2 H3)).
    + pose proof (lookup_lt_Some _ _ _ Ec) as Hlt.
      split; [|split; [exact H2|]].
      * intros path' c' E. destruct (H1 _ _ E) as (Hp' & Hun' & Hse').
        split; [exact Hp'|]. destruct (decide (path' = path)) as [->|Hne].
        -- assert (c' = c) as -> by congruence. split.
           ++ intros Hn. exfalso. apply Hn. apply elem_of_app. right. now left.
           ++ intros _. eexists. now apply list_lookup_insert_eq.
        -- assert (Hc : c' <> c).
           { intros ->. apply Hne. eapply H2; eassumption. }
           rewrite list_lookup_insert_ne by congruence. split.
           ++ intros Hn. apply Hun'. intros Hin. apply Hn. apply elem_of_app. now left.
           ++ intros Hin. apply Hse'. apply elem_of_app in Hin as [Hin|Hin]; [exact Hin|].
              apply list_elem_of_singleton in Hin. contradiction.
      * intros path' c' Hp. destruct (decide (c' = c)) as [->|Hne].
        -- right. eexists. now apply list_lookup_insert_eq.
        -- rewrite list_lookup_insert_ne by congruence. now apply H3.
    + rewrite app_nil_r. exact (conj H1 (conj H2 H3)).
  - cbn [fst snd]. rewrite app_nil_r. unfold sources_mid.
    cbn [_pendingSourceCapabilities _sourcePromises protocol set_protocol set_sources
         capabilities settle set_capabilities allocate].
    rewrite allocate_one. unfold settle_in.
    rewrite lookup_app_r by lia. rewrite Nat.sub_diag. cbn [lookup list_lookup].
    split; [|split; [exact H2|]].
    + intros path' c' E. destruct (H1 _ _ E) as (Hp' & Hun' & Hse').
      assert (Hlt : c' < length (capabilities (protocol d))).
      { destruct (decide (path' ∈ queued)) as [Hin|Hn].
        - destruct (Hse' Hin) as [s Hs]. eapply lookup_lt_Some; eassumption.
        - eapply lookup_lt_Some. exact (Hun' Hn). }
      split; [|split].
      * rewrite lookup_insert_ne; [exact Hp'|]. intros <-. congruence.
      * intros Hn. rewrite list_lookup_insert_ne by lia.
        rewrite lookup_app_l by lia. now apply Hun'.
      * intros Hin. destruct (Hse' Hin) as [s Hs]. exists s.
        rewrite list_lookup_insert_ne by lia. now rewrite lookup_app_l by lia.
    + intros path' c'. destruct (decide (path = path')) as [<-|Hne].
      * rewrite lookup_insert_eq. intros [= <-]. right. eexists.
        apply list_lookup_insert_eq. rewrite length_app. simpl. lia.
      * rewrite lookup_insert_ne by exact Hne. intros Hp.
        destruct (H3 _ _ Hp) as [E|[s Hs]]; [now left|]. right. exists s.
        pose proof (lookup_lt_Some _ _ _ Hs) as Hlt.
        rewrite list_lookup_insert_ne by lia.
        rewrite lookup_app_l by lia. exact Hs.
Qed.

Lemma source_cases_mid ns : forall d queued,
  sources_mid d queued ->
  sources_mid (fst (source_cases d ns)) (queued ++ snd (source_cases d ns)).
Proof.
  induction ns as [|[p i] ns IH]; intros d queued H.
  - simpl. now rewrite app_nil_r.
  - cbn [source_cases]. pose proof (source_case_mid d queued p i H) as H1.
    destruct (source_case d p i) as [d1 q1]. specialize (IH d1 _ H1).
    destruct (source_cases d1 ns) as [d2 q2]. simpl in *. now rewrite app_assoc.
Qed.

Lemma settled_all_protocol queued : forall d,
  protocol (fold_left source_settled queued d) = protocol d
  /\ _sourcePromises (fold_left source_settled queued d) = _sourcePromises d.
Proof.
  induction queued as [|p queued IH]; intros d; [split; reflexivity|].
  simpl. destruct (IH (source_settled d p)) as [-> ->]. split; reflexivity.
Qed.

Lemma settled_all_pending queued : forall d path,
  pending_lookup (_pendingSourceCapabilities (fold_left source_settled queued d)) path
  = if bool_decide (path ∈ queued) then None
    else pending_lookup (_pendingSourceCapabilities d) path.
Proof.
  induction queued as [|p queued IH]; intros d path; [reflexivity|].
  simpl. rewrite IH. cbn [source_settled _pendingSourceCapabilities set_sources].
  rewrite pending_lookup_delete.
  destruct (decide (path ∈ queued)) as [Hin|Hn].
  - rewrite !bool_decide_eq_true_2; [reflexivity| |exact Hin]. now right.
  - rewrite (bool_decide_eq_false_2 _ Hn).
    destruct (decide (p = path)) as [->|Hne].
    + rewrite !bool_decide_eq_true_2; [reflexivity|now left|reflexivity].
    + rewrite (bool_decide_eq_false_2 _ Hne).
      rewrite bool_decide_eq_false_2; [reflexivity|].
      intros Hin. apply elem_of_cons in Hin as [->|Hin]; contradiction.
Qed.

Lemma settled_all_ok d queued :
  sources_mid d queued -> sources_ok (fold_left source_settled queued d).
Proof.
  intros (H1 & H2 & H3). unfold sources_ok.
  destruct (settled_all_protocol queued d) as [-> ->].
  split; [|split].
  - intros path c. rewrite settled_all_pending.
    destruct (decide (path ∈ queued)) as [Hin|Hn].
    + now rewrite (bool_decide_eq_true_2 _ Hin).
    + rewrite (bool_decide_eq_false_2 _ Hn). intros E.
      destruct (H1 _ _ E) as (Hp & Hun & _). auto.
  - intros path1 path2 c. rewrite !settled_all_pending.
    destruct (bool_decide (path1 ∈ queued)); [discriminate|].
    destruct (bool_decide (path2 ∈ queued)); [discriminate|]. apply H2.
  - intros path c Hp. rewrite settled_all_pending.
    destruct (H3 _ _ Hp) as [E|Hs]; [|now right].
    destruct (decide (path ∈ queued)) as [Hin|Hn].
    + right. now apply (H1 _ _ E).
    + left. now rewrite (bool_decide_eq_false_2 _ Hn).
Qed.

(** A turn of notifications keeps the two maps consistent. *)
Lemma onSourceNotifications_ok d notifications :
  sources_ok d -> sources_ok (onSourceNotifications d notifications).
Proof.
  intros H. unfold onSourceNotifications.
  pose proof (source_cases_mid notifications d [] (sources_ok_mid d H)) as Hm.
  destruct (source_cases d notifications) as [d' queued]. now apply settled_all_ok.
Qed.

(** ** What a turn does for one path *)

(** A notification leaves a known path known, unless it is for that
    path and the path is not waited for. *)
Lemma source_case_known d p i path v :
  known d path v ->
  p <> path \/ is_Some (pending_lookup (_pendingSourceCapabilities d) p) ->
  known (fst (source_case d p i)) path v.
Proof.
  intros (c & Hp & Hc) Hcase. unfold source_case.
  destruct (pending_lookup (_pendingSourceCapabilities d) p) as [c'|] eqn:Ep.
  - exists c. split; [exact Hp|]. cbn [fst protocol set_protocol capabilities settle
                                         set_capabilities].
    unfold settle_in. destruct (capabilities (protocol d) !! c') as [[s|]|] eqn:Ec';
      try exact Hc.
    rewrite list_lookup_insert_ne; [exact Hc|]. congruence.
  - destruct Hcase as [Hne|[x Hx]]; [|discriminate].
    exists c. cbn [fst _sourcePromises set_sources protocol set_protocol capabilities
                   settle set_capabilities allocate].
    rewrite lookup_insert_ne by exact Hne. split; [exact Hp|].
    rewrite allocate_one. unfold settle_in.
    rewrite lookup_app_r by lia. rewrite Nat.sub_diag. cbn [lookup list_lookup].
    pose proof (lookup_lt_Some _ _ _ Hc) as Hlt.
    rewrite list_lookup_insert_ne by lia. now rewrite lookup_app_l by lia.
Qed.

(** The first notification for a path that is waited for. *)
Lemma source_case_resolves d path id c :
  pending_lookup (_pendingSourceCapabilities d) path = Some c ->
  _sourcePromises d !! path = Some c ->
  capabilities (protocol d) !! c = Some None ->
  known (fst (source_case d path id)) path id
  /\ snd (source_case d path id) = [path].
Proof.
  intros Ep Hp Hc. unfold source_case. rewrite Ep, Hc. split; [|reflexivity].
  exists c. split; [exact Hp|].
  cbn [fst protocol set_protocol capabilities settle set_capabilities].
  unfold settle_in. rewrite Hc. apply list_lookup_insert_eq.
  eapply lookup_lt_Some; eassumption.
Qed.

(** A notification for a path that is not waited for. *)
Lemma source_case_installs d path id :
  pending_lookup (_pendingSourceCapabilities d) path = None ->
  known (fst (source_case d path id)) path id.
Proof.
  intros Ep. unfold source_case. rewrite Ep.
  exists (length (capabilities (protocol d))).
  cbn [fst _sourcePromises set_sources protocol set_protocol capabilities
       settle set_capabilities allocate].
  split; [apply lookup_insert_eq|].
  rewrite allocate_one. unfold settle_in.
  rewrite lookup_app_r by lia. rewrite Nat.sub_diag. cbn [lookup list_lookup].
  apply list_lookup_insert_eq. rewrite length_app. simpl. lia.
Qed.

(** A notification for another path leaves a path that is waited for
    as it is. *)
Lemma source_case_other d queued p i path c :
  sources_mid d queued ->
  pending_lookup (_pendingSourceCapabilities d) path = Some c ->
  capabilities (protocol d) !! c = Some None ->
  p <> path ->
  capabilities (protocol (fst (source_case d p i))) !! c = Some None.
Proof.
  intros (H1 & H2 & H3) Ep Hc Hne. unfold source_case.
  destruct (pending_lookup (_pendingSourceCapabilities d) p) as [c'|] eqn:Ep'.
  - cbn [fst protocol set_protocol capabilities settle set_capabilities].
    unfold settle_in. destruct (capabilities (protocol d) !! c') as [[s|]|] eqn:Ec';
      try exact Hc.
    rewrite list_lookup_insert_ne; [exact Hc|].
    intros ->. apply Hne. eapply H2; eassumption.
  - cbn [fst protocol set_protocol set_sources capabilities settle set_capabilities
         allocate].
    rewrite allocate_one. unfold settle_in.
    rewrite lookup_app_r by lia. rewrite Nat.sub_diag. cbn [lookup list_lookup].
    pose proof (lookup_lt_Some _ _ _ Hc) as Hlt.
    rewrite list_lookup_insert_ne by lia. now rewrite lookup_app_l by lia.
Qed.

Lemma notified_cons path p i ns :
  notified path ((p, i) :: ns)
  = if bool_decide (p = path) then i :: notified path ns else notified path ns.
Proof. unfold notified. simpl. now destruct (bool_decide (p = path)). Qed.

(** While a path is waited for, what is known of it stays known. *)
Lemma source_cases_known_pending path c v ns : forall d,
  pending_lookup (_pendingSourceCapabilities d) path = Some c ->
  known d path v ->
  known (fst (source_cases d ns)) path v.
Proof.
  induction ns as [|[p i] ns IH]; intros d Ep Hk; [exact Hk|].
  cbn [source_cases].
  assert (Hk1 : known (fst (source_case d p i)) path v).
  { apply source_case_known; [exact Hk|].
    destruct (decide (p = path)) as [->|Hne]; [right; eauto|now left]. }
  pose proof (source_case_pending d p i) as E1.
  destruct (source_case d p i) as [d1 q1]. simpl in *.
  specialize (IH d1). rewrite E1 in IH. specialize (IH Ep Hk1).
  now destruct (source_cases d1 ns) as [d2 q2].
Qed.

(** A path waited for takes the first id notified in the turn. *)
Lemma source_cases_first path c id ids ns : forall d queued,
  sources_mid d queued ->
  pending_lookup (_pendingSourceCapabilities d) path = Some c ->
  capabilities (protocol d) !! c = Some None ->
  notified path ns = id :: ids ->
  known (fst (source_cases d ns)) path id
  /\ path ∈ snd (source_cases d ns).
Proof.
  induction ns as [|[p i] ns IH]; intros d queued Hm Ep Hc Hn; [discriminate|].
  cbn [source_cases]. rewrite notified_cons in Hn.
  pose proof (source_case_pending d p i) as E1.
  destruct (decide (p = path)) as [->|Hne].
  - rewrite bool_decide_eq_true_2 in Hn by reflexivity. injection Hn as -> Hn.
    destruct Hm as (H1 & _ & _). destruct (H1 _ _ Ep) as (Hp & _ & _).
    destruct (source_case_resolves d path id c Ep Hp Hc) as [Hk Hq].
    destruct (source_case d path id) as [d1 q1]. simpl in *. subst q1.
    pose proof (source_cases_known_pending path c id ns d1) as Hrest.
    rewrite E1 in Hrest. specialize (Hrest Ep Hk).
    destruct (source_cases d1 ns) as [d2 q2]. simpl in *.
    split; [exact Hrest|]. now left.
  - rewrite (bool_decide_eq_false_2 _ Hne) in Hn.
    pose proof (source_case_mid d queued p i Hm) as Hm1.
    pose proof (source_case_other d queued p i path c Hm Ep Hc Hne) as Hc1.
    destruct (source_case d p i) as [d1 q1]. simpl in *.
    specialize (IH d1 _ Hm1). rewrite E1 in IH. specialize (IH Ep Hc1 Hn).
    destruct (source_cases d1 ns) as [d2 q2]. simpl in *.
    destruct IH as [Hk Hin]. split; [exact Hk|]. apply elem_of_app. now right.
Qed.

(** A path not waited for takes each id notified in turn. *)
Lemma source_cases_latest path ns : forall d v,
  pending_lookup (_pendingSourceCapabilities d) path = None ->
  known d path v ->
  known (fst (source_cases d ns)) path (List.last (notified path ns) v).
Proof.
  induction ns as [|[p i] ns IH]; intros d v Ep Hk; [exact Hk|].
  cbn [source_cases]. rewrite notified_cons.
  pose proof (source_case_pending d p i) as E1.
  destruct (decide (p = path)) as [->|Hne].
  - rewrite bool_decide_eq_true_2 by reflexivity.
    pose proof (source_case_installs d path i Ep) as Hk1.
    destruct (source_case d path i) as [d1 q1]. simpl in *.
    specialize (IH d1 i). rewrite E1 in IH. specialize (IH Ep Hk1).
    destruct (source_cases d1 ns) as [d2 q2]. simpl in *.
    destruct (notified path ns) as [|j js]; [exact IH|].
    change (List.last (i :: j :: js) v) with (List.last (j :: js) v).
    replace (List.last (j :: js) v) with (List.last (j :: js) i); [exact IH|].
    clear. revert j. induction js as [|k js IHjs]; intros j; [reflexivity|].
    change (List.last (j :: k :: js) i) with (List.last (k :: js) i).
    change (List.last (j :: k :: js) v) with (List.last (k :: js) v). apply IHjs.
  - rewrite (bool_decide_eq_false_2 _ Hne).
    assert (Hk1 : known (fst (source_case d p i)) path v)
      by (apply source_case_known; [exact Hk|now left]).
    destruct (source_case d p i) as [d1 q1]. simpl in *.
    specialize (IH d1 v). rewrite E1 in IH. specialize (IH Ep Hk1).
    now destruct (source_cases d1 ns) as [d2 q2].
Qed.

Lemma source_cases_installs path id ids ns : forall d,
  pending_lookup (_pendingSourceCapabilities d) path = None ->
  notified path ns = id :: ids ->
  known (fst (source_cases d ns)) path (List.last ids id).
Proof.
  induction ns as [|[p i] ns IH]; intros d Ep Hn; [discriminate|].
  rewrite notified_cons in Hn.
  pose proof (source_case_pending d p i) as E1.
  destruct (decide (p = path)) as [->|Hne].
  - rewrite bool_decide_eq_true_2 in Hn by reflexivity. injection Hn as -> Hn.
    pose proof (source_case_installs d path id Ep) as Hk1.
    pose proof (source_cases_latest path ns (fst (source_case d path id)) id) as Hl.
    rewrite E1 in Hl. specialize (Hl Ep Hk1). rewrite Hn in Hl.
    cbn [source_cases]. destruct (source_case d path id) as [d1 q1]. simpl in *.
    now destruct (source_cases d1 ns) as [d2 q2].
  - rewrite (bool_decide_eq_false_2 _ Hne) in Hn.
    specialize (IH (fst (source_case d p i))). rewrite E1 in IH. specialize (IH Ep Hn).
    cbn [source_cases]. destruct (source_case d p i) as [d1 q1]. simpl in *.
    now destruct (source_cases d1 ns) as [d2 q2].
Qed.

(** X12.  The [source] notifications that one [data] event dispatches,
    one of them at least for [path]: when the event is over nothing waits
    for [path] any more and [getSourceId(path)] creates nothing; it
    returns a promise already fulfilled, with the first id notified for
    [path] in the event when the path was waited for (the pending entry
    is deleted by a callback that runs after the event only, so the later
    notifications resolve a promise that is resolved already), with the
    last one when it was not (each notification replaces the promise). *)
Theorem source_notified_then_known d notifications path id ids :
  sources_ok d ->
  notified path notifications = id :: ids ->
  let d' := onSourceNotifications d notifications in
  sources_ok d'
  /\ pending_lookup (_pendingSourceCapabilities d') path = None
  /\ fst (getSourceId d' path) = d'
  /\ capabilities (protocol d') !! snd (getSourceId d' path)
     = Some (Some (Fulfilled
                     (if bool_decide
                           (is_Some (pending_lookup (_pendingSourceCapabilities d) path))
                      then id else List.last ids id))).
Proof.
  intros Hok Hn d'. split; [now apply onSourceNotifications_ok|].
  unfold d', onSourceNotifications.
  pose proof (source_cases_pending notifications d) as Epend.
  pose proof (source_cases_first path) as Hfirst.
  pose proof (source_cases_installs path id ids notifications d) as Hlast.
  specialize (fun c => Hfirst c id ids notifications d [] (sources_ok_mid d Hok)).
  destruct (source_cases d notifications) as [d1 queued]. simpl in *.
  assert (Hk : known d1 path
                 (if bool_decide
                       (is_Some (pending_lookup (_pendingSourceCapabilities d) path))
                  then id else List.last ids id)
               /\ pending_lookup
                    (_pendingSourceCapabilities (fold_left source_settled queued d1)) path
                  = None).
  { rewrite settled_all_pending, Epend.
    destruct (pending_lookup (_pendingSourceCapabilities d) path) as [c|] eqn:Ep.
    - rewrite bool_decide_eq_true_2 by eauto.
      destruct Hok as (H1 & _ & _). destruct (H1 _ _ Ep) as [_ Hc].
      destruct (Hfirst c eq_refl Hc Hn) as [Hk Hin].
      split; [exact Hk|]. now rewrite (bool_decide_eq_true_2 _ Hin).
    - rewrite (bool_decide_eq_false_2 (is_Some None)) by (intros [x Hx]; discriminate).
      split; [now apply Hlast|]. now destruct (bool_decide _). }
  destruct Hk as [(c & Hp & Hc) Hpend]. split; [exact Hpend|].
  destruct (settled_all_protocol queued d1) as [Epr Eso].
  rewrite (getSourceId_known _ path c) by (rewrite Eso; exact Hp).
  split; [reflexivity|]. simpl. rewrite Epr. exact Hc.
Qed.

(** What a turn with one notification does, case by case. *)
Lemma onSourceNotification_pending d path id c :
  pending_lookup (_pendingSourceCapabilities d) path = Some c ->
  capabilities (protocol d) !! c = Some None ->
  onSourceNotification d path id
  = set_sources
      (set_protocol d (settle (protocol d) c (Fulfilled id)))
      (pending_delete (_pendingSourceCapabilities d) path)
      (_sourcePromises d).
Proof.
  intros Ep Hc. unfold onSourceNotification, onSourceNotifications.
  cbn [source_cases]. unfold source_case. rewrite Ep, Hc. reflexivity.
Qed.

Lemma onSourceNotification_unknown d path id :
  pending_lookup (_pendingSourceCapabilities d) path = None ->
  onSourceNotification d path id
  = set_sources
      (set_protocol d
         (settle (allocate (protocol d) (S (length (capabilities (protocol d)))))
            (length (capabilities (protocol d))) (Fulfilled id)))
      (_pendingSourceCapabilities d)
      (<[path := length (capabilities (protocol d))]> (_sourcePromises d)).
Proof.
  intros Ep. unfold onSourceNotification, onSourceNotifications.
  cbn [source_cases]. unfold source_case. rewrite Ep. reflexivity.
Qed.

Lemma onSourceNotification_ok d path id :
  sources_ok d -> sources_ok (onSourceNotification d path id).
Proof. apply onSourceNotifications_ok. Qed.

(** A source that is waited for, reported twice in one event: the
    promise holds the first id. *)
Lemma source_notified_then_known_witness :
  capabilities
    (protocol
       (onSourceNotifications (fst (getSourceId new_FirefoxDebugSession "/srv/www/app.js"))
          [("/srv/www/app.js", str "source9"); ("/srv/www/app.js", str "source12")]))
    !! snd (getSourceId
              (onSourceNotifications
                 (fst (getSourceId new_FirefoxDebugSession "/srv/www/app.js"))
                 [("/srv/www/app.js", str "source9"); ("/srv/www/app.js", str "source12")])
              "/srv/www/app.js")
  = Some (Some (Fulfilled (str "source9"))).
Proof.
  exact (proj2 (proj2 (proj2
           (source_notified_then_known
              (fst (getSourceId new_FirefoxDebugSession "/srv/www/app.js"))
              [("/srv/www/app.js", str "source9"); ("/srv/www/app.js", str "source12")]
              "/srv/www/app.js" (str "source9") [str "source12"]
              (getSourceId_ok _ _ sources_ok_new) eq_refl)))).
Defined.

(** X13.  [getSourceId(path)] asked again returns the same promise and
    changes nothing; and a promise it returned that is still unsettled is
    the one the next [source] notification for [path] fulfils, with the id
    notified. *)
Theorem source_awaited_then_notified d path id :
  sources_ok d ->
  let d1 := fst (getSourceId d path) in
  let promise := snd (getSourceId d path) in
  getSourceId d1 path = (d1, promise)
  /\ (capabilities (protocol d1) !! promise = Some None ->
      capabilities (protocol (onSourceNotification d1 path id)) !! promise
      = Some (Some (Fulfilled id))).
Proof.
  intros Hok d1 promise.
  pose proof (getSourceId_ok d path Hok) as (H1 & H2 & H3). fold d1 in H1, H2, H3.
  assert (Hp : _sourcePromises d1 !! path = Some promise).
  { unfold d1, promise, getSourceId.
    destruct (_sourcePromises d !! path) as [c|] eqn:Ep; [exact Ep|].
    simpl. apply lookup_insert_eq. }
  split; [now apply getSourceId_known|].
  intros Hc. destruct (H3 _ _ Hp) as [Ep|[s Hs]]; [|congruence].
  rewrite (onSourceNotification_pending d1 path id promise Ep Hc).
  simpl. unfold settle_in. rewrite Hc.
  apply list_lookup_insert_eq. eapply lookup_lt_Some; eassumption.
Qed.

(** A source asked for, then reported. *)
Lemma source_awaited_then_notified_witness :
  capabilities
    (protocol
       (onSourceNotification (fst (getSourceId new_FirefoxDebugSession "/srv/www/app.js"))
          "/srv/www/app.js" (str "source9")))
    !! snd (getSourceId new_FirefoxDebugSession "/srv/www/app.js")
  = Some (Some (Fulfilled (str "source9"))).
Proof.
  apply (source_awaited_then_notified new_FirefoxDebugSession "/srv/www/app.js"
           (str "source9") sources_ok_new).
  reflexivity.
Defined.

(** The outcomes of [disconnectRequest], by the fields it reads. *)
Lemma disconnectRequest_cases d :
  (snd (disconnectRequest d) = Completed
   <-> _pendingSourceCapabilities d = [] /\ _session d = true /\ is_Some (_process d))
  /\ events (fst (disconnectRequest d))
     = events d
       ++ match _pendingSourceCapabilities d with
          | _ :: _ => []
          | [] =>
              if _session d && bool_decide (is_Some (_process d))
              then ["output: stopping"; "response: disconnect"]
              else ["output: stopping"]
          end
  /\ _session (fst (disconnectRequest d))
     = match snd (disconnectRequest d) with
       | Completed => false
       | TypeError => _session d
       end.
Proof.
  unfold disconnectRequest. simpl.
  destruct (_pendingSourceCapabilities d) as [|kv pending]; simpl.
  - destruct (_session d) eqn:Es; simpl.
    + destruct (_process d) as [alive|] eqn:Ep; simpl.
      * rewrite <- app_assoc. split; [|split; reflexivity].
        split; [intros _; eauto|reflexivity].
      * split; [|split; [reflexivity|exact Es]].
        split; [discriminate|]. intros (_ & _ & [x Hx]). discriminate.
    + split; [|split; [reflexivity|exact Es]].
      split; [discriminate|]. intros (_ & H & _). discriminate.
  - rewrite app_nil_r. split; [|split].
    + split; [discriminate|]. intros (H & _). discriminate.
    + reflexivity.
    + reflexivity.
Qed.

(** Nothing is waited for exactly when every promise handed out for a
    source is settled. *)
Lemma nothing_pending_iff_settled d :
  sources_ok d ->
  _pendingSourceCapabilities d = []
  <-> (forall path promise,
         _sourcePromises d !! path = Some promise ->
         exists s, capabilities (protocol d) !! promise = Some (Some s)).
Proof.
  intros (H1 & _ & H3). split.
  - intros E path promise Hp. destruct (H3 _ _ Hp) as [Hl|Hs]; [|exact Hs].
    rewrite E in Hl. discriminate.
  - intros Hs. destruct (_pendingSourceCapabilities d) as [|[k c] pending] eqn:E;
      [reflexivity|exfalso].
    assert (Hl : pending_lookup ((k, c) :: pending) k = Some c).
    { simpl. now rewrite bool_decide_eq_true_2 by reflexivity. }
    destruct (H1 _ _ Hl) as [Hp Hc]. destruct (Hs _ _ Hp) as [s Hs']. congruence.
Qed.

Lemma sources_ok_evaluating : sources_ok evaluating.
Proof.
  split; [|split]; intros; discriminate.
Qed.

(** X14.  [disconnectRequest] is answered exactly when every promise
    that [getSourceId] handed out has been settled by a [source]
    notification, the session is held and a browser process was spawned:
    then the 'stopping' output and the response are sent and the session
    is dropped.  Otherwise it ends in a TypeError without a response and
    keeps the session; in particular after a [getSourceId] for a path
    that no notification has named yet. *)
Theorem disconnect_answered_iff_sources_settled d :
  sources_ok d ->
  (snd (disconnectRequest d) = Completed
   <-> (forall path promise,
          _sourcePromises d !! path = Some promise ->
          exists s, capabilities (protocol d) !! promise = Some (Some s))
       /\ _session d = true /\ is_Some (_process d))
  /\ match snd (disconnectRequest d) with
     | Completed =>
         events (fst (disconnectRequest d))
         = events d ++ ["output: stopping"; "response: disconnect"]
         /\ _session (fst (disconnectRequest d)) = false
     | TypeError =>
         (events (fst (disconnectRequest d)) = events d
          \/ events (fst (disconnectRequest d)) = events d ++ ["output: stopping"])
         /\ _session (fst (disconnectRequest d)) = _session d
     end
  /\ (forall path,
        _sourcePromises d !! path = None ->
        snd (disconnectRequest (fst (getSourceId d path))) = TypeError).
Proof.
  intros Hok. destruct (disconnectRequest_cases d) as (Hiff & He & Hs).
  split; [|split].
  - rewrite Hiff, (nothing_pending_iff_settled d Hok). reflexivity.
  - rewrite He, Hs. destruct Hiff as [Hto Hfrom].
    destruct (snd (disconnectRequest d)) eqn:Eo.
    + destruct (Hto eq_refl) as (-> & -> & Hp).
      rewrite (bool_decide_eq_true_2 _ Hp). split; reflexivity.
    + split; [|reflexivity].
      destruct (_pendingSourceCapabilities d); [|left; apply app_nil_r].
      destruct (_session d && bool_decide (is_Some (_process d))) eqn:Eb;
        [|right; reflexivity].
      apply andb_prop in Eb as [Eb1 Eb2]. apply bool_decide_eq_true in Eb2.
      discriminate Hfrom. auto.
  - intros path Hn.
    destruct (snd (disconnectRequest (fst (getSourceId d path)))) eqn:Eo; [|reflexivity].
    apply (disconnectRequest_cases (fst (getSourceId d path))) in Eo as (E & _).
    unfold getSourceId in E. rewrite Hn in E. simpl in E.
    destruct (_pendingSourceCapabilities d); discriminate.
Qed.

(** A session at a pause whose only source was asked for and then
    reported: the disconnect is answered. *)
Lemma disconnect_answered_iff_sources_settled_witness :
  snd (disconnectRequest
         (onSourceNotification (fst (getSourceId evaluating "/srv/www/app.js"))
            "/srv/www/app.js" (str "source9")))
  = Completed.
Proof.
  pose proof (onSourceNotification_ok _ "/srv/www/app.js" (str "source9")
                (getSourceId_ok evaluating "/srv/www/app.js" sources_ok_evaluating))
    as Hok.
  apply (proj2 (proj1 (disconnect_answered_iff_sources_settled _ Hok))).
  split; [|split; [reflexivity|eexists; reflexivity]].
  intros path promise Hp. destruct Hok as (_ & _ & H3).
  destruct (H3 _ _ Hp) as [Hl|Hs]; [discriminate|exact Hs].
Defined.

End DebugFacts.

(* ===================================================================== *)
(** * The URL resolvers                                                   *)
(* ===================================================================== *)

Module UrlFacts.
Import UrlHelper.

Local Open Scope string_scope.
Local Open Scope list_scope.

Lemma substring_all s : String.substring 0 (String.length s) s = s.
Proof. induction s as [|c s IH]; simpl; [reflexivity|now rewrite IH]. Qed.

Lemma substring_from_app p s : substring_from (String.length p) (p +:+ s) = s.
Proof.
  unfold substring_from. induction p as [|c p IH]; simpl.
  - rewrite Nat.sub_0_r. apply substring_all.
  - exact IH.
Qed.

Lemma prefix_app p s : String.prefix p (p +:+ s) = true.
Proof.
  induction p as [|c p IH]; simpl; [now destruct s|].
  destruct (ascii_dec c c); [exact IH|congruence].
Qed.

Lemma prefix_split p : forall s,
  String.prefix p s = true -> s = p +:+ substring_from (String.length p) s.
Proof.
  induction p as [|c p IH]; intros s H.
  - unfold substring_from. simpl. rewrite Nat.sub_0_r. now rewrite substring_all.
  - destruct s as [|d s]; [discriminate|]. simpl in H.
    destruct (ascii_dec c d) as [->|]; [|discriminate].
    apply IH in H.
    transitivity (String d (p +:+ substring_from (String.length p) s));
      [f_equal; exact H|reflexivity].
Qed.

Lemma append_length s t : String.length (s +:+ t) = String.length s + String.length t.
Proof. induction s as [|c s IH]; simpl; [reflexivity|now rewrite IH]. Qed.

(** X4.  [LocalURLHelper]: a local path converted to a URL and back is
    the same path exactly when it starts with ["/"]; a URL converted to a
    local path and back is the same URL exactly when it starts with
    ["file:///"]. *)
Theorem LocalURLHelper_round_trips s :
  (convertToLocal LocalURLHelper (convertToWeb LocalURLHelper s) = s
   <-> String.prefix "/" s = true)
  /\ (convertToWeb LocalURLHelper (convertToLocal LocalURLHelper s) = s
      <-> String.prefix "file:///" s = true).
Proof.
  split; split.
  - intros H. change (convertToWeb LocalURLHelper s) with ("file://" +:+ s) in H.
    change (convertToLocal LocalURLHelper ("file://" +:+ s))
      with (if negb (String.prefix "/" s) then "file://" +:+ s
            else substring_from (String.length "file://") ("file://" +:+ s)) in H.
    destruct (String.prefix "/" s); [reflexivity|]. cbn [negb] in H.
    apply (f_equal String.length) in H. rewrite append_length in H. simpl in H. lia.
  - intros H. change (convertToWeb LocalURLHelper s) with ("file://" +:+ s).
    change (convertToLocal LocalURLHelper ("file://" +:+ s))
      with (if negb (String.prefix "/" s) then "file://" +:+ s
            else substring_from (String.length "file://") ("file://" +:+ s)).
    rewrite H. cbn [negb]. apply substring_from_app.
  - intros H. unfold LocalURLHelper in H. cbn [convertToLocal convertToWeb] in H.
    destruct (String.prefix "file:///" s); [reflexivity|]. cbn [negb] in H.
    apply (f_equal String.length) in H. rewrite append_length in H. simpl in H. lia.
  - intros H. unfold LocalURLHelper. cbn [convertToLocal convertToWeb].
    rewrite H. cbn [negb].
    assert (H7 : String.prefix "file://" s = true).
    { destruct s as [|c1 [|c2 [|c3 [|c4 [|c5 [|c6 [|c7 [|c8 s]]]]]]]];
        simpl in *; try discriminate;
        repeat (match goal with
                | H : (if ?d then _ else _) = true |- _ => destruct d; [|discriminate]
                end); try discriminate.
      subst. reflexivity. }
    symmetry. apply (prefix_split "file://" s H7).
Qed.

Lemma append_cons c s t : String c s +:+ t = String c (s +:+ t).
Proof. reflexivity. Qed.

Lemma append_nil_r s : s +:+ "" = s.
Proof. induction s as [|c s IH]; [reflexivity|now rewrite append_cons, IH]. Qed.

Lemma append_assoc s t u : (s +:+ t) +:+ u = s +:+ (t +:+ u).
Proof. induction s as [|c s IH]; [reflexivity|now rewrite !append_cons, IH]. Qed.

Lemma split_slash_aux_cons s cur :
  exists seg segs, split_slash_aux s cur = seg :: segs.
Proof.
  revert cur; induction s as [|c s IH]; intros cur; simpl; [eauto|].
  destruct (Nat.eqb _ 47); eauto.
Qed.

Lemma concat_cons sep x y l :
  String.concat sep (x :: y :: l) = x +:+ sep +:+ String.concat sep (y :: l).
Proof. reflexivity. Qed.

Lemma concat_split_aux s : forall cur,
  String.concat "/" (split_slash_aux s cur) = cur +:+ s.
Proof.
  induction s as [|c s IH]; intros cur; simpl.
  - now rewrite append_nil_r.
  - destruct (Nat.eqb_spec (Ascii.nat_of_ascii c) 47) as [Hc|Hc].
    + assert (c = Ascii.ascii_of_nat 47) as ->
        by (rewrite <- Hc; symmetry; apply Ascii.ascii_nat_embedding).
      specialize (IH ""). destruct (split_slash_aux_cons s "") as (seg & segs & E).
      rewrite E in *. rewrite concat_cons, IH. reflexivity.
    + rewrite IH, append_assoc. reflexivity.
Qed.

(** [parts.join('/')] undoes [str.split('/')]. *)
Lemma concat_split s : String.concat "/" (split_slash s) = s.
Proof. apply concat_split_aux. Qed.

Lemma shift_dots_below dots : forall rel,
  Forall (fun d => d = "." \/ d = "..") dots ->
  shift_dots (split_slash (below dots rel)) = shift_dots (split_slash rel).
Proof.
  induction dots as [|d dots IH]; intros rel H; [reflexivity|].
  apply Forall_cons in H as [Hd H]. specialize (IH rel H).
  destruct Hd as [-> | ->]; exact IH.
Qed.

Lemma shift_dots_id parts :
  (forall seg, head parts = Some seg -> seg <> "." /\ seg <> "..") ->
  shift_dots parts = parts.
Proof.
  destruct parts as [|p parts]; [reflexivity|]. intros H.
  destruct (H p eq_refl) as [H1 H2]. simpl.
  now rewrite (bool_decide_eq_false_2 _ H1), (bool_decide_eq_false_2 _ H2).
Qed.

Section HttpFacts.

Variable url_pathname : string -> string.
Variable path_join : string -> string -> string.
Variable path_relative : string -> string -> string.
Variable url_resolve : string -> string -> string.

(** X5.  [HttpURLHelper.convertToWeb]: the leading ["."] and [".."]
    segments of the path relative to the web root are dropped, so a file
    [rel] inside the web root and any file that [path.relative] places
    outside it, at [rel] behind such segments, have the same URL: the
    base URL resolved against ["/" + rel]. *)
Theorem convertToWeb_drops_dots webRoot baseUrl path_string dots rel :
  path_relative webRoot path_string = below dots rel ->
  Forall (fun d => d = "." \/ d = "..") dots ->
  (forall seg, head (split_slash rel) = Some seg -> seg <> "." /\ seg <> "..") ->
  convertToWeb
    (HttpURLHelper url_pathname path_join path_relative url_resolve webRoot baseUrl)
    path_string
  = url_resolve baseUrl ("/" +:+ rel).
Proof.
  intros E Hd Hrel. cbn [HttpURLHelper convertToWeb].
  rewrite E, (shift_dots_below dots rel Hd), (shift_dots_id _ Hrel), concat_split.
  reflexivity.
Qed.

End HttpFacts.

(** A script two levels above the web root, with the identity for
    [path.relative] and concatenation for [url.resolve]. *)
Lemma convertToWeb_drops_dots_witness :
  convertToWeb
    (HttpURLHelper (fun u => u) String.append (fun _ p => p) String.append
       "/srv/www" "http://localhost:8080")
    "../../js/app.js"
  = "http://localhost:8080/js/app.js".
Proof.
  apply (convertToWeb_drops_dots (fun u => u) String.append (fun _ p => p) String.append
           "/srv/www" "http://localhost:8080" "../../js/app.js" [".."; ".."] "js/app.js").
  - reflexivity.
  - repeat (apply List.Forall_cons; [right; reflexivity|]). apply List.Forall_nil.
  - intros seg [= <-]. split; discriminate.
Defined.

End UrlFacts.

(* ===================================================================== *)
(** * Tabs and scopes                                                     *)
(* ===================================================================== *)

Module BrowsingFacts.
Import JS UrlHelper Session.

Local Open Scope string_scope.
Local Open Scope list_scope.

(** ** [RootActor.selectTab] *)

Lemma selectTab_forEach_last program tabs : forall tabInfo,
  Forall (fun tab => nullish tab = false) tabs ->
  selectTab_forEach program tabs tabInfo
  = Some (default tabInfo
            (last (List.filter (fun tab => is_string (get tab "url") program) tabs))).
Proof.
  induction tabs as [|tab tabs IH]; intros tabInfo H; [reflexivity|].
  apply Forall_cons in H as [Ht H]. cbn [selectTab_forEach List.filter].
  rewrite Ht, (IH _ H).
  destruct (is_string (get tab "url") program); [|reflexivity].
  f_equal. destruct (List.filter _ tabs) as [|t ts] eqn:E; [reflexivity|].
  rewrite last_cons_cons. destruct (last (t :: ts)) eqn:El; [reflexivity|].
  now apply last_None in El.
Qed.

Lemma matching_tab_truthy program tabs tab :
  last (List.filter (fun tab => is_string (get tab "url") program) tabs) = Some tab ->
  truthy tab = true.
Proof.
  intros H. apply last_Some_elem_of in H. apply list_elem_of_In in H.
  apply filter_In in H as [_ H]. destruct tab; try discriminate. reflexivity.
Qed.

(** X6.  [RootActor.selectTab] on a [listTabs] response whose [tabs] is
    an array without [null] entries, [_tabInfo] being unset: the tab
    selected is the last one whose [url] is the program's, and the console
    and tab actors are created with its [consoleActor] and [actor]; when
    no tab has that [url], 'tab not found' is thrown. *)
Theorem selectTab_last_match program body tabs :
  get body "tabs" = array tabs ->
  Forall (fun tab => nullish tab = false) tabs ->
  selectTab program undefined body
  = match last (List.filter (fun tab => is_string (get tab "url") program) tabs) with
    | Some tab =>
        TabSelected tab [(ConsoleActor, get tab "consoleActor"); (TabActor, get tab "actor")]
    | None => TabNotFound
    end.
Proof.
  intros Eb Ht. unfold selectTab.
  assert (nullish body = false) as -> by (destruct body; try discriminate; reflexivity).
  rewrite Eb, (selectTab_forEach_last _ _ _ Ht).
  destruct (last _) as [tab|] eqn:E; [|reflexivity].
  simpl. now rewrite (matching_tab_truthy _ _ _ E).
Qed.

(** Two tabs show the program: the second is taken. *)
Lemma selectTab_last_match_witness :
  selectTab "http://localhost/" undefined
    (object [("tabs", array
                [object [("actor", str "tab1"); ("url", str "http://localhost/")];
                 object [("actor", str "tab2"); ("url", str "about:blank")];
                 object [("actor", str "tab3"); ("url", str "http://localhost/")]])])
  = TabSelected (object [("actor", str "tab3"); ("url", str "http://localhost/")])
      [(ConsoleActor, undefined); (TabActor, str "tab3")].
Proof.
  apply (selectTab_last_match "http://localhost/"
           (object [("tabs", array
                [object [("actor", str "tab1"); ("url", str "http://localhost/")];
                 object [("actor", str "tab2"); ("url", str "about:blank")];
                 object [("actor", str "tab3"); ("url", str "http://localhost/")]])])
           [object [("actor", str "tab1"); ("url", str "http://localhost/")];
            object [("actor", str "tab2"); ("url", str "about:blank")];
            object [("actor", str "tab3"); ("url", str "http://localhost/")]]).
  - reflexivity.
  - repeat constructor.
Defined.

(** ** [ContextActor.getScopes] *)

Lemma value_size_pos v : 0 < value_size v.
Proof. destruct v; simpl; lia. Qed.

Lemma lookup_field_size fields key :
  truthy (lookup_field fields key) = true ->
  value_size (lookup_field fields key) < value_size (object fields).
Proof.
  simpl. induction fields as [|[k v] fields IH]; simpl; [discriminate|].
  destruct (bool_decide (k = key)); intros H; [lia|]. specialize (IH H). lia.
Qed.

Lemma parent_size environment :
  truthy (get environment "parent") = true ->
  value_size (get environment "parent") < value_size environment.
Proof.
  destruct environment; simpl; try discriminate. apply lookup_field_size.
Qed.

Lemma getScopes_loop_falsy fuel environment first :
  truthy environment = false -> getScopes_loop fuel environment first = Some [].
Proof. intros H. destruct fuel; simpl; now rewrite H. Qed.

Lemma environments_nonempty environment actors :
  environments environment actors -> actors <> [].
Proof. now destruct 1. Qed.

(** Every value that is not falsy heads a chain of environments. *)
Lemma environments_exist n : forall environment,
  value_size environment <= n ->
  truthy environment = true ->
  exists actors, environments environment actors.
Proof.
  induction n as [|n IH]; intros environment Hn Ht.
  - pose proof (value_size_pos environment). lia.
  - destruct (truthy (get environment "parent")) eqn:Hp.
    + destruct (IH (get environment "parent")) as [actors H]; [|exact Hp|].
      * pose proof (parent_size environment Hp). lia.
      * eexists. apply environments_next; eassumption.
    + eexists. apply environments_last; assumption.
Qed.

(** The loop gives one scope for each environment of the chain, and does
    so within any [fuel] that bounds the depth of the first. *)
Lemma getScopes_loop_chain environment actors :
  environments environment actors ->
  forall fuel first,
    value_size environment <= fuel ->
    getScopes_loop fuel environment first = Some (scopes first actors).
Proof.
  induction 1 as [environment Ht Hp|environment actors Ht Hp Hc IH];
    intros fuel first Hn.
  - destruct fuel as [|fuel]; [pose proof (value_size_pos environment); lia|].
    cbn [getScopes_loop]. rewrite Ht, Hp. cbn [negb].
    now rewrite (getScopes_loop_falsy _ _ _ Hp).
  - destruct fuel as [|fuel]; [pose proof (value_size_pos environment); lia|].
    cbn [getScopes_loop]. rewrite Ht, Hp. cbn [negb].
    rewrite (IH fuel false) by (pose proof (parent_size environment Hp); lia).
    pose proof (environments_nonempty _ _ Hc).
    destruct actors; [congruence|reflexivity].
Qed.

(** X7.  The callback of [getScopes], when [body.frames[0]] can be
    read: without an environment there is no scope; otherwise the
    environments form a chain along [parent], and the result holds one
    scope for each of them, innermost first, with the id
    ['env!' + actor]: the outermost is "Global" (also when it is the only
    one), the innermost "Local", those between "Closure".  The loop always
    ends. *)
Theorem getScopes_fulfilled_chain body :
  nullish (get body "frames") = false ->
  nullish (first_item (get body "frames")) = false ->
  let environment := get (first_item (get body "frames")) "environment" in
  (truthy environment = false /\ getScopes_fulfilled body = Some [])
  \/ (exists actors,
        environments environment actors
        /\ getScopes_fulfilled body = Some (scopes true actors)).
Proof.
  intros Hf H0 environment. unfold getScopes_fulfilled.
  assert (nullish body = false) as ->
    by (destruct body; try reflexivity; discriminate).
  rewrite Hf, H0. fold environment.
  destruct (truthy environment) eqn:Ht.
  - right. destruct (environments_exist _ environment (le_n _) Ht) as [actors Hc].
    exists actors. split; [exact Hc|]. now apply getScopes_loop_chain.
  - left. split; [reflexivity|]. now apply getScopes_loop_falsy.
Qed.

(** A function called inside a closure: three environments. *)
Lemma getScopes_fulfilled_chain_witness :
  exists actors,
    environments
      (object [("actor", str "env3");
               ("parent",
                object [("actor", str "env2");
                        ("parent", object [("actor", str "env1")])])])
      actors
    /\ getScopes_fulfilled
         (object [("frames", array
            [object [("environment",
               object [("actor", str "env3");
                       ("parent",
                        object [("actor", str "env2");
                                ("parent", object [("actor", str "env1")])])])]])])
       = Some (scopes true actors).
Proof.
  destruct (getScopes_fulfilled_chain
    (object [("frames", array
       [object [("environment",
          object [("actor", str "env3");
                  ("parent",
                   object [("actor", str "env2");
                           ("parent", object [("actor", str "env1")])])])]])])
    eq_refl eq_refl) as [[H _]|H]; [discriminate|exact H].
Defined.

(** ** The errors [ContextActor] keeps for [evaluate] *)

Lemma evaluate_error_truthy body :
  evaluate_error body = true -> truthy (get body "error") = true.
Proof.
  unfold evaluate_error. destruct (get body "error"); try discriminate.
  simpl. intros H. destruct (bool_decide (s = "")) eqn:E; [|reflexivity].
  apply bool_decide_eq_true in E. subst. discriminate.
Qed.

Section ContextErrors.
Variable urlHelper : IURLHelper.

Lemma context_call_blocked a r next c :
  class a = ContextActor ->
  _processing a = Some r ->
  request_or_evaluate_error c ->
  exists a' es next',
    call urlHelper a next c = Some (a', es, next')
    /\ class a' = ContextActor /\ _processing a' = Some r
    /\ Forall (fun e => relayed e = None /\ settled e = None) es.
Proof.
  intros Hc Hp Hcall. destruct c as [body|body|body|reason|expr frame];
    simpl in Hcall; try contradiction.
  - simpl. unfold sendRequest. rewrite Hp. do 3 eexists. split; [reflexivity|].
    simpl. split; [exact Hc|]. split; [first [exact Hp|reflexivity]|].
    repeat constructor.
  - destruct Hcall as (Hn & Ht & He). simpl.
    unfold processCommand. rewrite Hc. unfold Actor_processCommand.
    rewrite Hn, Ht, (evaluate_error_truthy _ He).
    unfold processError. rewrite Hc. unfold evaluate_error in He. rewrite He.
    destruct (_evaluateCapabilty a); do 3 eexists;
      (split; [reflexivity|]); (split; [exact Hc|]); (split; [exact Hp|]);
      repeat constructor.
Qed.

(** X11.  A [ContextActor] with a request in flight: an error
    [unknownFrame], [notDebuggee] or [wrongState] is never taken as the
    answer to that request (it rejects the promise of [evaluate], if there
    was one, or is missed).  So however many of them arrive and however
    many requests are made meanwhile, the request in flight stays
    unsettled and in flight, and no later request is relayed. *)
Theorem context_errors_block_queue cs : forall a r next,
  class a = ContextActor ->
  _processing a = Some r ->
  Forall request_or_evaluate_error cs ->
  _processing (fst (fst (calls urlHelper a next cs))) = Some r
  /\ Forall (fun e => relayed e = None /\ settled e = None)
       (snd (fst (calls urlHelper a next cs))).
Proof.
  induction cs as [|c cs IH]; intros a r next Hc Hp Hcs.
  - simpl. split; [exact Hp|constructor].
  - apply Forall_cons in Hcs as [Hcall Hcs].
    destruct (context_call_blocked a r next c Hc Hp Hcall)
      as (a' & es & next' & E & Hc' & Hp' & Hes).
    cbn [calls]. rewrite E.
    specialize (IH a' r next' Hc' Hp' Hcs).
    destruct (calls urlHelper a' next' cs) as [[a'' es'] next''].
    simpl in *. destruct IH as [IH1 IH2]. split; [exact IH1|].
    apply Forall_app. split; assumption.
Qed.

End ContextErrors.

(** A context actor whose [frames] request is answered by [wrongState]:
    the request made after it is queued, not sent. *)
Lemma context_errors_block_queue_witness :
  Forall (fun e => relayed e = None /\ settled e = None)
    (snd (fst (calls LocalURLHelper
                 (set_processing (new_Actor ContextActor "context2")
                    (Some {| body := object [("type", str "frames");
                                             ("to", str "context2")];
                             _capability := 0 |}) [])
                 1
                 [CallProcessCommand
                    (object [("from", str "context2"); ("error", str "wrongState")]);
                  CallSendRequest (object [("type", str "frames")])]))).
Proof.
  apply (context_errors_block_queue LocalURLHelper
           [CallProcessCommand
              (object [("from", str "context2"); ("error", str "wrongState")]);
            CallSendRequest (object [("type", str "frames")])]
           (set_processing (new_Actor ContextActor "context2")
              (Some {| body := object [("type", str "frames"); ("to", str "context2")];
                       _capability := 0 |}) [])
           {| body := object [("type", str "frames"); ("to", str "context2")];
              _capability := 0 |} 1).
  - reflexivity.
  - reflexivity.
  - repeat constructor.
Defined.

(** ** A second [evaluate] *)

Lemma sendRequest_keeps_evaluate a next body :
  keeps_evaluate a (fst (fst (sendRequest a next body))) (snd (fst (sendRequest a next body))).
Proof. unfold sendRequest. destruct (_processing a); split; simpl; constructor. Qed.

Lemma sendNext_keeps_evaluate a :
  keeps_evaluate a (fst (sendNext a)) (snd (sendNext a)).
Proof. unfold sendNext. destruct (_queue a); split; simpl; constructor. Qed.

Lemma processResponse_keeps_evaluate a body :
  keeps_evaluate a (fst (fst (processResponse a body))) (snd (fst (processResponse a body))).
Proof.
  unfold processResponse. destruct (_processing a); [|split; constructor].
  pose proof (sendNext_keeps_evaluate a) as H. destruct (sendNext a). exact H.
Qed.

Lemma Actor_processError_keeps_evaluate a body :
  keeps_evaluate a (fst (fst (Actor_processError a body)))
    (snd (fst (Actor_processError a body))).
Proof.
  unfold Actor_processError. destruct (_processing a); [|split; constructor].
  pose proof (sendNext_keeps_evaluate a) as H. destruct (sendNext a). exact H.
Qed.

Section Evaluations.
Variable urlHelper : IURLHelper.

Lemma processError_keeps_evaluate a body :
  keeps_evaluate a (fst (fst (processError a body))) (snd (fst (processError a body))).
Proof.
  unfold processError.
  destruct (class a); try apply Actor_processError_keeps_evaluate.
  destruct (_ || _); [|apply Actor_processError_keeps_evaluate].
  destruct (_evaluateCapabilty a) eqn:E; split; simpl; rewrite ?E; repeat constructor.
Qed.

Lemma processNotification_keeps_evaluate a body es handled :
  processNotification urlHelper a body = Some (es, handled) ->
  Forall (fun k => _evaluateCapabilty a = Some k) (omap evaluate_settled es).
Proof.
  unfold processNotification. destruct (class a).
  - intros [= <- <-]. constructor.
  - destruct (_ || _); [|intros [= <- <-]; constructor].
    unfold printMessage. destruct (nullish _); [discriminate|].
    destruct (get (get body "message") "arguments"); try discriminate.
    intros [= <- <-]. constructor.
  - destruct (is_string _ "tabAttached"); [intros [= <- <-]; constructor|].
    destruct (is_string _ "frameUpdate"); intros [= <- <-]; constructor.
  - destruct (is_string _ "paused").
    + destruct (is_string _ "clientEvaluated"); [|intros [= <- <-]; constructor].
      destruct (_evaluateCapabilty a) as [e|]; [|discriminate].
      destruct (formatReturnValue _); [|discriminate].
      intros [= <- <-]. repeat constructor.
    + destruct (is_string _ "resumed"); [intros [= <- <-]; constructor|].
      destruct (is_string _ "newGlobal"); [intros [= <- <-]; constructor|].
      destruct (is_string _ "newSource"); [|intros [= <- <-]; constructor].
      unfold newSource. destruct (nullish _); [discriminate|].
      destruct (negb _); [intros [= <- <-]; constructor|].
      destruct (get (get body "source") "url"); try discriminate.
      destruct (bool_decide _); intros [= <- <-]; constructor.
  - intros [= <- <-]. constructor.
  - intros [= <- <-]. constructor.
  - intros [= <- <-]. constructor.
  - intros [= <- <-]. constructor.
Qed.

Lemma Actor_processCommand_keeps_evaluate a body a' es handled :
  Actor_processCommand urlHelper a body = Some (a', es, handled) ->
  keeps_evaluate a a' es.
Proof.
  unfold Actor_processCommand. destruct (nullish body); [discriminate|].
  destruct (truthy (get body "type")).
  - destruct (processNotification urlHelper a body) as [[es' h]|] eqn:E; [|discriminate].
    intros [= <- <- <-]. split; [reflexivity|].
    eapply processNotification_keeps_evaluate; eassumption.
  - destruct (truthy (get body "error")).
    + pose proof (processError_keeps_evaluate a body) as H.
      destruct (processError a body) as [[a1 es1] h1]. intros [= <- <- <-]. exact H.
    + pose proof (processResponse_keeps_evaluate a body) as H.
      destruct (processResponse a body) as [[a1 es1] h1]. intros [= <- <- <-]. exact H.
Qed.

Lemma keeps_evaluate_defer a a' es c k :
  keeps_evaluate a a' es -> keeps_evaluate a a' (es ++ [Defer c k]).
Proof.
  intros [H1 H2]. split; [exact H1|]. rewrite omap_app. simpl. now rewrite app_nil_r.
Qed.

Lemma processCommand_keeps_evaluate a next body a' es handled next' :
  processCommand urlHelper a next body = Some (a', es, handled, next') ->
  next <= next' /\ keeps_evaluate a a' es.
Proof.
  unfold processCommand.
  assert (Hgen :
    match Actor_processCommand urlHelper a body with
    | Some (a'0, es0, handled0) => Some (a'0, es0, handled0, next)
    | None => None
    end = Some (a', es, handled, next') -> next <= next' /\ keeps_evaluate a a' es).
  { destruct (Actor_processCommand urlHelper a body) as [[[a1 es1] h1]|] eqn:E;
      [|discriminate].
    intros [= <- <- <- <-]. split; [lia|].
    eapply Actor_processCommand_keeps_evaluate; eassumption. }
  destruct (class a); try exact Hgen.
  destruct (_tabState a); try exact Hgen.
  pose proof (sendRequest_keeps_evaluate (set_tabState a SELECT_TAB) next
                (object [("type", str "listTabs")])) as H.
  assert (Hn : snd (sendRequest (set_tabState a SELECT_TAB) next
                      (object [("type", str "listTabs")])) = S next)
    by (unfold sendRequest; now destruct (_processing _)).
  destruct (sendRequest _ next _) as [[a1 es1] n1]. simpl in H, Hn.
  intros [= <- <- <- <-]. split; [lia|]. now apply keeps_evaluate_defer.
Qed.

Lemma sendRequest_no_evaluate a next body :
  _evaluateCapabilty (fst (fst (sendRequest a next body))) = _evaluateCapabilty a
  /\ class (fst (fst (sendRequest a next body))) = class a
  /\ omap evaluate_settled (snd (fst (sendRequest a next body))) = []
  /\ snd (sendRequest a next body) = S next.
Proof. unfold sendRequest. destruct (_processing a); simpl; auto. Qed.

(** [evaluate] stores the new capability [next] and settles none. *)
Lemma evaluate_stores a next expr frame :
  _evaluateCapabilty (fst (fst (evaluate a next expr frame))) = Some next
  /\ class (fst (fst (evaluate a next expr frame))) = class a
  /\ omap evaluate_settled (snd (fst (evaluate a next expr frame))) = []
  /\ snd (evaluate a next expr frame) = S (S next).
Proof.
  unfold evaluate.
  pose proof (sendRequest_no_evaluate (set_evaluateCapabilty a (Some next)) (S next)
                (object [("type", str "frames");
                         ("startFrame", if is_undefined frame then number 0 else frame);
                         ("count", number 1)])) as (H1 & H2 & H3 & H4).
  destruct (sendRequest _ (S next) _) as [[a1 es1] n1]. simpl in *.
  rewrite omap_app, H3. auto.
Qed.

(** One call: the capabilities of [evaluate] it settles are the one
    stored before it; the one stored after it is the same or a new one. *)
Lemma call_evaluate_capability a next c a' es next' :
  call urlHelper a next c = Some (a', es, next') ->
  next <= next'
  /\ (_evaluateCapabilty a' = _evaluateCapabilty a
      \/ exists k, next <= k < next' /\ _evaluateCapabilty a' = Some k)
  /\ Forall (fun k => _evaluateCapabilty a = Some k) (omap evaluate_settled es).
Proof.
  destruct c as [body|body|body|reason|expr frame]; simpl.
  - pose proof (sendRequest_no_evaluate a next body) as (H1 & _ & H3 & H4).
    destruct (sendRequest a next body) as [[a1 es1] n1]. simpl in *.
    intros [= <- <- <-]. rewrite H3. split; [lia|]. split; [now left|constructor].
  - intros [= <- <- <-]. split; [lia|]. split; [now left|constructor].
  - destruct (processCommand urlHelper a next body) as [[[[a1 es1] h1] n1]|] eqn:E;
      [|discriminate].
    intros [= <- <- <-]. apply processCommand_keeps_evaluate in E as (Hn & H1 & H2).
    split; [exact Hn|]. split; [now left|exact H2].
  - destruct (class a); try discriminate.
    intros [= <- <- <-]. split; [lia|]. split; [now left|].
    unfold resume. destruct (negb _); constructor.
  - destruct (class a); try discriminate.
    pose proof (evaluate_stores a next expr frame) as (H1 & _ & H3 & H4).
    destruct (evaluate a next expr frame) as [[a1 es1] n1]. simpl in *.
    intros [= <- <- <-]. rewrite H3. split; [lia|]. split; [|constructor].
    right. exists next. split; [lia|exact H1].
Qed.

(** A capability of [evaluate] that the actor does not hold any more is
    settled by none of its methods, whatever is called. *)
Lemma calls_evaluate_dropped e cs : forall a next,
  e < next ->
  _evaluateCapabilty a <> Some e ->
  Forall (fun k => k <> e) (omap evaluate_settled (snd (fst (calls urlHelper a next cs)))).
Proof.
  induction cs as [|c cs IH]; intros a next Hlt Hne; [constructor|].
  cbn [calls]. destruct (call urlHelper a next c) as [[[a' es] next']|] eqn:E;
    [|now apply IH].
  apply call_evaluate_capability in E as (Hn & Hcap & Hes).
  specialize (IH a' next').
  destruct (calls urlHelper a' next' cs) as [[a'' es'] next'']. simpl in *.
  rewrite omap_app. apply Forall_app. split.
  - eapply Forall_impl; [exact Hes|]. intros k Hk ->. contradiction.
  - apply IH; [lia|]. destruct Hcap as [->|(k & Hk & ->)]; [exact Hne|].
    intros [= ->]. lia.
Qed.

End Evaluations.

(** ** The chain of [evaluate] *)

Lemma evaluate_callback_rejects a expr evaluate e k cause :
  In (EvaluateRejected k cause) (evaluate_callback a expr evaluate e) ->
  k = evaluate
  /\ exists r body,
       settled_request e = Some r
       /\ ((e = Fail r body /\ cause = RequestFailed body)
           \/ (e = Respond r body /\ frame_actor body = None /\ cause = CallbackThrew)).
Proof.
  destruct e; simpl; try contradiction.
  - destruct (frame_actor response) eqn:Ef; simpl; intros [H|[]]; [discriminate|].
    injection H as <- <-. split; [reflexivity|]. do 2 eexists. split; [reflexivity|].
    right. auto.
  - intros [H|[]]. injection H as <- <-. split; [reflexivity|].
    do 2 eexists. split; [reflexivity|]. left. auto.
Qed.

(** A rejection among the reactions comes from a chain that was waiting
    or was added in the trace, and from the settlement of its request. *)
Lemma evaluate_reactions_rejects a es : forall waiting k cause,
  In (EvaluateRejected k cause) (evaluate_reactions a waiting es) ->
  exists c,
    ((exists expr, In (c, (expr, k)) waiting) \/ In (c, k) (omap evaluate_deferred es))
    /\ frames_request_failed c cause es.
Proof.
  induction es as [|e es IH]; intros waiting k cause Hin; [contradiction|].
  assert (Hrest : forall w,
            In (EvaluateRejected k cause) (evaluate_reactions a w es) ->
            (forall c expr, In (c, (expr, k)) w ->
               (exists expr', In (c, (expr', k)) waiting)
               \/ evaluate_deferred e = Some (c, k)) ->
            exists c,
              ((exists expr, In (c, (expr, k)) waiting)
               \/ In (c, k) (omap evaluate_deferred (e :: es)))
              /\ frames_request_failed c cause (e :: es)).
  { intros w Hw Hsub. destruct (IH _ _ _ Hw) as (c & Hc & r & body & Hr & Hf).
    exists c. split.
    - rewrite ActorFacts.omap_cons.
      destruct Hc as [[expr Hc]|Hc].
      + destruct (Hsub _ _ Hc) as [Hl|Hd]; [now left|]. right. rewrite Hd. now left.
      + right. destruct (evaluate_deferred e); [now right|exact Hc].
    - exists r, body. split; [exact Hr|].
      destruct Hf as [[Hf ->]|(Hf & Hn & ->)]; [left|right]; auto using in_cons. }
  assert (Hsettle : forall r,
            settled_request e = Some r -> evaluate_deferred e = None ->
            In (EvaluateRejected k cause)
              (flat_map
                 (fun w => if Nat.eqb (fst w) (_capability r)
                           then evaluate_callback a (fst (snd w)) (snd (snd w)) e
                           else [])
                 waiting
               ++ evaluate_reactions a
                    (List.filter (fun w => negb (Nat.eqb (fst w) (_capability r))) waiting)
                    es) ->
            exists c,
              ((exists expr, In (c, (expr, k)) waiting)
               \/ In (c, k) (omap evaluate_deferred (e :: es)))
              /\ frames_request_failed c cause (e :: es)).
  { intros r Hr Hd Hin'. apply in_app_or in Hin' as [Hnow|Hlater].
    - apply in_flat_map in Hnow as ([c [expr ev]] & Hw & Hcb). simpl in Hcb.
      destruct (Nat.eqb_spec c (_capability r)) as [->|]; [|contradiction].
      apply evaluate_callback_rejects in Hcb as (-> & r' & body & Hr' & Hcase).
      assert (r' = r) as -> by congruence.
      exists (_capability r). split; [left; eauto|].
      exists r, body. split; [reflexivity|].
      destruct Hcase as [[-> ->]|(-> & Hn & ->)]; [left|right]; auto using in_eq.
    - apply (Hrest _ Hlater). intros c expr Hc. left. exists expr.
      apply filter_In in Hc. tauto. }
  destruct e; try (apply (Hrest waiting Hin); intros; left; eauto).
  - apply (Hsettle _ eq_refl eq_refl Hin).
  - apply (Hsettle _ eq_refl eq_refl Hin).
  - destruct k0; try (apply (Hrest waiting Hin); intros; left; eauto).
    cbn [evaluate_reactions] in Hin. apply (Hrest _ Hin).
    intros c expr' Hc. apply in_app_or in Hc as [Hc|[Hc|[]]]; [left; eauto|].
    injection Hc as <- <- <-. now right.
Qed.

(** The methods other than [evaluate] add no chain. *)
Lemma sendRequest_no_chain a next body :
  omap evaluate_deferred (snd (fst (sendRequest a next body))) = [].
Proof. unfold sendRequest. now destruct (_processing a). Qed.

Lemma sendNext_no_chain a : omap evaluate_deferred (snd (sendNext a)) = [].
Proof. unfold sendNext. now destruct (_queue a). Qed.

Section Chains.
Variable urlHelper : IURLHelper.

Lemma processNotification_no_chain a body es handled :
  processNotification urlHelper a body = Some (es, handled) ->
  omap evaluate_deferred es = [].
Proof.
  unfold processNotification. destruct (class a).
  - now intros [= <- <-].
  - destruct (_ || _); [|now intros [= <- <-]].
    unfold printMessage. destruct (nullish _); [discriminate|].
    destruct (get (get body "message") "arguments"); try discriminate.
    now intros [= <- <-].
  - destruct (is_string _ "tabAttached"); [now intros [= <- <-]|].
    destruct (is_string _ "frameUpdate"); now intros [= <- <-].
  - destruct (is_string _ "paused").
    + destruct (is_string _ "clientEvaluated"); [|now intros [= <- <-]].
      destruct (_evaluateCapabilty a) as [e|]; [|discriminate].
      destruct (formatReturnValue _); [|discriminate].
      now intros [= <- <-].
    + destruct (is_string _ "resumed"); [now intros [= <- <-]|].
      destruct (is_string _ "newGlobal"); [now intros [= <- <-]|].
      destruct (is_string _ "newSource"); [|now intros [= <- <-]].
      unfold newSource. destruct (nullish _); [discriminate|].
      destruct (negb _); [now intros [= <- <-]|].
      destruct (get (get body "source") "url"); try discriminate.
      destruct (bool_decide _); now intros [= <- <-].
  - now intros [= <- <-].
  - now intros [= <- <-].
  - now intros [= <- <-].
  - now intros [= <- <-].
Qed.

Lemma Actor_processError_no_chain a body :
  omap evaluate_deferred (snd (fst (Actor_processError a body))) = [].
Proof.
  unfold Actor_processError. destruct (_processing a); [|reflexivity].
  pose proof (sendNext_no_chain a) as H. now destruct (sendNext a).
Qed.

Lemma Actor_processCommand_no_chain a body a' es handled :
  Actor_processCommand urlHelper a body = Some (a', es, handled) ->
  omap evaluate_deferred es = [].
Proof.
  unfold Actor_processCommand. destruct (nullish body); [discriminate|].
  destruct (truthy (get body "type")).
  - destruct (processNotification urlHelper a body) as [[es' h]|] eqn:E; [|discriminate].
    intros [= <- <- <-]. eapply processNotification_no_chain; eassumption.
  - destruct (truthy (get body "error")).
    + assert (H : omap evaluate_deferred (snd (fst (processError a body))) = []).
      { unfold processError.
        destruct (class a); try apply Actor_processError_no_chain.
        destruct (_ || _); [|apply Actor_processError_no_chain].
        now destruct (_evaluateCapabilty a). }
      destruct (processError a body) as [[a1 es1] h1]. now intros [= <- <- <-].
    + assert (H : omap evaluate_deferred (snd (fst (processResponse a body))) = []).
      { unfold processResponse. destruct (_processing a); [|reflexivity].
        pose proof (sendNext_no_chain a) as H. now destruct (sendNext a). }
      destruct (processResponse a body) as [[a1 es1] h1]. now intros [= <- <- <-].
Qed.

Lemma processCommand_no_chain a next body a' es handled next' :
  processCommand urlHelper a next body = Some (a', es, handled, next') ->
  omap evaluate_deferred es = [].
Proof.
  unfold processCommand.
  assert (Hgen :
    match Actor_processCommand urlHelper a body with
    | Some (a'0, es0, handled0) => Some (a'0, es0, handled0, next)
    | None => None
    end = Some (a', es, handled, next') -> omap evaluate_deferred es = []).
  { destruct (Actor_processCommand urlHelper a body) as [[[a1 es1] h1]|] eqn:E;
      [|discriminate].
    intros [= <- <- <- <-]. eapply Actor_processCommand_no_chain; eassumption. }
  destruct (class a); try exact Hgen.
  destruct (_tabState a); try exact Hgen.
  pose proof (sendRequest_no_chain (set_tabState a SELECT_TAB) next
                (object [("type", str "listTabs")])) as H.
  destruct (sendRequest _ next _) as [[a1 es1] n1]. simpl in H.
  intros [= <- <- <- <-]. rewrite omap_app, H. reflexivity.
Qed.

(** The chain that [evaluate] adds waits for the request it has just
    made, whose capability follows that of the call. *)
Lemma evaluate_chain a next expr frame :
  omap evaluate_deferred (snd (fst (evaluate a next expr frame))) = [(S next, next)].
Proof.
  unfold evaluate.
  pose proof (sendRequest_no_chain (set_evaluateCapabilty a (Some next)) (S next)
                (object [("type", str "frames");
                         ("startFrame", if is_undefined frame then number 0 else frame);
                         ("count", number 1)])) as H.
  destruct (sendRequest _ (S next) _) as [[a1 es1] n1]. simpl in *.
  rewrite omap_app, H. reflexivity.
Qed.

Lemma call_chains a next c a' es next' :
  call urlHelper a next c = Some (a', es, next') ->
  Forall (fun ce => fst ce = S (snd ce)) (omap evaluate_deferred es).
Proof.
  destruct c as [body|body|body|reason|expr frame]; simpl.
  - pose proof (sendRequest_no_chain a next body) as H.
    destruct (sendRequest a next body) as [[a1 es1] n1]. simpl in *.
    intros [= <- <- <-]. rewrite H. constructor.
  - intros [= <- <- <-]. constructor.
  - destruct (processCommand urlHelper a next body) as [[[[a1 es1] h1] n1]|] eqn:E;
      [|discriminate].
    intros [= <- <- <-]. rewrite (processCommand_no_chain _ _ _ _ _ _ _ E). constructor.
  - destruct (class a); try discriminate.
    intros [= <- <- <-]. unfold resume. destruct (negb _); constructor.
  - destruct (class a); try discriminate.
    pose proof (evaluate_chain a next expr frame) as H.
    destruct (evaluate a next expr frame) as [[a1 es1] n1]. simpl in *.
    intros [= <- <- <-]. rewrite H. repeat constructor.
Qed.

Lemma calls_chains cs : forall a next,
  Forall (fun ce => fst ce = S (snd ce))
    (omap evaluate_deferred (snd (fst (calls urlHelper a next cs)))).
Proof.
  induction cs as [|c cs IH]; intros a next; [constructor|].
  cbn [calls]. destruct (call urlHelper a next c) as [[[a' es] next']|] eqn:E;
    [|apply IH].
  apply call_chains in E. specialize (IH a' next').
  destruct (calls urlHelper a' next' cs) as [[a'' es'] next'']. simpl in *.
  rewrite omap_app. apply Forall_app. split; assumption.
Qed.

(** X17.  [evaluate] called again before the first evaluation has
    finished.  The actor holds the capability of the second call only:
    whatever it receives afterwards (the [paused] notification that ends
    the first evaluation, an error, later calls), none of its methods
    resolves or rejects the promise of the first call, so that promise is
    never fulfilled.  It is rejected by the [.catch] that the first call
    chained on its own [frames] request, and only then, when that request
    is answered by an error or by a response in which the frame cannot be
    read; otherwise it stays unsettled. *)
Theorem first_evaluate_never_fulfilled a next expr1 frame1 expr2 frame2 cs :
  class a = ContextActor ->
  let es :=
    snd (fst (calls urlHelper a next
                (CallEvaluate expr1 frame1 :: CallEvaluate expr2 frame2 :: cs))) in
  _evaluateCapabilty
    (fst (fst (calls urlHelper a next [CallEvaluate expr1 frame1; CallEvaluate expr2 frame2])))
  = Some (S (S next))
  /\ Forall (fun k => k <> next) (omap evaluate_settled es)
  /\ (forall cause,
        In (EvaluateRejected next cause) (evaluate_reactions a [] es) ->
        frames_request_failed (S next) cause es).
Proof.
  intros Hc es.
  assert (H12 : _evaluateCapabilty
                  (fst (fst (calls urlHelper a next
                               [CallEvaluate expr1 frame1; CallEvaluate expr2 frame2])))
                = Some (S (S next))
                /\ Forall (fun k => k <> next) (omap evaluate_settled es)).
  { unfold es. cbn [calls call]. rewrite Hc.
    pose proof (evaluate_stores a next expr1 frame1) as (H1 & Hc1 & H3 & H4).
    destruct (evaluate a next expr1 frame1) as [[a1 es1] n1]. simpl in H1, Hc1, H3, H4.
    subst n1. rewrite Hc1, Hc.
    pose proof (evaluate_stores a1 (S (S next)) expr2 frame2) as (H1' & Hc2 & H3' & H4').
    destruct (evaluate a1 (S (S next)) expr2 frame2) as [[a2 es2] n2].
    simpl in H1', Hc2, H3', H4'. subst n2.
    pose proof (calls_evaluate_dropped urlHelper next cs a2 (S (S (S (S next))))) as Hcs.
    destruct (calls urlHelper a2 _ cs) as [[a3 es3] n3]. simpl in *.
    split; [exact H1'|].
    rewrite !omap_app, H3, H3'. simpl. apply Hcs; [lia|].
    rewrite H1'. intros [= E]. lia. }
  destruct H12 as [H1 H2]. split; [exact H1|]. split; [exact H2|].
  intros cause Hr.
  apply evaluate_reactions_rejects in Hr as (c & [[expr []]|Hd] & Hf).
  pose proof (calls_chains (CallEvaluate expr1 frame1 :: CallEvaluate expr2 frame2 :: cs)
                a next) as Hall.
  fold es in Hall. rewrite List.Forall_forall in Hall. apply Hall in Hd. simpl in Hd.
  now subst c.
Qed.

End Chains.
(*END*)

(** Two evaluations, then the error reply [noSuchActor] to the [frames]
    request of the first: the chain of the first call rejects its
    promise, capability 0, with the [ActorError] of the reply. *)
Lemma first_evaluate_never_fulfilled_witness :
  evaluate_reactions (new_Actor ContextActor "context2") []
    (snd (fst (calls LocalURLHelper (new_Actor ContextActor "context2") 0
                 [CallEvaluate (str "1 + 1") undefined;
                  CallEvaluate (str "2 + 2") undefined;
                  CallProcessCommand
                    (object [("from", str "context2"); ("error", str "noSuchActor")])])))
  = [EvaluateRejected 0
       (RequestFailed (object [("from", str "context2"); ("error", str "noSuchActor")]))]
  /\ frames_request_failed 1
       (RequestFailed (object [("from", str "context2"); ("error", str "noSuchActor")]))
       (snd (fst (calls LocalURLHelper (new_Actor ContextActor "context2") 0
                    [CallEvaluate (str "1 + 1") undefined;
                     CallEvaluate (str "2 + 2") undefined;
                     CallProcessCommand
                       (object [("from", str "context2");
                                ("error", str "noSuchActor")])]))).
Proof.
  split; [reflexivity|].
  apply (proj2 (proj2
           (first_evaluate_never_fulfilled LocalURLHelper
              (new_Actor ContextActor "context2") 0
              (str "1 + 1") undefined (str "2 + 2") undefined
              [CallProcessCommand
                 (object [("from", str "context2"); ("error", str "noSuchActor")])]
              eq_refl))).
  left. reflexivity.
Defined.

End BrowsingFacts.

(* ===================================================================== *)
(** * Reading the paused program                                          *)
(* ===================================================================== *)

Module InspectionFacts.
Import JS UrlHelper Session Protocol ProtocolFacts UrlFacts.

Local Open Scope string_scope.
Local Open Scope list_scope.

(** ** [ContextActor.getStackTrace] *)

Lemma stack_frame_readable index f :
  stack_frame index f
  = if frame_readable f then Some (stack_entry index f) else None.
Proof.
  unfold stack_frame, frame_readable, stack_entry.
  destruct (nullish f); [reflexivity|].
  destruct (nullish (get f "callee")); [reflexivity|].
  destruct (nullish (get f "where")); [reflexivity|].
  destruct (nullish (get (get f "where") "source")); reflexivity.
Qed.

Lemma stack_frames_readable frames : forall index,
  stack_frames index frames
  = if forallb frame_readable frames
    then Some (imap (fun i f => stack_entry (index + i) f) frames)
    else None.
Proof.
  induction frames as [|f frames IH]; intros index; [reflexivity|].
  cbn [stack_frames forallb imap]. rewrite stack_frame_readable, IH.
  destruct (frame_readable f); [|reflexivity]. cbn [andb].
  destruct (forallb frame_readable frames); [|reflexivity].
  rewrite Nat.add_0_r. do 2 f_equal. apply imap_ext. intros i x _. simpl.
  f_equal. f_equal. f_equal. lia.
Qed.

(** X8.  The callback of [getStackTrace] on a response whose [frames]
    is an array: the trace is all or nothing.  When every frame has a
    [callee], a [where] and a [where.source], there is one entry for each
    frame, in order, with its index as [depth]; one frame without any of
    them, such as a frame of top-level code, which has no [callee], makes
    the callback throw a TypeError for the whole trace. *)
Theorem getStackTrace_all_or_nothing body frames :
  get body "frames" = array frames ->
  getStackTrace_fulfilled body
  = if forallb frame_readable frames then Some (imap stack_entry frames) else None.
Proof.
  intros E. unfold getStackTrace_fulfilled.
  assert (nullish body = false) as -> by (destruct body; try discriminate; reflexivity).
  rewrite E. apply stack_frames_readable.
Qed.

(** A function called from top-level code: the outer frame has no
    [callee]. *)
Lemma getStackTrace_all_or_nothing_witness :
  getStackTrace_fulfilled
    (object [("frames", array
       [object [("callee", object [("name", str "f")]);
                ("where", object [("source", object [("url", str "file:///a.js")]);
                                  ("line", number 3)])];
        object [("type", str "global");
                ("where", object [("source", object [("url", str "file:///a.js")]);
                                  ("line", number 9)])]])])
  = None.
Proof.
  apply (getStackTrace_all_or_nothing _
    [object [("callee", object [("name", str "f")]);
             ("where", object [("source", object [("url", str "file:///a.js")]);
                               ("line", number 3)])];
     object [("type", str "global");
             ("where", object [("source", object [("url", str "file:///a.js")]);
                               ("line", number 9)])]]).
  reflexivity.
Defined.

(** ** One-shot actors *)

Lemma construct_one_shot c nm next :
  one_shot_class c = true -> construct c nm next = (new_Actor c nm, [], next).
Proof. destruct c; try discriminate; reflexivity. Qed.

(** The request a fresh actor named [nm] sends for [body], as
    capability number [c0]. *)
Lemma exec_register_request c nm body (k : nat -> nat -> async) p :
  one_shot_class c = true ->
  let a := length (actors p) in
  let c0 := length (capabilities p) in
  let r := {| body := stamp_to (new_Actor c nm) body; _capability := c0 |} in
  exec (NewActor c nm (fun this => AddActor this (SendRequest this body (k this)))) p
  = exec (k a c0)
      {| actors := actors p ++ [set_processing (new_Actor c nm) (Some r) []];
         _map := <[nm := a]> (_map p);
         capabilities := capabilities p ++ [None];
         log := log p ++ [(a, NewRequest r); (a, RelayRequest r)] |}.
Proof.
  intros Hc a c0 r. rewrite exec_NewActor.
  rewrite (newActor_plain p c nm (construct_one_shot c nm _ Hc)).
  fold a. cbn [exec]. unfold addActor. cbn [actors].
  rewrite lookup_app_r by (unfold a; lia). unfold a. rewrite Nat.sub_diag. simpl.
  rewrite lookup_app_r by lia. rewrite Nat.sub_diag. simpl.
  unfold commit. simpl. rewrite succ_minus. simpl.
  rewrite insert_app_r_alt by lia. rewrite Nat.sub_diag. simpl.
  reflexivity.
Qed.

Lemma exec_Then_pending c f g p :
  capabilities p !! c = Some None -> exec (Then c f g) p = (p, Then c f g).
Proof. intros H. simpl. now rewrite H. Qed.

Lemma sent_app p l :
  omap (fun ae : nat * Effect =>
          match snd ae with RelayRequest r => Some (fst ae, r) | _ => None end)
       (log p ++ l)
  = sent p ++ omap (fun ae : nat * Effect =>
          match snd ae with RelayRequest r => Some (fst ae, r) | _ => None end) l.
Proof. unfold sent. apply omap_app. Qed.

Lemma exec_one_shot c nm body p :
  one_shot_class c = true ->
  exec (one_shot c nm body) p
  = ({| actors :=
          actors p
          ++ [set_processing (new_Actor c nm)
                (Some {| body := stamp_to (new_Actor c nm) body;
                         _capability := length (capabilities p) |}) []];
        _map := <[nm := length (actors p)]> (_map p);
        capabilities := capabilities p ++ [None];
        log := log p
               ++ [(length (actors p),
                    NewRequest {| body := stamp_to (new_Actor c nm) body;
                                  _capability := length (capabilities p) |});
                   (length (actors p),
                    RelayRequest {| body := stamp_to (new_Actor c nm) body;
                                    _capability := length (capabilities p) |})] |},
     deregistering (length (actors p)) (Then (length (capabilities p)) Return Throw)).
Proof.
  intros Hc.
  pose proof (exec_register_request c nm body
                (fun this c0 => deregistering this (Then c0 Return Throw)) p Hc) as E.
  cbv zeta in E.
  match goal with |- ?l = _ => set (cfg := l) end.
  match type of E with _ = ?rhs => assert (Ecfg : cfg = rhs) by exact E end.
  rewrite Ecfg. clear E Ecfg cfg.
  cbn [then_ deregistering].
  now rewrite exec_Then_pending
    by (cbn [capabilities]; rewrite lookup_app_r by lia; now rewrite Nat.sub_diag).
Qed.

Lemma from_name m nm :
  is_string (get m "from") nm = true -> get m "from" = str nm.
Proof.
  destruct (get m "from"); try discriminate. simpl.
  intros H. apply bool_decide_eq_true in H. now subst.
Qed.

(** A message from a name that is not registered is dropped. *)
Lemma onExecuteCommand_unregistered urlHelper p m nm :
  is_string (get m "from") nm = true ->
  _map p !! nm = None ->
  onExecuteCommand urlHelper p m = p.
Proof.
  intros Hf Hm. apply from_name in Hf. unfold onExecuteCommand.
  destruct (_ || _); [reflexivity|]. rewrite Hf. simpl. now rewrite Hm.
Qed.

(** The response to the request in flight of a one-shot actor. *)
Lemma one_shot_response urlHelper c nm r p a reply :
  one_shot_class c = true ->
  nm <> "" ->
  is_response_from nm reply ->
  _map p !! nm = Some a ->
  actors p !! a = Some (set_processing (new_Actor c nm) (Some r) []) ->
  capabilities p !! _capability r = Some None ->
  onExecuteCommand urlHelper p reply
  = {| actors := <[a := new_Actor c nm]> (actors p);
       _map := _map p;
       capabilities := <[_capability r := Some (Fulfilled reply)]> (capabilities p);
       log := log p ++ [(a, Respond r reply)] |}.
Proof.
  intros Hc Hnm [Hr He] Hm Ha Hcap.
  unfold is_reply_from in Hr. apply andb_prop in Hr as [Hfrom Htype].
  apply negb_true_iff in Htype. pose proof (from_name _ _ Hfrom) as Ef.
  assert (Hb : truthy reply = true).
  { destruct reply; try discriminate; reflexivity. }
  assert (Hn : nullish reply = false).
  { destruct reply; try discriminate; reflexivity. }
  unfold onExecuteCommand. rewrite Hb, Ef. simpl truthy.
  rewrite (bool_decide_eq_false_2 _ Hnm). simpl.
  rewrite Hm, Ha.
  assert (Ep : processCommand urlHelper
                 (set_processing (new_Actor c nm) (Some r) [])
                 (length (capabilities p)) reply
               = Some (new_Actor c nm, [Respond r reply], true, length (capabilities p))).
  { unfold processCommand, Actor_processCommand.
    destruct c; try discriminate; simpl; rewrite Hn, Htype, He; reflexivity. }
  rewrite Ep. unfold commit. simpl. rewrite Nat.sub_diag. simpl. rewrite app_nil_r.
  unfold settle_in. rewrite Hcap. reflexivity.
Qed.

Lemma run_all_dropped urlHelper nm c1 f g reply later : forall p,
  Forall (fun m => is_string (get m "from") nm = true) later ->
  _map p !! nm = None ->
  capabilities p !! c1 = Some None ->
  run_all urlHelper (p, [Then c1 f g; Return reply]) later
  = (p, [Then c1 f g; Return reply]).
Proof.
  induction later as [|m later IH]; intros p Hl Hm Hc; [reflexivity|].
  apply Forall_cons in Hl as [Hf Hl].
  change (run_all urlHelper (p, [Then c1 f g; Return reply]) (m :: later))
    with (run_all urlHelper
            (exec_all [Then c1 f g; Return reply] (onExecuteCommand urlHelper p m)) later).
  rewrite (onExecuteCommand_unregistered urlHelper p m nm Hf Hm).
  cbn [exec_all]. rewrite (exec_Then_pending _ _ _ _ Hc). cbn [exec].
  now apply IH.
Qed.

(** X10.  Two one-shot actors of the same name with a request each in
    flight (two [getVariables] for one reference, say): the second
    registration replaces the first, so the first response that arrives,
    the answer to the first request, fulfils the promise of the second and
    deregisters the name; the promise of the first is then never settled,
    whatever else the server sends under that name. *)
Theorem one_shots_sharing_a_name urlHelper c nm body1 body2 reply later p0 :
  one_shot_class c = true ->
  nm <> "" ->
  is_response_from nm reply ->
  Forall (fun m => is_string (get m "from") nm = true) later ->
  let first := length (actors p0) in
  let c1 := length (capabilities p0) in
  let cfg :=
    run_all urlHelper (exec_all [one_shot c nm body1; one_shot c nm body2] p0)
      (reply :: later) in
  snd cfg = [deregistering first (Then c1 Return Throw); Return reply]
  /\ capabilities (fst cfg) !! c1 = Some None
  /\ _map (fst cfg) !! nm = None.
Proof.
  intros Hc Hnm Hreply Hlater first c1 cfg. unfold cfg. clear cfg.
  cbn [exec_all]. rewrite (exec_one_shot c nm body1 p0 Hc).
  set (p1 := {| actors := _ |}).
  rewrite (exec_one_shot c nm body2 p1 Hc).
  set (p2 := {| actors := _ |}).
  set (r2 := {| body := stamp_to (new_Actor c nm) body2;
                _capability := length (capabilities p1) |}).
  assert (Hl1 : length (capabilities p1) = S c1)
    by (unfold p1; cbn [capabilities]; rewrite length_app; simpl; unfold c1; lia).
  assert (Ha1 : length (actors p1) = S first)
    by (unfold p1; cbn [actors]; rewrite length_app; simpl; unfold first; lia).
  change (run_all urlHelper
            (p2, [deregistering (length (actors p0)) (Then (length (capabilities p0)) Return Throw);
                  deregistering (length (actors p1)) (Then (length (capabilities p1)) Return Throw)])
            (reply :: later))
    with (run_all urlHelper
            (exec_all [deregistering first (Then c1 Return Throw);
                       deregistering (length (actors p1))
                         (Then (length (capabilities p1)) Return Throw)]
               (onExecuteCommand urlHelper p2 reply)) later).
  rewrite (one_shot_response urlHelper c nm r2 p2 (length (actors p1)) reply Hc Hnm Hreply).
  2:{ unfold p2. cbn [_map]. apply lookup_insert_eq. }
  2:{ unfold p2. cbn [actors]. rewrite lookup_app_r by lia. now rewrite Nat.sub_diag. }
  2:{ unfold p2, r2. cbn [capabilities _capability].
      rewrite lookup_app_r by lia. now rewrite Nat.sub_diag. }
  set (p3 := {| actors := _ |}).
  assert (Hc1 : capabilities p3 !! c1 = Some None).
  { unfold p3, r2. cbn [capabilities _capability]. rewrite Hl1.
    rewrite list_lookup_insert_ne by lia. unfold p2. cbn [capabilities].
    rewrite lookup_app_l by lia. unfold p1. cbn [capabilities].
    rewrite lookup_app_r by (unfold c1; lia). unfold c1. now rewrite Nat.sub_diag. }
  assert (Hc2 : capabilities p3 !! length (capabilities p1) = Some (Some (Fulfilled reply))).
  { unfold p3, r2. cbn [capabilities _capability]. apply list_lookup_insert_eq.
    unfold p2. cbn [capabilities]. rewrite length_app. simpl. lia. }
  assert (Ha3 : actors p3 !! length (actors p1) = Some (new_Actor c nm)).
  { unfold p3. cbn [actors]. apply list_lookup_insert_eq.
    unfold p2. cbn [actors]. rewrite length_app. simpl. lia. }
  cbn [exec_all deregistering then_].
  rewrite (exec_Then_pending _ _ _ _ Hc1).
  rewrite (exec_Then_fulfilled _ _ _ _ _ Hc2). cbn [exec].
  set (p4 := removeActor p3 (length (actors p1))).
  assert (Hm4 : _map p4 !! nm = None).
  { unfold p4, removeActor. rewrite Ha3. cbn [_map set_map name new_Actor].
    apply lookup_delete_eq. }
  assert (Hc4 : capabilities p4 !! c1 = Some None).
  { unfold p4, removeActor. rewrite Ha3. exact Hc1. }
  rewrite (run_all_dropped urlHelper nm c1 _ _ reply later p4 Hlater Hm4 Hc4).
  cbn [fst snd]. auto.
Qed.

(** Two [prototypeAndProperties] requests for the grip ["obj7"]. *)
Lemma one_shots_sharing_a_name_witness :
  snd (run_all LocalURLHelper
         (exec_all [one_shot GripActor "obj7" (object [("type", str "prototypeAndProperties")]);
                    one_shot GripActor "obj7" (object [("type", str "prototypeAndProperties")])]
            empty)
         [object [("from", str "obj7"); ("ownProperties", object [])];
          object [("from", str "obj7"); ("ownProperties", object [])]])
  = [deregistering 0 (Then 0 Return Throw);
     Return (object [("from", str "obj7"); ("ownProperties", object [])])].
Proof.
  apply (one_shots_sharing_a_name LocalURLHelper GripActor "obj7"
           (object [("type", str "prototypeAndProperties")])
           (object [("type", str "prototypeAndProperties")])
           (object [("from", str "obj7"); ("ownProperties", object [])])
           [object [("from", str "obj7"); ("ownProperties", object [])]] empty).
  - reflexivity.
  - discriminate.
  - split; reflexivity.
  - repeat constructor.
Defined.

Section VariablesFacts.

Variable own_properties : value -> option (list (string * value)).

(** X9.  [getVariables] and the ids of [getScopes]: the id
    ['env!' + actor] of a scope sends a [bindings] request to a fresh
    [EnvironmentActor] registered under that actor's name; any id that
    does not begin with ['env!'] sends a [prototypeAndProperties] request
    to a fresh [GripActor] registered under the id itself. *)
Theorem getVariables_routes p :
  (forall nm,
     let cfg := exec (getVariables own_properties (EnvironmentVariablesPrefix +:+ nm)) p in
     sent (fst cfg)
     = sent p ++ [(length (actors p),
                   {| body := object [("type", str "bindings"); ("to", str nm)];
                      _capability := length (capabilities p) |})]
     /\ _map (fst cfg) !! nm = Some (length (actors p))
     /\ class <$> actors (fst cfg) !! length (actors p) = Some EnvironmentActor)
  /\ (forall refId,
        String.prefix EnvironmentVariablesPrefix refId = false ->
        let cfg := exec (getVariables own_properties refId) p in
        sent (fst cfg)
        = sent p ++ [(length (actors p),
                      {| body := object [("type", str "prototypeAndProperties");
                                         ("to", str refId)];
                         _capability := length (capabilities p) |})]
        /\ _map (fst cfg) !! refId = Some (length (actors p))
        /\ class <$> actors (fst cfg) !! length (actors p) = Some GripActor).
Proof.
  split.
  - intros nm. unfold getVariables.
    rewrite prefix_app, substring_from_app.
    pose proof (exec_register_request EnvironmentActor nm
                  (object [("type", str "bindings")])
                  (fun this c0 =>
                     then_ (deregistering this
                              (then_ (Then c0 Return Throw)
                                 (fun body => if nullish body then Throw type_error
                                              else Return (get body "bindings"))
                                 Throw))
                       (returning (getVariables_bindings own_properties)) Throw)
                  p eq_refl) as E.
    cbv zeta in E. cbv zeta.
    match goal with |- context [exec ?t p] => set (cfg := exec t p) end.
    match type of E with _ = ?rhs => assert (Ecfg : cfg = rhs) by exact E end.
    rewrite Ecfg. clear E Ecfg cfg.
    cbn [then_ deregistering].
    rewrite exec_Then_pending
      by (cbn [capabilities]; rewrite lookup_app_r by lia; now rewrite Nat.sub_diag).
    cbn [fst]. unfold sent at 1. cbn [log actors _map]. rewrite sent_app.
    split; [reflexivity|]. split; [apply lookup_insert_eq|].
    rewrite lookup_app_r by lia. now rewrite Nat.sub_diag.
  - intros refId Hp. unfold getVariables. rewrite Hp.
    pose proof (exec_register_request GripActor refId
                  (object [("type", str "prototypeAndProperties")])
                  (fun this c0 =>
                     then_ (deregistering this (Then c0 Return Throw))
                       (returning (getVariables_grip own_properties)) Throw)
                  p eq_refl) as E.
    cbv zeta in E. cbv zeta.
    match goal with |- context [exec ?t p] => set (cfg := exec t p) end.
    match type of E with _ = ?rhs => assert (Ecfg : cfg = rhs) by exact E end.
    rewrite Ecfg. clear E Ecfg cfg.
    cbn [then_ deregistering].
    rewrite exec_Then_pending
      by (cbn [capabilities]; rewrite lookup_app_r by lia; now rewrite Nat.sub_diag).
    cbn [fst]. unfold sent at 1. cbn [log actors _map]. rewrite sent_app.
    split; [reflexivity|]. split; [apply lookup_insert_eq|].
    rewrite lookup_app_r by lia. now rewrite Nat.sub_diag.
Qed.

End VariablesFacts.

(** ** The answer to [getVariables] *)

Lemma exec_returning f body p : exec (returning f body) p = (p, returning f body).
Proof. unfold returning. now destruct (f body). Qed.

Lemma response_not_nullish nm reply : is_response_from nm reply -> nullish reply = false.
Proof.
  intros [Hr _]. unfold is_reply_from in Hr. apply andb_prop in Hr as [Hf _].
  destruct reply; try discriminate; reflexivity.
Qed.

(** A fresh one-shot actor named [nm] sends [body] and the response
    [reply] arrives: the callback [K] chained on the request runs on
    [reply], the actor object being the one registered under [nm]. *)
Lemma one_shot_answered urlHelper c nm body (K : nat -> value -> async)
    (G : nat -> Reason -> async) p reply :
  one_shot_class c = true ->
  nm <> "" ->
  is_response_from nm reply ->
  exists p2,
    receive urlHelper
      (exec (NewActor c nm
               (fun this =>
                  AddActor this
                    (SendRequest this body (fun c0 => Then c0 (K this) (G this))))) p)
      reply
    = exec (K (length (actors p)) reply) p2
    /\ actors p2 !! length (actors p) = Some (new_Actor c nm)
    /\ _map p2 !! nm = Some (length (actors p)).
Proof.
  intros Hc Hnm Hreply.
  pose proof (exec_register_request c nm body (fun this c0 => Then c0 (K this) (G this))
                p Hc) as E.
  cbv zeta in E.
  match goal with |- context [exec ?t p] => set (cfg := exec t p) end.
  match type of E with _ = ?rhs => assert (Ecfg : cfg = rhs) by exact E end.
  rewrite Ecfg. clear E Ecfg cfg.
  rewrite exec_Then_pending
    by (cbn [capabilities]; rewrite lookup_app_r by lia; now rewrite Nat.sub_diag).
  unfold receive. cbn [fst snd].
  set (r := {| body := stamp_to (new_Actor c nm) body; _capability := _ |}).
  set (p1 := {| actors := _ |}).
  assert (Hl : length (actors p1) = S (length (actors p)))
    by (unfold p1; cbn [actors]; rewrite length_app; simpl; lia).
  assert (Hk : length (capabilities p1) = S (length (capabilities p)))
    by (unfold p1; cbn [capabilities]; rewrite length_app; simpl; lia).
  rewrite (one_shot_response urlHelper c nm r p1 (length (actors p)) reply Hc Hnm Hreply).
  2:{ unfold p1. cbn [_map]. apply lookup_insert_eq. }
  2:{ unfold p1. cbn [actors]. rewrite lookup_app_r by lia. now rewrite Nat.sub_diag. }
  2:{ unfold p1, r. cbn [capabilities _capability].
      rewrite lookup_app_r by lia. now rewrite Nat.sub_diag. }
  set (p2 := {| actors := _ |}). exists p2.
  split; [|split].
  - apply exec_Then_fulfilled. unfold p2, r. cbn [capabilities _capability].
    apply list_lookup_insert_eq. lia.
  - unfold p2. cbn [actors]. apply list_lookup_insert_eq. lia.
  - unfold p2, p1. cbn [_map]. apply lookup_insert_eq.
Qed.

Lemma removeActor_unregisters p this c nm :
  actors p !! this = Some (new_Actor c nm) -> _map (removeActor p this) !! nm = None.
Proof.
  intros Ha. unfold removeActor. rewrite Ha. cbn [_map set_map name new_Actor].
  apply lookup_delete_eq.
Qed.

Section VariablesAnswered.

Variable own_properties : value -> option (list (string * value)).
Variable urlHelper : IURLHelper.

Lemma getVariables_grip_answered p reply refId :
  String.prefix EnvironmentVariablesPrefix refId = false ->
  refId <> "" ->
  is_response_from refId reply ->
  let cfg := receive urlHelper (exec (getVariables own_properties refId) p) reply in
  snd cfg = returning (getVariables_grip own_properties) reply
  /\ _map (fst cfg) !! refId = None.
Proof.
  intros Hp Hnm Hreply. unfold getVariables. rewrite Hp. cbv zeta.
  destruct (one_shot_answered urlHelper GripActor refId
              (object [("type", str "prototypeAndProperties")])
              (fun this v => RemoveActor this (returning (getVariables_grip own_properties) v))
              (fun this r => RemoveActor this (Throw r))
              p reply eq_refl Hnm Hreply) as (p2 & E & Ha & _).
  match goal with |- context [receive urlHelper ?x reply] => set (cfg := receive urlHelper x reply) end.
  match type of E with _ = ?rhs => assert (Ecfg : cfg = rhs) by exact E end.
  rewrite Ecfg. clear E Ecfg cfg.
  cbn [exec]. rewrite exec_returning. cbn [fst snd].
  split; [reflexivity|]. now apply (removeActor_unregisters _ _ GripActor).
Qed.

Lemma getVariables_bindings_answered p reply nm :
  nm <> "" ->
  is_response_from nm reply ->
  let cfg :=
    receive urlHelper
      (exec (getVariables own_properties (EnvironmentVariablesPrefix +:+ nm)) p) reply in
  snd cfg = returning (getVariables_bindings own_properties) (get reply "bindings")
  /\ _map (fst cfg) !! nm = None.
Proof.
  intros Hnm Hreply. unfold getVariables.
  rewrite prefix_app, substring_from_app. cbv zeta.
  destruct (one_shot_answered urlHelper EnvironmentActor nm
              (object [("type", str "bindings")])
              (fun this v =>
                 then_ (then_ (if nullish v then Throw type_error
                               else Return (get v "bindings"))
                          (fun result => RemoveActor this (Return result))
                          (fun reason => RemoveActor this (Throw reason)))
                   (returning (getVariables_bindings own_properties)) Throw)
              (fun this r => RemoveActor this (Throw r))
              p reply eq_refl Hnm Hreply) as (p2 & E & Ha & _).
  match goal with |- context [receive urlHelper ?x reply] => set (cfg := receive urlHelper x reply) end.
  match type of E with _ = ?rhs => assert (Ecfg : cfg = rhs) by exact E end.
  rewrite Ecfg. clear E Ecfg cfg.
  rewrite (response_not_nullish _ _ Hreply).
  cbn [then_ exec]. rewrite exec_returning. cbn [fst snd].
  split; [reflexivity|]. now apply (removeActor_unregisters _ _ EnvironmentActor).
Qed.

(** X15.  [getVariables(refId)] answered: when the response to its
    request arrives, the actor it registered is deregistered and the
    promise is settled by the callback run on the response, for a grip on
    the response itself, for an environment on its [bindings]; a TypeError
    in the callback rejects the promise. *)
Theorem getVariables_answered p reply :
  (forall nm,
     nm <> "" ->
     is_response_from nm reply ->
     let cfg :=
       receive urlHelper
         (exec (getVariables own_properties (EnvironmentVariablesPrefix +:+ nm)) p) reply in
     snd cfg = match getVariables_bindings own_properties (get reply "bindings") with
               | Some result => Return (array result)
               | None => Throw type_error
               end
     /\ _map (fst cfg) !! nm = None)
  /\ (forall refId,
        String.prefix EnvironmentVariablesPrefix refId = false ->
        refId <> "" ->
        is_response_from refId reply ->
        let cfg := receive urlHelper (exec (getVariables own_properties refId) p) reply in
        snd cfg = match getVariables_grip own_properties reply with
                  | Some result => Return (array result)
                  | None => Throw type_error
                  end
        /\ _map (fst cfg) !! refId = None).
Proof.
  split.
  - intros nm. apply getVariables_bindings_answered.
  - intros refId. apply getVariables_grip_answered.
Qed.

(** X16.  The [__proto__] entry of [getVariables] for a grip: the
    prototype in the response is itself a grip, an object without a
    [value] field, so the entry added after the own properties always
    displays ['(property)'] and carries no id to look further into. *)
Theorem prototype_entry_is_placeholder p reply refId properties fields :
  String.prefix EnvironmentVariablesPrefix refId = false ->
  refId <> "" ->
  is_response_from refId reply ->
  translateProperties own_properties (get reply "ownProperties") = Some properties ->
  get reply "prototype" = object fields ->
  Forall (fun kv => fst kv <> "value") fields ->
  snd (receive urlHelper (exec (getVariables own_properties refId) p) reply)
  = Return (array (properties
                   ++ [variable "__proto__"
                         {| display := str "(property)"; id := undefined |}])).
Proof.
  intros Hp Hnm Hreply Hown Hproto Hfields.
  rewrite (proj1 (getVariables_grip_answered p reply refId Hp Hnm Hreply)).
  unfold returning, getVariables_grip.
  rewrite (response_not_nullish _ _ Hreply), Hown, Hproto.
  cbn [truthy]. unfold translateProperty, has_value.
  assert (existsb (fun kv : string * value => bool_decide (fst kv = "value")) fields = false)
    as ->; [|reflexivity].
  clear Hproto. induction Hfields as [|kv fields Hkv _ IH]; [reflexivity|].
  cbn [existsb]. rewrite (bool_decide_eq_false_2 _ Hkv). exact IH.
Qed.

End VariablesAnswered.

(** The bindings of the environment ["env3"]: one argument, one
    variable, with the fields of an object for its own properties. *)
Lemma getVariables_answered_witness :
  snd (receive LocalURLHelper
         (exec (getVariables
                  (fun v => match v with object fields => Some fields | _ => None end)
                  "env!env3")
            empty)
         (object [("from", str "env3");
                  ("bindings",
                   object [("arguments",
                            array [object [("n", object [("value", number 2)])]]);
                           ("variables",
                            object [("done", object [("value", boolean true)])])])]))
  = Return (array
      [object [("name", str "n");
               ("value", object [("display", str "2"); ("id", undefined)])];
       object [("name", str "done");
               ("value", object [("display", str "true"); ("id", undefined)])]]).
Proof.
  apply (proj1 (getVariables_answered
                  (fun v => match v with object fields => Some fields | _ => None end)
                  LocalURLHelper empty
                  (object [("from", str "env3");
                           ("bindings",
                            object [("arguments",
                                     array [object [("n", object [("value", number 2)])]]);
                                    ("variables",
                                     object [("done", object [("value", boolean true)])])])]))
           "env3").
  - discriminate.
  - split; reflexivity.
Defined.

(** The grip ["obj7"] of an object with one property, and its
    prototype ["obj8"]. *)
Lemma prototype_entry_is_placeholder_witness :
  snd (receive LocalURLHelper
         (exec (getVariables
                  (fun v => match v with object fields => Some fields | _ => None end)
                  "obj7")
            empty)
         (object [("from", str "obj7");
                  ("ownProperties", object [("x", object [("value", boolean true)])]);
                  ("prototype",
                   object [("type", str "object"); ("class", str "Object");
                           ("actor", str "obj8")])]))
  = Return (array
      [object [("name", str "x");
               ("value", object [("display", str "true"); ("id", undefined)])];
       object [("name", str "__proto__");
               ("value", object [("display", str "(property)"); ("id", undefined)])]]).
Proof.
  apply (prototype_entry_is_placeholder
           (fun v => match v with object fields => Some fields | _ => None end)
           LocalURLHelper empty
           (object [("from", str "obj7");
                    ("ownProperties", object [("x", object [("value", boolean true)])]);
                    ("prototype",
                     object [("type", str "object"); ("class", str "Object");
                             ("actor", str "obj8")])])
           "obj7"
           [object [("name", str "x");
                    ("value", object [("display", str "true"); ("id", undefined)])]]
           [("type", str "object"); ("class", str "Object"); ("actor", str "obj8")]).
  - reflexivity.
  - discriminate.
  - split; reflexivity.
  - reflexivity.
  - reflexivity.
  - repeat (apply List.Forall_cons; [discriminate|]). apply List.Forall_nil.
Defined.

End InspectionFacts.
